(** * pyhsmm [models.py]: the inference orchestration of HMM / HSMM models

    A shallow embedding of the model classes of [models.py] (HMM, StickyHMM,
    HSMM and their variants) and the properties of their Gibbs, EM, parallel
    and predictive-likelihood operations.

    Python objects live in a store ([heap]): a model, its posteriors and its
    chains ([states_list]) are objects with an identity, so that in-place
    mutation and aliasing are visible.  Methods run in a state-and-exception
    monad over the store.  The posterior classes ([basic.distributions],
    [internals.transitions], [internals.initial_state]), the chain classes
    ([internals.states]) and the [parallel] module are not part of the file;
    what the model calls on them is gathered in the [Collaborators]
    interface. *)

From stdpp Require Import base list strings gmap sorting.
From Stdlib Require Import ZArith QArith Reals Lra.
From Stdlib Require Lqa.
Close Scope Q_scope.

(** ** Exceptions and results *)

Inductive exn :=
| AssertionError (msg : string)
| TypeError (msg : string)
| NotImplementedError (msg : string)
| AttributeError (msg : string)
| IndexError (msg : string)
| CollaboratorError (msg : string).

Inductive result (A : Type) :=
| Ok (a : A)
| Raise (e : exn).
Arguments Ok {A} a.
Arguments Raise {A} e.

Definition is_ok {A} (r : result A) : bool :=
  match r with Ok _ => true | Raise _ => false end.

(** ** The collaborator interface *)

(** The classes of [models.py].  The [...Eigen] variants differ from their
    base class in the chain class only and are folded into it. *)
Inductive cls := HMM | StickyHMM | HSMM | HSMMIntNegBin | HSMMPossibleChangepoints.

Definition is_HSMM (c : cls) : bool :=
  match c with
  | HMM | StickyHMM => false
  | HSMM | HSMMIntNegBin | HSMMPossibleChangepoints => true
  end.

(** What a posterior's [resample] / [max_likelihood] is called with. *)
Inductive arg (Obs Tables : Type) :=
| ANone
| AData (d : list (list Obs))
| ASeqs (s : list (list nat))
| AFirst (s : list nat)
| ATables (t : list (option Tables))
| AWeights (t : list (option Tables)) (state : nat).
Arguments ANone {Obs Tables}.
Arguments AData {Obs Tables} d.
Arguments ASeqs {Obs Tables} s.
Arguments AFirst {Obs Tables} s.
Arguments ATables {Obs Tables} t.
Arguments AWeights {Obs Tables} t state.

Class Collaborators := {
  (** the sampled value a posterior object holds *)
  Param : Type;
  (** one observation *)
  Obs : Type;
  (** per-chain configuration ([trunc], censoring flags, [changepoints], ...) *)
  Kwargs : Type;
  (** a chain's cached tables ([aBl], [alphal], [betal], [expectations]) *)
  Tables : Type;
  (** concentration hyperparameters *)
  Hyper : Type;
  (** the [temp] argument of the Gibbs methods *)
  Temp : Type;
  (** a call without keyword arguments *)
  no_kwargs : Kwargs;
  (** log-likelihood values *)
  Score : Type;
  score_of_Z : Z → Score;
  score_add : Score → Score → Score;
  score_mul : Score → Score → Score;
  np_log : Z → Score;
  (** [distn.resample(...)], [distn.resample_with_truncations(...)] and
      [distn.max_likelihood(...)] of a posterior holding [p]; the first
      argument is the random draw *)
  distn_resample : nat → Param → list (arg Obs Tables) → Param;
  distn_max_likelihood : Param → list (arg Obs Tables) → Param;
  distn_num_parameters : Param → Z;
  (** constructors of the transition posteriors *)
  new_trans : cls → nat → option Hyper → option Hyper → Param;
  new_trans_conc : cls → nat → list (option Hyper) → Param;
  new_sticky_trans : nat → list (option Hyper) → Param;
  new_sticky_trans_conc : nat → list (option Hyper) → Param;
  new_initial_state : nat → Hyper → Param;
  (** the stationary distribution a derived initial state computes from the
      transition posterior (and, for an HSMM, the duration posteriors) *)
  steady_state : Param → list Param → Param;
  (** the chain class: [__init__] may refuse its arguments ([Some msg]);
      sampling a state sequence and reading the log-likelihood off the
      tables may fail ([None]) *)
  states_init_check : list Obs → Kwargs → option string;
  states_messages : list Param → Param → Param → list Param → list Obs → Kwargs → Tables;
  states_sample : nat → option Temp → Tables → option (list nat);
  states_viterbi : Tables → list nat;
  states_log_likelihood : Tables → option Score;
  (** the duration evidence of a chain for one state: observed and
      right-truncated durations *)
  states_durations : Kwargs → list nat → nat → list nat;
  states_durations_untrunc : Kwargs → list nat → nat → list nat;
  states_durations_trunc : Kwargs → list nat → nat → list nat;
  (** whether the chain is left-censored *)
  left_censoring : Kwargs → bool;
  (** [dict(trunc=s.trunc,left_censoring=...,right_censoring=...)] and its
      update with [changepoints] *)
  censoring_kwargs : Kwargs → Kwargs;
  changepoints_kwargs : Kwargs → Kwargs → Kwargs;
}.

(** ** The object store *)

(** Objects are named by their position in the store. *)
Abbreviation loc := nat (only parsing).

Section Models.
Context `{Collaborators}.

(** [internals.states]: one chain. *)
Record States := mkStates {
  model : loc;
  data : list Obs;
  stateseq : list nat;
  tables : option Tables;
  kwargs : Kwargs;
}.

(** The attributes of a model object; an attribute that was never assigned
    is [None] and reading it raises [AttributeError]. *)
Record Model := mkModel {
  klass : cls;
  num_states : option nat;
  obs_distns : option (list loc);
  states_list : option (list loc);
  trans_distn : option loc;
  init_state_distn : option loc;
  dur_distns : option (list loc);
  left_censoring_init_state_distn : option loc;
}.

Inductive obj :=
| Distn (p : Param)
    (* an observation, duration or transition posterior, or an
       [initial_state.InitialState]: it holds its own sampled value *)
| SteadyState (m : loc) (pi : option Param)
    (* [initial_state.SteadyState] / [HSMMSteadyState]: derived from the
       model [m], computed lazily, with [clear_caches] *)
| StatesObj (s : States)
| ModelObj (m : Model).

(** Ghost record of the collaborator calls a method makes, in order. *)
Inductive event :=
| EvObsResample (state : nat) (distn : loc)
| EvTransResample (distn : loc)
| EvInitResample (distn : loc)
| EvDurResample (state : nat) (distn : loc)
| EvClearCaches (target : loc)
| EvStatesResample (chain : loc).

Record state := mkState {
  heap : list obj;
  trace : list event;
  rng : nat;
}.

(** ** The monad of methods *)

Definition M (A : Type) : Type := state → result A * state.

Definition ret {A} (a : A) : M A := fun st => (Ok a, st).
Definition raise {A} (e : exn) : M A := fun st => (Raise e, st).
Definition bind {A B} (m : M A) (k : A → M B) : M B :=
  fun st => match m st with
            | (Ok a, st') => k a st'
            | (Raise e, st') => (Raise e, st')
            end.

Notation "x <- m ;; k" := (bind m (fun x => k))
  (at level 100, m at next level, right associativity,
   format "'[v' x  <-  m  ;;  '/' k ']'").
Notation "m ;;; k" := (bind m (fun _ => k))
  (at level 100, right associativity, format "'[v' m  ;;;  '/' k ']'").

(** An [assert] or [raise] without a message. *)
Definition no_message : string := EmptyString.

Definition py_assert (b : bool) (msg : string) : M unit :=
  if b then ret () else raise (AssertionError msg).

Definition attr {A} (name : string) (o : option A) : M A :=
  match o with Some a => ret a | None => raise (AttributeError name) end.

(** A collaborator's call that may raise. *)
Definition lift {A} (msg : string) (r : option A) : M A :=
  match r with Some a => ret a | None => raise (CollaboratorError msg) end.

Definition get_obj (l : loc) : M obj :=
  fun st => match heap st !! l with
            | Some o => (Ok o, st)
            | None => (Raise (AttributeError "dangling reference"), st)
            end.

Definition put_obj (l : loc) (o : obj) : M unit :=
  fun st => (Ok (), mkState (<[l := o]> (heap st)) (trace st) (rng st)).

Definition alloc (o : obj) : M loc :=
  fun st => (Ok (length (heap st)), mkState (heap st ++ [o]) (trace st) (rng st)).

Definition emit (e : event) : M unit :=
  fun st => (Ok (), mkState (heap st) (trace st ++ [e]) (rng st)).

Definition draw : M nat :=
  fun st => (Ok (rng st), mkState (heap st) (trace st) (S (rng st))).

Fixpoint for_each {A} (l : list A) (body : A → M unit) : M unit :=
  match l with
  | [] => ret ()
  | x :: l' => body x ;;; for_each l' body
  end.

Fixpoint map_M {A B} (f : A → M B) (l : list A) : M (list B) :=
  match l with
  | [] => ret []
  | x :: l' => y <- f x ;; ys <- map_M f l' ;; ret (y :: ys)
  end.

Definition get_model (self : loc) : M Model :=
  o <- get_obj self ;;
  match o with
  | ModelObj m => ret m
  | _ => raise (AttributeError "not a model")
  end.

Definition get_states (s : loc) : M States :=
  o <- get_obj s ;;
  match o with
  | StatesObj c => ret c
  | _ => raise (AttributeError "not a states object")
  end.

Definition get_distn (d : loc) : M Param :=
  o <- get_obj d ;;
  match o with
  | Distn p => ret p
  | _ => raise (AttributeError "not a distribution")
  end.

(** Attribute assignment on a model object. *)
Definition set_num_states (v : nat) (m : Model) : Model :=
  mkModel (klass m) (Some v) (obs_distns m) (states_list m) (trans_distn m)
          (init_state_distn m) (dur_distns m) (left_censoring_init_state_distn m).
Definition set_obs_distns (v : list loc) (m : Model) : Model :=
  mkModel (klass m) (num_states m) (Some v) (states_list m) (trans_distn m)
          (init_state_distn m) (dur_distns m) (left_censoring_init_state_distn m).
Definition set_states_list (v : list loc) (m : Model) : Model :=
  mkModel (klass m) (num_states m) (obs_distns m) (Some v) (trans_distn m)
          (init_state_distn m) (dur_distns m) (left_censoring_init_state_distn m).
Definition set_trans_distn (v : loc) (m : Model) : Model :=
  mkModel (klass m) (num_states m) (obs_distns m) (states_list m) (Some v)
          (init_state_distn m) (dur_distns m) (left_censoring_init_state_distn m).
Definition set_init_state_distn (v : loc) (m : Model) : Model :=
  mkModel (klass m) (num_states m) (obs_distns m) (states_list m) (trans_distn m)
          (Some v) (dur_distns m) (left_censoring_init_state_distn m).
Definition set_dur_distns (v : list loc) (m : Model) : Model :=
  mkModel (klass m) (num_states m) (obs_distns m) (states_list m) (trans_distn m)
          (init_state_distn m) (Some v) (left_censoring_init_state_distn m).
Definition set_left_censoring_init_state_distn (v : loc) (m : Model) : Model :=
  mkModel (klass m) (num_states m) (obs_distns m) (states_list m) (trans_distn m)
          (init_state_distn m) (dur_distns m) (Some v).

Definition setattr (self : loc) (f : Model → Model) : M unit :=
  m <- get_model self ;; put_obj self (ModelObj (f m)).

Definition set_stateseq (v : list nat) (s : States) : States :=
  mkStates (model s) (data s) v (tables s) (kwargs s).
Definition set_tables (v : option Tables) (s : States) : States :=
  mkStates (model s) (data s) (stateseq s) v (kwargs s).
Definition set_model (v : loc) (s : States) : States :=
  mkStates v (data s) (stateseq s) (tables s) (kwargs s).

(** ** Python values, for the expressions that depend on what is callable *)

Inductive value :=
| VInt (z : Z)
| VFloat (x : Score)
| VMethod (returns : value).

(** [f()] *)
Definition call (f : value) : M value :=
  match f with
  | VMethod r => ret r
  | VInt _ => raise (TypeError "'int' object is not callable")
  | VFloat _ => raise (TypeError "'float' object is not callable")
  end.

Definition as_int (v : value) : M Z :=
  match v with
  | VInt z => ret z
  | _ => raise (TypeError "an integer is required")
  end.

Definition as_float (v : value) : Score :=
  match v with
  | VInt z => score_of_Z z
  | VFloat x => x
  | VMethod _ => score_of_Z 0
  end.

(** [sum(...)] over integers and over scores, from the start value [0] *)
Definition py_sum (l : list Z) : Z := foldl Z.add 0%Z l.
Definition score_sum (l : list Score) : Score := foldl score_add (score_of_Z 0) l.

(** [enumerate(l)] *)
Definition enumerate {A} (l : list A) : list (nat * A) := imap (fun i x => (i, x)) l.

(** [data[stateseq == state]]: the observations labelled [state] (the two
    arrays have the same length) *)
Definition mask_select {A} (d : list A) (seq : list nat) (k : nat) : list A :=
  (filter (fun p => p.2 = k) (zip d seq)).*1.

(** ** The collaborators' objects *)

(** Modelled from the spec: [internals.initial_state] is not in the source.
    An explicit initial-state posterior holds its own value; the derived one
    is the stationary distribution of the model it refers to, recomputed
    lazily and kept until [clear_caches]. *)
Definition pi_0 (d : loc) : M Param :=
  o <- get_obj d ;;
  match o with
  | Distn p => ret p
  | SteadyState m (Some pi) => ret pi
  | SteadyState m None =>
      mo <- get_model m ;;
      t <- attr "trans_distn" (trans_distn mo) ;;
      A <- get_distn t ;;
      durs <- match dur_distns mo with
              | Some ds => map_M get_distn ds
              | None => ret []
              end ;;
      put_obj d (SteadyState m (Some (steady_state A durs))) ;;;
      ret (steady_state A durs)
  | _ => raise (AttributeError "pi_0")
  end.

(** Modelled from the spec: a posterior's in-place update through one of its
    methods; a derived initial state has no parameters of its own and its
    [resample] and [max_likelihood] change nothing. *)
Definition update_distn (d : loc) (f : Param → Param) : M unit :=
  o <- get_obj d ;;
  match o with
  | Distn p => put_obj d (Distn (f p))
  | SteadyState _ _ => ret ()
  | _ => raise (AttributeError "not a distribution")
  end.

(** Modelled from the spec: [copy_sample()] of a posterior is a new object
    with the same contents; it is not told the new model. *)
Definition distn_copy_sample (d : loc) : M loc :=
  o <- get_obj d ;;
  match o with
  | Distn p => alloc (Distn p)
  | SteadyState m pi => alloc (SteadyState m pi)
  | _ => raise (AttributeError "copy_sample")
  end.

(** Modelled from the spec: [clear_caches] of a derived initial state
    forgets the derived value; the other posteriors have no such method
    ([hasattr(d,'clear_caches')] is false for them). *)
Definition distn_clear_caches (d : loc) : M unit :=
  o <- get_obj d ;;
  match o with
  | SteadyState m _ => emit (EvClearCaches d) ;;; put_obj d (SteadyState m None)
  | _ => ret ()
  end.

(** Modelled from the spec: the chain class of [internals.states].  The
    chain reads the parameters of its model; its tables are computed on
    demand and kept until [clear_caches].  A left-censored chain of an HSMM
    takes its initial state from the instance the model keeps for left
    censoring. *)
Definition States_messages (s : loc) : M Tables :=
  c <- get_states s ;;
  match tables c with
  | Some t => ret t
  | None =>
      mo <- get_model (model c) ;;
      os <- attr "obs_distns" (obs_distns mo) ;;
      obs <- map_M get_distn os ;;
      t <- attr "trans_distn" (trans_distn mo) ;;
      A <- get_distn t ;;
      i <- (if is_HSMM (klass mo) && left_censoring (kwargs c)
            then attr "left_censoring_init_state_distn"
                      (left_censoring_init_state_distn mo)
            else attr "init_state_distn" (init_state_distn mo)) ;;
      pi <- pi_0 i ;;
      durs <- match dur_distns mo with
              | Some ds => map_M get_distn ds
              | None => ret []
              end ;;
      let t := states_messages obs A pi durs (data c) (kwargs c) in
      put_obj s (StatesObj (set_tables (Some t) c)) ;;;
      ret t
  end.

(** [s.stateseq = seq] *)
Definition States_set_stateseq (s : loc) (seq : list nat) : M unit :=
  c <- get_states s ;; put_obj s (StatesObj (set_stateseq seq c)).

(** Modelled from the spec: [s.resample(temp=temp)] draws a new state
    sequence from the tables of the chain; the draw may fail. *)
Definition States_resample (s : loc) (temp : option Temp) : M unit :=
  t <- States_messages s ;;
  n <- draw ;;
  emit (EvStatesResample s) ;;;
  q <- lift "resample" (states_sample n temp t) ;;
  States_set_stateseq s q.

(** Modelled from the spec: [s.Viterbi()] sets the state sequence to the
    most likely one. *)
Definition States_Viterbi (s : loc) : M unit :=
  t <- States_messages s ;;
  States_set_stateseq s (states_viterbi t).

(** Modelled from the spec: [s.E_step()] computes the tables, which hold
    the expectations. *)
Definition States_E_step (s : loc) : M unit :=
  States_messages s ;;; ret ().

(** Modelled from the spec: [s.log_likelihood()] reads the total
    log-likelihood off the forward messages. *)
Definition States_log_likelihood (s : loc) : M Score :=
  t <- States_messages s ;;
  lift "log_likelihood" (states_log_likelihood t).

(** Modelled from the spec: [s.clear_caches()] forgets the tables. *)
Definition States_clear_caches (s : loc) : M unit :=
  c <- get_states s ;;
  emit (EvClearCaches s) ;;;
  put_obj s (StatesObj (set_tables None c)).

(** Modelled from the spec: [s.copy_sample(new)] is a new chain with the
    same contents that refers to the model [new]. *)
Definition States_copy_sample (s : loc) (new : loc) : M loc :=
  c <- get_states s ;;
  alloc (StatesObj (set_model new c)).

(** Modelled from the spec:
    [_states_class(model=self,data=data,stateseq=stateseq,**kwargs)]; the
    class may refuse its arguments, and a chain built without a state
    sequence samples one. *)
Definition States_new (self : loc) (d : list Obs) (seq : option (list nat))
    (temp : option Temp) (kw : Kwargs) : M loc :=
  match states_init_check d kw with
  | Some msg => raise (CollaboratorError msg)
  | None =>
      match seq with
      | Some q => alloc (StatesObj (mkStates self d q None kw))
      | None =>
          s <- alloc (StatesObj (mkStates self d [] None kw)) ;;
          States_resample s temp ;;;
          ret s
      end
  end.

(** ** [HMM.__init__], [StickyHMM.__init__], [HSMM.__init__] *)

Definition is_Some_b {A} (o : option A) : bool :=
  match o with Some _ => true | None => false end.

Record HMM_args := mkHMM_args {
  a_obs_distns : list loc;
  a_trans_distn : option loc;
  a_alpha : option Hyper;
  a_gamma : option Hyper;
  a_alpha_a_0 : option Hyper;
  a_alpha_b_0 : option Hyper;
  a_gamma_a_0 : option Hyper;
  a_gamma_b_0 : option Hyper;
  a_init_state_distn : option loc;
  a_init_state_concentration : option Hyper;
}.

(** The three configuration modes of the constructor. *)
Definition mode_a (a : HMM_args) : bool := is_Some_b (a_trans_distn a).
Definition mode_b (a : HMM_args) : bool :=
  is_Some_b (a_alpha a) && is_Some_b (a_gamma a).
Definition mode_c (a : HMM_args) : bool :=
  is_Some_b (a_alpha_a_0 a) && is_Some_b (a_alpha_b_0 a)
  && is_Some_b (a_gamma_a_0 a) && is_Some_b (a_gamma_b_0 a).

(** A new instance of class [c], before [__init__] runs. *)
Definition blank (c : cls) : Model := mkModel c None None None None None None None.
Definition new_object (c : cls) : M loc := alloc (ModelObj (blank c)).

Definition HMM___init__ (self : loc) (a : HMM_args) : M unit :=
  setattr self (set_num_states (length (a_obs_distns a))) ;;;
  setattr self (set_obs_distns (a_obs_distns a)) ;;;
  setattr self (set_states_list []) ;;;
  py_assert (xorb (xorb (mode_a a) (mode_b a)) (mode_c a)) no_message ;;;
  m <- get_model self ;;
  n <- attr "num_states" (num_states m) ;;
  (match a_trans_distn a with
   | Some t => setattr self (set_trans_distn t)
   | None =>
       if is_Some_b (a_alpha a) then
         t <- alloc (Distn (new_trans (klass m) n (a_alpha a) (a_gamma a))) ;;
         setattr self (set_trans_distn t)
       else
         t <- alloc (Distn (new_trans_conc (klass m) n
                 [a_alpha_a_0 a; a_alpha_b_0 a; a_gamma_a_0 a; a_gamma_b_0 a])) ;;
         setattr self (set_trans_distn t)
   end) ;;;
  match a_init_state_distn a with
  | Some d => setattr self (set_init_state_distn d)
  | None =>
      match a_init_state_concentration a with
      | Some rho =>
          d <- alloc (Distn (new_initial_state n rho)) ;;
          setattr self (set_init_state_distn d)
      | None =>
          (* the steady state of the transition matrix *)
          d <- alloc (SteadyState self None) ;;
          setattr self (set_init_state_distn d)
      end
  end.

Record StickyHMM_args := mkStickyHMM_args {
  s_obs_distns : list loc;
  s_trans_distn : option loc;
  s_kappa : option Hyper;
  s_alpha : option Hyper;
  s_gamma : option Hyper;
  s_rho_a_0 : option Hyper;
  s_rho_b_0 : option Hyper;
  s_alphakappa_a_0 : option Hyper;
  s_alphakappa_b_0 : option Hyper;
  s_gamma_a_0 : option Hyper;
  s_gamma_b_0 : option Hyper;
  (* what [**kwargs] can still carry to [HMM.__init__] *)
  s_alpha_a_0 : option Hyper;
  s_alpha_b_0 : option Hyper;
  s_init_state_distn : option loc;
  s_init_state_concentration : option Hyper;
}.

Definition sticky_mode_a (a : StickyHMM_args) : bool := is_Some_b (s_trans_distn a).
Definition sticky_mode_b (a : StickyHMM_args) : bool :=
  is_Some_b (s_kappa a) && is_Some_b (s_alpha a) && is_Some_b (s_gamma a).
Definition sticky_mode_c (a : StickyHMM_args) : bool :=
  is_Some_b (s_rho_a_0 a) && is_Some_b (s_rho_b_0 a)
  && is_Some_b (s_alphakappa_a_0 a) && is_Some_b (s_alphakappa_b_0 a)
  && is_Some_b (s_gamma_a_0 a) && is_Some_b (s_gamma_b_0 a).

Definition StickyHMM___init__ (self : loc) (a : StickyHMM_args) : M unit :=
  py_assert (xorb (xorb (sticky_mode_a a) (sticky_mode_b a)) (sticky_mode_c a)) no_message ;;;
  (match s_trans_distn a with
   | Some t => setattr self (set_trans_distn t)
   | None =>
       if is_Some_b (s_kappa a) then
         t <- alloc (Distn (new_sticky_trans (length (s_obs_distns a))
                 [s_alpha a; s_gamma a; s_kappa a])) ;;
         setattr self (set_trans_distn t)
       else
         t <- alloc (Distn (new_sticky_trans_conc (length (s_obs_distns a))
                 [s_rho_a_0 a; s_rho_b_0 a; s_alphakappa_a_0 a;
                  s_alphakappa_b_0 a; s_gamma_a_0 a; s_gamma_b_0 a])) ;;
         setattr self (set_trans_distn t)
   end) ;;;
  m <- get_model self ;;
  HMM___init__ self
    (mkHMM_args (s_obs_distns a) (trans_distn m) None None
       (s_alpha_a_0 a) (s_alpha_b_0 a) None None
       (s_init_state_distn a) (s_init_state_concentration a)).

Definition HSMM___init__ (self : loc) (dur : list loc) (a : HMM_args) : M unit :=
  setattr self (set_dur_distns dur) ;;;
  HMM___init__ self a ;;;
  m <- get_model self ;;
  i <- attr "init_state_distn" (init_state_distn m) ;;
  o <- get_obj i ;;
  match o with
  | SteadyState _ _ => setattr self (set_left_censoring_init_state_distn i)
  | _ =>
      d <- alloc (SteadyState self None) ;;
      setattr self (set_left_censoring_init_state_distn d)
  end.

(** [HMM(...)], [StickyHMM(...)], [HSMM(...)]: the instance is made, then
    initialised; the call returns it when [__init__] returns. *)
Definition HMM_new (a : HMM_args) : M loc :=
  self <- new_object HMM ;; HMM___init__ self a ;;; ret self.
Definition StickyHMM_new (a : StickyHMM_args) : M loc :=
  self <- new_object StickyHMM ;; StickyHMM___init__ self a ;;; ret self.
Definition HSMM_new (dur : list loc) (a : HMM_args) : M loc :=
  self <- new_object HSMM ;; HSMM___init__ self dur a ;;; ret self.

(** ** Attaching data, the log-likelihood *)

(** [self.states_list.append(s)] and [self.states_list.pop()] *)
Definition states_list_append (self : loc) (s : loc) : M unit :=
  m <- get_model self ;;
  l <- attr "states_list" (states_list m) ;;
  put_obj self (ModelObj (set_states_list (l ++ [s]) m)).

Definition states_list_pop (self : loc) : M loc :=
  m <- get_model self ;;
  l <- attr "states_list" (states_list m) ;;
  match last l with
  | Some s => put_obj self (ModelObj (set_states_list (removelast l) m)) ;;; ret s
  | None => raise (IndexError "pop from empty list")
  end.

(** [add_data]; the override of [HSMM] adds defaults for [trunc] and the
    censoring flags, which are part of [Kwargs] here. *)
Definition add_data (self : loc) (d : list Obs) (seq : option (list nat))
    (temp : option Temp) (kw : Kwargs) : M unit :=
  m <- get_model self ;;
  attr "states_list" (states_list m) ;;;
  s <- States_new self d seq temp kw ;;
  states_list_append self s.

(** [np.empty(data.shape[0],dtype='int32')]: a placeholder of the right
    length, its contents are not read *)
Definition placeholder (d : list Obs) : list nat := replicate (length d) 0.

Definition log_likelihood (self : loc) (d : option (list Obs)) (kw : Kwargs) : M Score :=
  match d with
  | Some d =>
      add_data self d (Some (placeholder d)) None kw ;;;
      s <- states_list_pop self ;;
      States_log_likelihood s
  | None =>
      m <- get_model self ;;
      l <- attr "states_list" (states_list m) ;;
      lls <- map_M States_log_likelihood l ;;
      ret (score_sum lls)
  end.

(** ** Caches *)

Definition _clear_caches (self : loc) : M unit :=
  m <- get_model self ;;
  l <- attr "states_list" (states_list m) ;;
  for_each l States_clear_caches ;;;
  i <- attr "init_state_distn" (init_state_distn m) ;;
  distn_clear_caches i.

(** [__getstate__]: the state of the instance, as pickling and [copy.copy]
    take it, is a copy of its attributes, made after the caches are
    cleared *)
Definition __getstate__ (self : loc) : M Model :=
  _clear_caches self ;;;
  get_model self.

(** ** Gibbs sampling *)

Definition chains_of (self : loc) : M (list States) :=
  m <- get_model self ;;
  l <- attr "states_list" (states_list m) ;;
  map_M get_states l.

Definition resample_obs_distns (self : loc) (temp : option Temp) : M unit :=
  m <- get_model self ;;
  os <- attr "obs_distns" (obs_distns m) ;;
  for_each (enumerate os) (fun sd =>
    cs <- chains_of self ;;
    n <- draw ;;
    emit (EvObsResample sd.1 sd.2) ;;;
    update_distn sd.2 (fun p =>
      distn_resample n p
        [AData (map (fun s => mask_select (data s) (stateseq s) sd.1) cs)])) ;;;
  _clear_caches self.

Definition resample_trans_distn (self : loc) (temp : option Temp) : M unit :=
  m <- get_model self ;;
  t <- attr "trans_distn" (trans_distn m) ;;
  cs <- chains_of self ;;
  n <- draw ;;
  emit (EvTransResample t) ;;;
  update_distn t (fun p => distn_resample n p [ASeqs (map stateseq cs)]) ;;;
  _clear_caches self.

Definition resample_init_state_distn (self : loc) (temp : option Temp) : M unit :=
  m <- get_model self ;;
  i <- attr "init_state_distn" (init_state_distn m) ;;
  cs <- chains_of self ;;
  n <- draw ;;
  emit (EvInitResample i) ;;;
  update_distn i (fun p =>
    distn_resample n p [ASeqs (map (fun s => take 1 (stateseq s)) cs)]) ;;;
  _clear_caches self.

Definition resample_dur_distns (self : loc) (temp : option Temp) : M unit :=
  m <- get_model self ;;
  ds <- attr "dur_distns" (dur_distns m) ;;
  for_each (enumerate ds) (fun sd =>
    cs <- chains_of self ;;
    n <- draw ;;
    emit (EvDurResample sd.1 sd.2) ;;;
    update_distn sd.2 (fun p =>
      distn_resample n p
        [ASeqs (map (fun s => states_durations_untrunc (kwargs s) (stateseq s) sd.1) cs);
         ASeqs (map (fun s => states_durations_trunc (kwargs s) (stateseq s) sd.1) cs)])) ;;;
  _clear_caches self.

Definition HMM_resample_parameters (self : loc) (temp : option Temp) : M unit :=
  resample_obs_distns self temp ;;;
  resample_trans_distn self temp ;;;
  resample_init_state_distn self temp.

Definition HSMM_resample_parameters (self : loc) (temp : option Temp) : M unit :=
  resample_dur_distns self temp ;;;
  HMM_resample_parameters self temp.

(** [self.resample_parameters(...)]: the method of the class of [self] *)
Definition resample_parameters (self : loc) (temp : option Temp) : M unit :=
  m <- get_model self ;;
  if is_HSMM (klass m) then HSMM_resample_parameters self temp
  else HMM_resample_parameters self temp.

Definition resample_states (self : loc) (temp : option Temp) : M unit :=
  m <- get_model self ;;
  l <- attr "states_list" (states_list m) ;;
  for_each l (fun s => States_resample s temp).

Definition resample_model (self : loc) (temp : option Temp) : M unit :=
  resample_parameters self temp ;;;
  resample_states self temp.

(** ** [copy_sample] *)

(** [copy.copy(self)]: a new instance of the class of [self] whose
    attributes are the state [self.__getstate__()] returns (the classes
    define no [__copy__], [__reduce__] or [__setstate__]) *)
Definition copy_copy (self : loc) : M loc :=
  d <- __getstate__ self ;;
  alloc (ModelObj d).

Definition HMM_copy_sample (self : loc) : M loc :=
  new <- copy_copy self ;;
  m <- get_model self ;;
  os <- attr "obs_distns" (obs_distns m) ;;
  os' <- map_M distn_copy_sample os ;;
  setattr new (set_obs_distns os') ;;;
  t <- attr "trans_distn" (trans_distn m) ;;
  t' <- distn_copy_sample t ;;
  setattr new (set_trans_distn t') ;;;
  i <- attr "init_state_distn" (init_state_distn m) ;;
  i' <- distn_copy_sample i ;;
  setattr new (set_init_state_distn i') ;;;
  l <- attr "states_list" (states_list m) ;;
  l' <- map_M (fun s => States_copy_sample s new) l ;;
  setattr new (set_states_list l') ;;;
  ret new.

Definition HSMM_copy_sample (self : loc) : M loc :=
  new <- HMM_copy_sample self ;;
  m <- get_model self ;;
  ds <- attr "dur_distns" (dur_distns m) ;;
  ds' <- map_M distn_copy_sample ds ;;
  setattr new (set_dur_distns ds') ;;;
  ret new.

Definition copy_sample (self : loc) : M loc :=
  m <- get_model self ;;
  if is_HSMM (klass m) then HSMM_copy_sample self else HMM_copy_sample self.

(** ** Parallel resampling *)

(** [_state_sampler], run on an engine whose globals hold [global_model]
    and [temp] *)
Definition _state_sampler (global_model : loc) (temp : option Temp)
    (d : list Obs) (kw : Kwargs) : M (list nat) :=
  add_data global_model d None temp kw ;;;
  s <- states_list_pop global_model ;;
  c <- get_states s ;;
  ret (stateseq c).

(** Modelled from the spec: [parallel.map_on_each] is not in the source.
    One job per chain; each runs on a worker against its own copy of the
    store as it was pushed, and only its result comes back; the results are
    in the order of the jobs; a job that raises makes the map raise. *)
Fixpoint run_jobs {A B} (job : A → M B) (jobs : list A) (pushed : state)
    : result (list B) :=
  match jobs with
  | [] => Ok []
  | j :: jobs' =>
      match job j (mkState (heap pushed) (trace pushed) (rng pushed + length jobs')) with
      | (Ok r, _) =>
          match run_jobs job jobs' pushed with
          | Ok rs => Ok (r :: rs)
          | Raise e => Raise e
          end
      | (Raise e, _) => Raise e
      end
  end.

Definition map_on_each (f : list Obs → Kwargs → M (list nat))
    (datas : list (list Obs)) (kwargss : option (list Kwargs)) : M (list (list nat)) :=
  fun st =>
    let jobs := match kwargss with
                | Some ks => zip datas ks
                | None => map (fun d => (d, no_kwargs)) datas
                end in
    (run_jobs (fun j => f j.1 j.2) jobs st,
     mkState (heap st) (trace st) (rng st + length jobs)).

Definition _get_parallel_data (s : loc) : M (list Obs) :=
  c <- get_states s ;; ret (data c).

Definition _get_parallel_kwargss (self : loc) (states_objs : list loc)
    : M (option (list Kwargs)) :=
  m <- get_model self ;;
  match klass m with
  | HMM | StickyHMM => ret None
  | HSMM | HSMMIntNegBin =>
      ks <- map_M (fun s => c <- get_states s ;; ret (censoring_kwargs (kwargs c)))
              states_objs ;;
      ret (Some ks)
  | HSMMPossibleChangepoints =>
      ks <- map_M (fun s => c <- get_states s ;; ret (censoring_kwargs (kwargs c)))
              states_objs ;;
      cs <- map_M get_states states_objs ;;
      ret (Some (zip_with (fun k c => changepoints_kwargs k (kwargs c)) ks cs))
  end.

Definition resample_states_parallel (self : loc) (temp : option Temp) : M unit :=
  m <- get_model self ;;
  states_to_resample <- attr "states_list" (states_list m) ;;
  setattr self (set_states_list []) ;;;   (* removed because we push the global model *)
  datas <- map_M _get_parallel_data states_to_resample ;;
  kwargss <- _get_parallel_kwargss self states_to_resample ;;
  raw <- map_on_each (_state_sampler self temp) datas kwargss ;;
  for_each (zip states_to_resample raw) (fun sq => States_set_stateseq sq.1 sq.2) ;;;
  setattr self (set_states_list states_to_resample).

Definition resample_model_parallel (self : loc) (temp : option Temp) : M unit :=
  resample_parameters self temp ;;;
  resample_states_parallel self temp.

(** ** EM *)

Definition HMM_EM_step (self : loc) : M unit :=
  m <- get_model self ;;
  l <- attr "states_list" (states_list m) ;;
  py_assert (bool_decide (0 < length l)) "Must have data to run EM" ;;;
  _clear_caches self ;;;
  (* E step *)
  for_each l States_E_step ;;;
  (* M step: observation distribution parameters *)
  os <- attr "obs_distns" (obs_distns m) ;;
  for_each (enumerate os) (fun sd =>
    cs <- chains_of self ;;
    update_distn sd.2 (fun p =>
      distn_max_likelihood p [AData (map data cs); AWeights (map tables cs) sd.1])) ;;;
  (* initial distribution parameters *)
  i <- attr "init_state_distn" (init_state_distn m) ;;
  cs <- chains_of self ;;
  update_distn i (fun p => distn_max_likelihood p [ANone; AWeights (map tables cs) 0]) ;;;
  (* transition parameters *)
  t <- attr "trans_distn" (trans_distn m) ;;
  cs <- chains_of self ;;
  update_distn t (fun p => distn_max_likelihood p [ANone; ATables (map tables cs)]).

Definition HMM_Viterbi_EM_step (self : loc) : M unit :=
  m <- get_model self ;;
  l <- attr "states_list" (states_list m) ;;
  py_assert (bool_decide (0 < length l)) "Must have data to run Viterbi EM" ;;;
  _clear_caches self ;;;
  (* Viterbi step *)
  for_each l States_Viterbi ;;;
  (* M step: observation distribution parameters *)
  os <- attr "obs_distns" (obs_distns m) ;;
  for_each (enumerate os) (fun sd =>
    cs <- chains_of self ;;
    update_distn sd.2 (fun p =>
      distn_max_likelihood p
        [AData (map (fun s => mask_select (data s) (stateseq s) sd.1) cs)])) ;;;
  (* initial distribution parameters *)
  i <- attr "init_state_distn" (init_state_distn m) ;;
  cs <- chains_of self ;;
  firsts <- map_M (fun s => match stateseq s with
                            | q :: _ => ret q
                            | [] => raise (IndexError "index 0 is out of bounds")
                            end) cs ;;
  update_distn i (fun p => distn_max_likelihood p [AFirst firsts]) ;;;
  (* transition parameters *)
  t <- attr "trans_distn" (trans_distn m) ;;
  cs <- chains_of self ;;
  update_distn t (fun p => distn_max_likelihood p [ASeqs (map stateseq cs)]).

Definition HSMM_EM_step (self : loc) : M unit :=
  HMM_EM_step self ;;;
  (* M step for duration distributions *)
  m <- get_model self ;;
  ds <- attr "dur_distns" (dur_distns m) ;;
  for_each (enumerate ds) (fun sd =>
    cs <- chains_of self ;;
    update_distn sd.2 (fun p =>
      distn_max_likelihood p [ANone; AWeights (map tables cs) sd.1])).

Definition HSMM_Viterbi_EM_step (self : loc) : M unit :=
  HMM_Viterbi_EM_step self ;;;
  (* M step for duration distributions *)
  m <- get_model self ;;
  ds <- attr "dur_distns" (dur_distns m) ;;
  for_each (enumerate ds) (fun sd =>
    cs <- chains_of self ;;
    update_distn sd.2 (fun p =>
      distn_max_likelihood p
        [ASeqs (map (fun s => states_durations (kwargs s) (stateseq s) sd.1) cs)])).

(** [self.EM_step()] and [self.Viterbi_EM_step()]: the method of the class
    of [self] *)
Definition EM_step (self : loc) : M unit :=
  m <- get_model self ;;
  match klass m with
  | HMM => HMM_EM_step self
  | StickyHMM => raise (NotImplementedError "Can't run EM on a StickyHMM")
  | HSMM | HSMMPossibleChangepoints => HSMM_EM_step self
  | HSMMIntNegBin => raise (NotImplementedError no_message)
  end.

Definition Viterbi_EM_step (self : loc) : M unit :=
  m <- get_model self ;;
  if is_HSMM (klass m) then HSMM_Viterbi_EM_step self
  else HMM_Viterbi_EM_step self.

Definition MAP_EM_step (self : loc) : M unit := Viterbi_EM_step self.

(** ** The number of parameters and BIC *)

Definition distns_num_parameters (ds : list loc) : M (list Z) :=
  map_M (fun o =>
    p <- get_distn o ;;
    v <- call (VMethod (VInt (distn_num_parameters p))) ;;   (* o.num_parameters() *)
    as_int v) ds.

(** The property [HMM.num_parameters] *)
Definition HMM_num_parameters (self : loc) : M value :=
  m <- get_model self ;;
  os <- attr "obs_distns" (obs_distns m) ;;
  ns <- distns_num_parameters os ;;
  n <- attr "num_states" (num_states m) ;;
  ret (VInt (py_sum ns + Z.of_nat n ^ 2)).

(** The property [HSMM.num_parameters] *)
Definition HSMM_num_parameters (self : loc) : M value :=
  m <- get_model self ;;
  os <- attr "obs_distns" (obs_distns m) ;;
  ns <- distns_num_parameters os ;;
  ds <- attr "dur_distns" (dur_distns m) ;;
  ms <- distns_num_parameters ds ;;
  n <- attr "num_states" (num_states m) ;;
  ret (VInt (py_sum ns + py_sum ms + Z.of_nat n ^ 2 - Z.of_nat n)).

(** [self.num_parameters]: reading the property evaluates it *)
Definition num_parameters (self : loc) : M value :=
  m <- get_model self ;;
  if is_HSMM (klass m) then HSMM_num_parameters self else HMM_num_parameters self.

Definition BIC (self : loc) (d : option (list Obs)) : M Score :=
  m <- get_model self ;;
  l <- attr "states_list" (states_list m) ;;
  py_assert (negb (is_Some_b d) && bool_decide (0 < length l))
    "Must have data to get BIC" ;;;
  match d with
  | None =>
      lls <- map_M (fun s =>
               c <- get_states s ;;
               log_likelihood self (Some (data c)) no_kwargs) l ;;
      np <- num_parameters self ;;
      v <- call np ;;                     (* self.num_parameters() *)
      cs <- chains_of self ;;
      ret (score_add
             (score_mul (score_of_Z (-2)) (score_sum lls))
             (score_mul (as_float v)
                (np_log (py_sum (map (fun s => Z.of_nat (length (data s))) cs)))))
  | Some d =>
      ll <- log_likelihood self (Some d) no_kwargs ;;
      np <- num_parameters self ;;
      v <- call np ;;
      ret (score_add
             (score_mul (score_of_Z (-2)) ll)
             (score_mul (as_float v) (np_log (Z.of_nat (length d)))))
  end.

End Models.

(** ** Predictive likelihoods

    The numeric part of [predictive_likelihoods] and
    [block_predictive_likelihoods].  Both build a chain [s] for the test
    data, which is not attached to the model, and read its tables:
    [s.trans_matrix], [s.aBl] (the log-likelihood of each observation under
    each state) and the forward messages.

    The entries of the arrays are the floats of numpy with their values
    [inf], [-inf] and [nan], so that [np.log(0)] is [-inf] and
    [-inf - (-inf)] is [nan]; the arithmetic on the finite values is the
    exact one of the real numbers, without rounding. *)

Module Predictive.
Local Open Scope R_scope.

Inductive float :=
| Fin (x : R)
| PInf
| NInf
| NaN.

(** [x + y], [-x], [x - y], [x * y] *)
Definition fadd (x y : float) : float :=
  match x, y with
  | NaN, _ | _, NaN => NaN
  | Fin a, Fin b => Fin (a + b)
  | PInf, NInf | NInf, PInf => NaN
  | PInf, _ | _, PInf => PInf
  | NInf, _ | _, NInf => NInf
  end.

Definition fneg (x : float) : float :=
  match x with
  | Fin a => Fin (- a)
  | PInf => NInf
  | NInf => PInf
  | NaN => NaN
  end.

Definition fsub (x y : float) : float := fadd x (fneg y).

(** the infinity of the sign of [a], [nan] for [a = 0] *)
Definition signed_inf (a : R) : float :=
  if Rlt_dec 0 a then PInf else if Rlt_dec a 0 then NInf else NaN.

Definition fmul (x y : float) : float :=
  match x, y with
  | NaN, _ | _, NaN => NaN
  | Fin a, Fin b => Fin (a * b)
  | Fin a, PInf | PInf, Fin a => signed_inf a
  | Fin a, NInf | NInf, Fin a => signed_inf (- a)
  | PInf, PInf | NInf, NInf => PInf
  | PInf, NInf | NInf, PInf => NInf
  end.

(** [np.exp] and [np.log] *)
Definition fexp (x : float) : float :=
  match x with
  | Fin a => Fin (exp a)
  | PInf => PInf
  | NInf => Fin 0
  | NaN => NaN
  end.

Definition flog (x : float) : float :=
  match x with
  | Fin a => if Rlt_dec 0 a then Fin (ln a) else if Req_dec_T a 0 then NInf else NaN
  | PInf => PInf
  | NInf => NaN
  | NaN => NaN
  end.

(** the maximum of two entries, as [max] takes it: [nan] wins *)
Definition fmax (x y : float) : float :=
  match x, y with
  | NaN, _ | _, NaN => NaN
  | PInf, _ | _, PInf => PInf
  | NInf, z | z, NInf => z
  | Fin a, Fin b => Fin (Rmax a b)
  end.

Definition matrix := list (list float).

Record chain_tables := mkTables {
  pi0 : list float;
  trans_matrix : matrix;
  aBl : matrix;
}.

(** [np.logaddexp], which is [log(exp(x) + exp(y))], and
    [np.logaddexp.reduce(row)], whose value on an empty row is the
    identity [-inf] *)
Definition logaddexp (x y : float) : float := flog (fadd (fexp x) (fexp y)).
Definition logaddexp_reduce (row : list float) : float :=
  match row with
  | [] => NInf
  | x :: xs => foldl logaddexp x xs
  end.

(** [row.max()]; the rows have one entry per state and a model has at
    least one state *)
Definition row_max (row : list float) : float :=
  match row with
  | [] => NaN
  | x :: xs => foldl fmax x xs
  end.

Definition vsum (v : list float) : float := foldr fadd (Fin 0) v.
Definition dot (u v : list float) : float := vsum (zip_with fmul u v).
Definition col (j : nat) (A : matrix) : list float := map (fun r => nth j r NaN) A.
Definition ncols (A : matrix) : nat :=
  match A with
  | [] => O
  | r :: _ => length r
  end.

(** [v.dot(A)] and [X.dot(A)] *)
Definition vec_mat (v : list float) (A : matrix) : list float :=
  map (fun j => dot v (col j A)) (seq 0 (ncols A)).
Definition mat_mul (X A : matrix) : matrix := map (fun v => vec_mat v A) X.

Definition identity (n : nat) : matrix :=
  map (fun i => map (fun j => if Nat.eqb i j then Fin 1 else Fin 0) (seq 0 n)) (seq 0 n).

(** [np.linalg.matrix_power(A,n)] for [n >= 0] *)
Fixpoint matrix_power (A : matrix) (n : nat) : matrix :=
  match n with
  | O => identity (length A)
  | S n' =>
      match n' with
      | O => A
      | S _ => mat_mul (matrix_power A n') A
      end
  end.

(** [l[:-k]] (for [k = 0] this is [l[:0]], the empty slice) and [l[k:]] *)
Definition slice_to_neg {A} (k : nat) (l : list A) : list A :=
  match k with
  | O => []
  | S _ => take (length l - k) l
  end.
Definition slice_from {A} (k : nat) (l : list A) : list A := drop k l.

(** [X + c[:,None]], [X - c[:,None]] and [X + Y] on arrays of equal shape *)
Definition add_column (X : matrix) (c : list float) : matrix :=
  zip_with (fun row ci => map (fun x => fadd x ci) row) X c.
Definition sub_column (X : matrix) (c : list float) : matrix :=
  zip_with (fun row ci => map (fun x => fsub x ci) row) X c.
Definition mat_add (X Y : matrix) : matrix := zip_with (zip_with fadd) X Y.

(** Modelled from the spec: [messages_forwards] of the chain class is not in
    the source.  The forward algorithm in log space:
    [alphal[0] = log(pi_0) + aBl[0]] and
    [alphal[t+1] = logaddexp.reduce(alphal[t] + log(A).T, axis=1) + aBl[t+1]]. *)
Definition forward_step (A : matrix) (prev b : list float) : list float :=
  zip_with fadd
    (map (fun j => logaddexp_reduce (zip_with fadd prev (map flog (col j A))))
         (seq 0 (ncols A)))
    b.

Fixpoint forward_from (A : matrix) (prev : list float) (rest : matrix) : matrix :=
  match rest with
  | [] => []
  | b :: rest' => forward_step A prev b :: forward_from A (forward_step A prev b) rest'
  end.

Definition messages_forwards (s : chain_tables) : matrix :=
  match aBl s with
  | [] => []
  | b :: rest =>
      zip_with fadd (map flog (pi0 s)) b
      :: forward_from (trans_matrix s) (zip_with fadd (map flog (pi0 s)) b) rest
  end.

(** The variables of the loop of [predictive_likelihoods] *)
Record loop := mkLoop {
  cmaxes : list float;
  scaled_alphal : matrix;
  prev_k : nat;
  outs : list (list float);
}.

(** One iteration, for the horizon [k]; the horizons are positive and
    strictly ascending, so that [step = k - prev_k] is positive and the
    arrays that are added have the same shape. *)
Definition predictive_iteration (s : chain_tables) (alphal : matrix)
    (v : loop) (k : nat) : loop :=
  let step := (k - prev_k v)%nat in
  let cmaxes' := slice_to_neg step (cmaxes v) in
  let scaled_alphal' :=
    mat_mul (slice_to_neg step (scaled_alphal v))
            (matrix_power (trans_matrix s) step) in
  let future_likelihoods :=
    map logaddexp_reduce
      (mat_add (add_column (map (map flog) scaled_alphal') cmaxes')
               (slice_from k (aBl s))) in
  let past_likelihoods := map logaddexp_reduce (slice_to_neg k alphal) in
  mkLoop cmaxes' scaled_alphal' k
         (outs v ++ [zip_with fsub future_likelihoods past_likelihoods]).

Definition predictive_likelihoods (s : chain_tables) (forecast_horizons : list nat)
    : list (list float) :=
  let alphal := messages_forwards s in
  let cmaxes := map row_max alphal in
  let scaled_alphal := map (map fexp) (sub_column alphal cmaxes) in
  outs (foldl (predictive_iteration s alphal)
              (mkLoop cmaxes scaled_alphal 0 []) forecast_horizons).

Definition block_predictive_likelihoods (s : chain_tables) (blocklens : list nat)
    : list (list float) :=
  let alphal := messages_forwards s in
  map (fun k =>
         zip_with fsub
           (map logaddexp_reduce (slice_from k alphal))
           (map logaddexp_reduce (slice_to_neg k alphal)))
      blocklens.

(** A probability, or any other weight: a real number that is not
    negative. *)
Definition is_weight (x : float) : Prop := ∃ r, x = Fin r ∧ 0 <= r.

(** The tables have the shape of a model with [K >= 1] states, and the
    entries of the transition matrix are weights. *)
Definition well_formed (s : chain_tables) : Prop :=
  (0 < length (trans_matrix s))%nat
  ∧ length (pi0 s) = length (trans_matrix s)
  ∧ Forall (fun r => length r = length (trans_matrix s) ∧ Forall is_weight r)
           (trans_matrix s)
  ∧ Forall (fun b => length b = length (trans_matrix s)) (aBl s).

(** A chain with a single state, three observations. *)
Definition one_state_chain : chain_tables :=
  mkTables [Fin 1] [[Fin 1]] [[Fin 0]; [Fin (-1)]; [Fin 0]].

(** A chain with two states, the second of which is never left and cannot
    have made the second observation; three observations. *)
Definition two_state_chain : chain_tables :=
  mkTables [Fin (1/2); Fin (1/2)] [[Fin (1/2); Fin (1/2)]; [Fin 0; Fin 1]]
           [[Fin 0; Fin (-1)]; [Fin (-1); NInf]; [Fin (-2); Fin (-1)]].

End Predictive.

Notation "x <- m ;; k" := (bind m (fun x => k))
  (at level 100, m at next level, right associativity,
   format "'[v' x  <-  m  ;;  '/' k ']'").
Notation "m ;;; k" := (bind m (fun _ => k))
  (at level 100, right associativity, format "'[v' m  ;;;  '/' k ']'").

(** ** A small instance of the collaborators, and stores to run the methods on *)

Module Demo.

(** Posteriors hold an integer; [resample] moves it, so that a resampled
    posterior can be told from its earlier value.  A chain's tables are its
    data; a chain with a negative observation cannot be sampled.  The
    keyword arguments of a chain are its left-censoring flag. *)
Definition demo : Collaborators := {|
  Param := Z;
  Obs := Z;
  Kwargs := bool;
  Tables := list Z;
  Hyper := Z;
  Temp := unit;
  no_kwargs := false;
  Score := Z;
  score_of_Z := fun z => z;
  score_add := Z.add;
  score_mul := Z.mul;
  np_log := Z.log2;
  distn_resample := fun _ p _ => (p + 1)%Z;
  distn_max_likelihood := fun p _ => p;
  distn_num_parameters := fun _ => 2%Z;
  new_trans := fun _ _ _ _ => 10%Z;
  new_trans_conc := fun _ _ _ => 20%Z;
  new_sticky_trans := fun _ _ => 30%Z;
  new_sticky_trans_conc := fun _ _ => 40%Z;
  new_initial_state := fun _ rho => rho;
  steady_state := fun A _ => A;
  states_init_check := fun _ _ => None;
  states_messages := fun _ _ _ _ d _ => d;
  states_sample := fun _ _ t =>
    if forallb (fun x => 0 <=? x)%Z t then Some (map (fun x => Z.to_nat x `mod` 2) t)
    else None;
  states_viterbi := fun t => map (fun x => Z.to_nat x `mod` 2) t;
  states_log_likelihood := fun t => Some (foldr Z.add 0%Z t);
  states_durations := fun _ q _ => q;
  states_durations_untrunc := fun _ q _ => q;
  states_durations_trunc := fun _ _ _ => [];
  left_censoring := fun k => k;
  censoring_kwargs := fun k => k;
  changepoints_kwargs := fun k _ => k;
|}.
#[local] Existing Instance demo.

Definition empty_store : state := mkState [] [] 0.

Definition run {A} (m : M A) (st : state) : state := (m st).2.

(** [HMM(obs_distns=[o0,o1],alpha=1,gamma=1)] *)
Definition hmm_args : HMM_args :=
  mkHMM_args [0; 1] None (Some 1%Z) (Some 1%Z) None None None None None None.

(** All three configuration modes at once. *)
Definition all_modes_args : HMM_args :=
  mkHMM_args [0; 1] (Some 2) (Some 1%Z) (Some 1%Z)
    (Some 1%Z) (Some 1%Z) (Some 1%Z) (Some 1%Z) None None.

Definition all_modes_sticky_args : StickyHMM_args :=
  mkStickyHMM_args [0; 1] (Some 2) (Some 1%Z) (Some 1%Z) (Some 1%Z)
    (Some 1%Z) (Some 1%Z) (Some 1%Z) (Some 1%Z) (Some 1%Z) (Some 1%Z)
    None None None None.

(** Two observation posteriors (objects 0 and 1) and a transition posterior
    (object 2), built by the caller. *)
Definition distns_store : state :=
  run (alloc (Distn 3%Z) ;;; alloc (Distn 5%Z) ;;; alloc (Distn 7%Z)) empty_store.

(** An HMM (object 3) without chains. *)
Definition hmm_store0 : state := run (HMM_new hmm_args) distns_store.

(** An HMM (object 3, with its transition posterior 4 and derived initial
    state 5) with one chain (object 6) attached with its state sequence. *)
Definition hmm_store : state :=
  run (self <- HMM_new hmm_args ;;
       add_data self [1; 2; 3]%Z (Some [0; 1; 0]) None false) distns_store.
Definition hmm : loc := 3.

(** The same HMM with a second chain (object 7) whose data cannot be
    sampled. *)
Definition hmm_store2 : state :=
  run (add_data hmm [4; -1]%Z (Some [0; 1]) None false) hmm_store.

(** An HSMM (object 5; duration posteriors 3 and 4, transition posterior 6,
    derived initial state 7, which is also its left-censoring initial
    state) with one chain (object 8), after one Gibbs sweep. *)
Definition hsmm_store : state :=
  run (alloc (Distn 11%Z) ;;; alloc (Distn 13%Z) ;;;
       self <- HSMM_new [3; 4] hmm_args ;;
       add_data self [1; 2; 3]%Z (Some [0; 1; 0]) None false ;;;
       resample_model self None) distns_store.
Definition hsmm : loc := 5.

(** An HSMM (object 6) with an explicit initial-state posterior (object 5);
    its left-censoring initial state is a derived one of its own
    (object 8).  One left-censored chain (object 9), after a first sampling
    of its states. *)
Definition hsmm_explicit_args : HMM_args :=
  mkHMM_args [0; 1] None (Some 1%Z) (Some 1%Z) None None None None (Some 5) None.
Definition hsmm_explicit_store : state :=
  run (alloc (Distn 11%Z) ;;; alloc (Distn 13%Z) ;;; alloc (Distn 17%Z) ;;;
       self <- HSMM_new [3; 4] hsmm_explicit_args ;;
       add_data self [1; 2; 3]%Z (Some [0; 1; 0]) None true ;;;
       resample_states self None) distns_store.
Definition hsmm_explicit : loc := 6.

End Demo.

(** ** The vocabulary of the properties *)

Section Vocabulary.
Context `{Collaborators}.

(** The call-time precondition failures: a failed assertion, or a method
    that the class refuses. *)
Definition precondition_error (e : exn) : Prop :=
  match e with
  | AssertionError _ | NotImplementedError _ => True
  | _ => False
  end.

(** The model object [self] of a store, and its chains. *)
Definition model_at (st : state) (self : loc) : option Model :=
  match heap st !! self with
  | Some (ModelObj m) => Some m
  | _ => None
  end.

Definition chains_at (st : state) (self : loc) : option (list loc) :=
  m ← model_at st self; states_list m.

Definition states_at (st : state) (s : loc) : option States :=
  match heap st !! s with
  | Some (StatesObj c) => Some c
  | _ => None
  end.

Definition stateseq_at (st : state) (s : loc) : option (list nat) :=
  stateseq <$> states_at st s.

(** The posteriors [ds] hold the values [ps]. *)
Definition distns_at (st : state) (ds : list loc) (ps : list Param) : Prop :=
  Forall2 (fun d p => heap st !! d = Some (Distn p)) ds ps.

(** The sum of a list of counts. *)
Definition total (l : list Z) : Z := foldr Z.add 0%Z l.

(** The ordered pairs of states between which a transition is possible;
    an HSMM has no self-transitions. *)
Definition transitions (self_transitions : bool) (n : nat) : list (nat * nat) :=
  List.filter (fun ij => self_transitions || negb (ij.1 =? ij.2))
              (list_prod (seq 0 n) (seq 0 n)).

End Vocabulary.

Section Frames.
Context `{Collaborators}.

(** A method that only reads the store. *)
Definition reads {A} (m : M A) : Prop := ∀ st, (m st).2 = st.

(** A method all of whose runs relate the store before and after by [R]. *)
Definition preserves {A} (R : relation state) (m : M A) : Prop :=
  ∀ st, R st (m st).2.

(** What can happen to an object while chains and caches are worked on:
    a model and a posterior stay as they are; a chain stays a chain of the
    same model with the same data; a derived initial state stays one of the
    same model. *)
Definition chain_step (o o' : obj) : Prop :=
  match o, o' with
  | ModelObj m, ModelObj m' => m' = m
  | Distn p, Distn p' => p' = p
  | StatesObj c, StatesObj c' =>
      model c' = model c ∧ data c' = data c ∧ kwargs c' = kwargs c
  | SteadyState m _, SteadyState m' _ => m' = m
  | _, _ => False
  end.

(** Every object of the store before is still there, moved by [step]. *)
Definition evolves (step : relation obj) : relation state :=
  fun st st' => ∀ l o, heap st !! l = Some o →
                       ∃ o', heap st' !! l = Some o' ∧ step o o'.

End Frames.

Section Outcomes.
Context `{Collaborators}.

(** Every exception a method raises satisfies [P]; every value it returns
    satisfies [Q]. *)
Definition raises {A} (P : exn → Prop) (m : M A) : Prop :=
  ∀ st e st', m st = (Raise e, st') → P e.

Definition returns {A} (Q : A → Prop) (m : M A) : Prop :=
  ∀ st a st', m st = (Ok a, st') → Q a.

Definition not_an_assertion (e : exn) : Prop :=
  match e with
  | AssertionError _ => False
  | _ => True
  end.

End Outcomes.

Section Traces.
Context `{Collaborators}.

Definition is_states_event (e : event) : Prop :=
  match e with EvStatesResample _ => True | _ => False end.

Definition is_duration_event (e : event) : Prop :=
  match e with EvDurResample _ _ => True | _ => False end.

(** the resampling of an observation, transition or initial-state posterior *)
Definition is_HMM_parameter_event (e : event) : Prop :=
  match e with
  | EvObsResample _ _ | EvTransResample _ | EvInitResample _ => True
  | _ => False
  end.

Definition is_parameter_event (e : event) : Prop :=
  is_duration_event e ∨ is_HMM_parameter_event e.

Definition cache_event (e : event) : Prop :=
  match e with EvClearCaches _ => True | _ => False end.

(** In [evs], every event in [P] comes before every event in [Q]. *)
Definition precedes_all (P Q : event → Prop) (evs : list event) : Prop :=
  ∀ i j a b, evs !! i = Some a → evs !! j = Some b → P a → Q b → i < j.

(** The run appended events to the trace, all of them in [P]. *)
Definition extends (P : event → Prop) : relation state :=
  fun st st' => ∃ evs, trace st' = trace st ++ evs ∧ Forall P evs.

End Traces.

Section Caches.
Context `{Collaborators}.

(** [s] is a chain of the store. *)
Definition is_chain (st : state) (s : loc) : Prop :=
  ∃ c, heap st !! s = Some (StatesObj c).

(** The chain [s] has no cached tables. *)
Definition chain_cleared (st : state) (s : loc) : Prop :=
  ∃ c, heap st !! s = Some (StatesObj c) ∧ tables c = None.

(** The object [i] holds no derived value. *)
Definition no_derived_value (st : state) (i : loc) : Prop :=
  ∀ m pi, heap st !! i = Some (SteadyState m pi) → pi = None.

(** What [_clear_caches] leaves: no chain of the model has tables, and its
    initial-state posterior holds no derived value. *)
Definition caches_cleared (st : state) (self : loc) : Prop :=
  ∃ m l i,
    heap st !! self = Some (ModelObj m)
    ∧ states_list m = Some l
    ∧ Forall (chain_cleared st) l
    ∧ init_state_distn m = Some i
    ∧ no_derived_value st i.

(** The same, and also the initial state the model keeps for left
    censoring holds no derived value. *)
Definition all_caches_cleared (st : state) (self : loc) : Prop :=
  caches_cleared st self
  ∧ ∀ m i, heap st !! self = Some (ModelObj m) →
           left_censoring_init_state_distn m = Some i →
           no_derived_value st i.

(** The initial-state distribution a left-censored chain of the model
    [self] reads. *)
Definition left_censoring_pi_0 (self : loc) : M Param :=
  bind (get_model self) (fun m =>
  bind (attr "left_censoring_init_state_distn" (left_censoring_init_state_distn m))
       pi_0).

(** The four operations that resample one family of posteriors. *)
Inductive parameter_update := UpdObs | UpdTrans | UpdInit | UpdDur.

Definition run_update (u : parameter_update) (self : loc) (temp : option Temp) : M unit :=
  match u with
  | UpdObs => resample_obs_distns self temp
  | UpdTrans => resample_trans_distn self temp
  | UpdInit => resample_init_state_distn self temp
  | UpdDur => resample_dur_distns self temp
  end.

End Caches.

Section Copies.
Context `{Collaborators}.

Definition is_model (o : obj) : Prop :=
  match o with ModelObj _ => True | _ => False end.

(** In the store [st], the objects [ds'] are copies of the objects [ds]:
    each is an object of its own, made after the first [n] objects of the
    store, and holds what [g] makes of the contents of the original. *)
Definition same (o : obj) : obj := o.

Definition copied (n : nat) (st : state) (g : obj → obj) (ds ds' : list loc) : Prop :=
  Forall2 (fun d d' =>
             n < d'
             ∧ ∃ o, heap st !! d = Some o ∧ ¬ is_model o ∧ heap st !! d' = Some (g o))
          ds ds'.

(** What a copied chain holds: the chain, with the new model. *)
Definition chain_of (new : loc) (o : obj) : obj :=
  match o with
  | StatesObj c => StatesObj (set_model new c)
  | _ => o
  end.

(** The store [st'] has all the objects of [st], unchanged except for the
    object [new]. *)
Definition stable (new : loc) : relation state :=
  fun st st' => ∀ l o, heap st !! l = Some o → l ≠ new → heap st' !! l = Some o.

(** The objects a model refers to through the attributes that
    [copy_sample] assigns. *)
Definition copied_attributes (m : Model) : list loc :=
  default [] (obs_distns m) ++ option_list (trans_distn m)
  ++ option_list (init_state_distn m) ++ default [] (states_list m)
  ++ (if is_HSMM (klass m) then default [] (dur_distns m) else []).

End Copies.

(** ** Reading the state sequences *)

Section Inspection.
Context `{Collaborators}.

(** [self.states_list] *)
Definition get_states_list (self : loc) : M (list loc) :=
  m <- get_model self ;; attr "states_list" (states_list m).

(** [[s.stateseq for s in self.states_list]] *)
Definition read_stateseqs (self : loc) : M (list (list nat)) :=
  l <- get_states_list self ;;
  map_M (fun s => c <- get_states s ;; ret (stateseq c)) l.

(** The property [stateseqs] *)
Definition stateseqs (self : loc) : M (list (list nat)) := read_stateseqs self.

(** The property [Viterbi_stateseqs]: the most likely state sequences of
    the chains; the state sequences the chains had are put back. *)
Definition Viterbi_stateseqs (self : loc) : M (list (list nat)) :=
  current_stateseqs <- read_stateseqs self ;;
  l <- get_states_list self ;;
  for_each l States_Viterbi ;;;
  ret_ <- read_stateseqs self ;;
  l <- get_states_list self ;;
  for_each (zip l current_stateseqs) (fun sq => States_set_stateseq sq.1 sq.2) ;;;
  ret ret_.

End Inspection.

(** ** Generation *)

(** What the chain class does to generate: the state sequence a chain built
    with [T=T, initialize_from_prior=True] samples from the parameters of
    its model, and the observations [generate_obs] samples for a state
    sequence.  The first argument is the random draw; either may fail. *)
Class Generators `{Collaborators} := {
  states_generate_stateseq :
    nat → Param → Param → list Param → nat → Kwargs → option (list nat);
  states_generate_obs : nat → list Param → list nat → option (list Obs);
}.

Section Generation.
Context `{Generators}.

(** Modelled from the spec:
    [_states_class(model=self,T=T,initialize_from_prior=True,**kwargs)], a
    chain without data whose state sequence is sampled from the prior. *)
Definition States_new_from_prior (self : loc) (T : nat) (kw : Kwargs) : M loc :=
  mo <- get_model self ;;
  t <- attr "trans_distn" (trans_distn mo) ;;
  A <- get_distn t ;;
  i <- attr "init_state_distn" (init_state_distn mo) ;;
  pi <- pi_0 i ;;
  durs <- match dur_distns mo with
          | Some ds => map_M get_distn ds
          | None => ret []
          end ;;
  n <- draw ;;
  q <- lift "generate" (states_generate_stateseq n A pi durs T kw) ;;
  alloc (StatesObj (mkStates self [] q None kw)).

(** Modelled from the spec: [s.generate_obs()] samples the observations of
    the state sequence of the chain from the observation posteriors of its
    model. *)
Definition States_generate_obs (s : loc) : M (list Obs) :=
  c <- get_states s ;;
  mo <- get_model (model c) ;;
  os <- attr "obs_distns" (obs_distns mo) ;;
  obs <- map_M get_distn os ;;
  n <- draw ;;
  lift "generate_obs" (states_generate_obs n obs (stateseq c)).

(** [tempstates.data = obs] *)
Definition set_data (v : list Obs) (s : States) : States :=
  mkStates (model s) v (stateseq s) (tables s) (kwargs s).
Definition States_set_data (s : loc) (d : list Obs) : M unit :=
  c <- get_states s ;; put_obj s (StatesObj (set_data d c)).

(** [_generate]; the flag [added_with_generate] that a kept chain gets is
    read by the plotting of the chain class only and has no field here. *)
Definition _generate (self : loc) (tempstates : loc) (keep : bool)
    : M (list Obs * list nat) :=
  obs <- States_generate_obs tempstates ;;
  c <- get_states tempstates ;;
  let labels := stateseq c in
  (if keep then
     States_set_data tempstates obs ;;;
     states_list_append self tempstates
   else ret ()) ;;;
  ret (obs, labels).

(** [generate]: [HMM.generate] passes no keyword arguments, [HSMM.generate]
    passes its own on, [HSMMPossibleChangepoints.generate] refuses. *)
Definition generate (self : loc) (T : nat) (keep : bool) (kw : Kwargs)
    : M (list Obs * list nat) :=
  m <- get_model self ;;
  match klass m with
  | HSMMPossibleChangepoints => raise (NotImplementedError no_message)
  | HMM | StickyHMM =>
      tempstates <- States_new_from_prior self T no_kwargs ;;
      _generate self tempstates keep
  | HSMM | HSMMIntNegBin =>
      tempstates <- States_new_from_prior self T kw ;;
      _generate self tempstates keep
  end.

End Generation.

(** ** The frames of the methods *)

Section MoreFrames.
Context `{Collaborators}.

(** What can happen to an object while only caches are filled or cleared:
    a chain keeps its model, data, state sequence and configuration. *)
Definition cache_step (o o' : obj) : Prop :=
  match o, o' with
  | ModelObj m, ModelObj m' => m' = m
  | Distn p, Distn p' => p' = p
  | StatesObj c, StatesObj c' =>
      model c' = model c ∧ data c' = data c ∧ stateseq c' = stateseq c
      ∧ kwargs c' = kwargs c
  | SteadyState m _, SteadyState m' _ => m' = m
  | _, _ => False
  end.

(** The same, and the posteriors may take new values: what the parameter
    updates of Gibbs sampling and of EM do. *)
Definition parameter_step (o o' : obj) : Prop :=
  match o, o' with
  | Distn _, Distn _ => True
  | _, _ => cache_step o o'
  end.

(** Only the state sequence of a chain changes. *)
Definition stateseq_step (o o' : obj) : Prop :=
  match o, o' with
  | StatesObj c, StatesObj c' =>
      model c' = model c ∧ data c' = data c ∧ tables c' = tables c
      ∧ kwargs c' = kwargs c
  | _, _ => o' = o
  end.

(** Every chain stays as it is. *)
Definition chains_fixed (o o' : obj) : Prop :=
  match o with
  | StatesObj _ => o' = o
  | _ => True
  end.

(** A chain whose state sequence is the most likely one of the tables it
    holds. *)
Definition decoded (st : state) (s : loc) : Prop :=
  ∃ c t, heap st !! s = Some (StatesObj c) ∧ tables c = Some t
         ∧ stateseq c = states_viterbi t.

(** The chain [s] holds the tables [t]. *)
Definition cached (st : state) (s : loc) (t : Tables) : Prop :=
  ∃ c, heap st !! s = Some (StatesObj c) ∧ tables c = Some t.

(** The store [st'] has every object of [st], the object [self] apart, as
    it was. *)
Definition keeps_others (self : loc) : relation state :=
  fun st st' =>
    length (heap st) ≤ length (heap st')
    ∧ ∀ l, l ≠ self → l < length (heap st) → heap st' !! l = heap st !! l.

(** No object was made. *)
Definition same_size : relation state :=
  fun st st' => length (heap st') = length (heap st).

(** The objects are as they were. *)
Definition same_heap : relation state :=
  fun st st' => heap st' = heap st.

(** [isinstance(o, initial_state.SteadyState)]: a derived initial state *)
Definition is_steady_state (st : state) (i : loc) : Prop :=
  ∃ m pi, heap st !! i = Some (SteadyState m pi).

End MoreFrames.

(** ** The calls of a Gibbs sweep *)

Section Sweeps.
Context `{Collaborators}.

(** The events that are calls of [resample] on a posterior or on a chain:
    all but the clearing of a cache. *)
Definition is_resampling (e : event) : bool :=
  match e with
  | EvClearCaches _ => false
  | _ => true
  end.

Definition resampling_calls (evs : list event) : list event :=
  List.filter is_resampling evs.

(** The run of [m] from [st] makes the resampling calls [expected], in this
    order, when it returns, and the first ones of them when it raises. *)
Definition makes_calls {A} (m : M A) (st : state) (expected : list event) : Prop :=
  ∃ evs, trace (m st).2 = trace st ++ evs
         ∧ resampling_calls evs `prefix_of` expected
         ∧ (is_ok (m st).1 = true → resampling_calls evs = expected).

(** One call per posterior of each family, in the order of the states, and
    one per chain, in the order of [states_list]. *)
Definition dur_calls (m : Model) : list event :=
  map (fun sd => EvDurResample sd.1 sd.2) (enumerate (default [] (dur_distns m))).
Definition obs_calls (m : Model) : list event :=
  map (fun sd => EvObsResample sd.1 sd.2) (enumerate (default [] (obs_distns m))).
Definition trans_calls (m : Model) : list event :=
  EvTransResample <$> option_list (trans_distn m).
Definition init_calls (m : Model) : list event :=
  EvInitResample <$> option_list (init_state_distn m).
Definition states_calls (m : Model) : list event :=
  EvStatesResample <$> default [] (states_list m).

(** The resampling calls of the parameter phase of a sweep of a model with
    the attributes [m], and of the whole sweep. *)
Definition parameter_calls (m : Model) : list event :=
  (if is_HSMM (klass m) then dur_calls m else [])
  ++ obs_calls m ++ trans_calls m ++ init_calls m.

Definition sweep_calls (m : Model) : list event :=
  parameter_calls m ++ states_calls m.

End Sweeps.

(** ** The states in use and their colours *)

Section UsedStates.

(** [collections.defaultdict(itertools.count().next)]: the entries of the
    dictionary and the next value of the counter *)
Record defaultdict := mkDefaultdict {
  entries : gmap nat nat;
  counter : nat;
}.

(** [canonical_ids[state]]: reading a key that is missing stores the next
    count under it *)
Definition canonical_id (d : defaultdict) (state : nat) : defaultdict :=
  match entries d !! state with
  | Some _ => d
  | None => mkDefaultdict (<[state := counter d]> (entries d)) (S (counter d))
  end.

(** [sorted(items,key=operator.itemgetter(1))] *)
Definition by_value (x y : nat * nat) : Prop := x.2 ≤ y.2.
#[global] Instance by_value_dec x y : Decision (by_value x y) := decide (x.2 ≤ y.2).
Definition sorted_by_value (items : list (nat * nat)) : list (nat * nat) :=
  merge_sort by_value items.

(** The body of [_get_used_states], on the state sequences of the chains
    it is given; the items of the dictionary come in the order the
    dictionary happens to keep them in. *)
Definition used_states (stateseqs : list (list nat)) : list nat :=
  let canonical_ids :=
    foldl (fun d seq => foldl canonical_id d seq) (mkDefaultdict ∅ 0) stateseqs in
  (sorted_by_value (map_to_list (entries canonical_ids))).*1.

(** The keys of the dictionary in the order they were added in. *)
Definition add_key (ks : list nat) (x : nat) : list nat :=
  if decide (x ∈ ks) then ks else ks ++ [x].

(** The dictionary [d] numbers the keys [ks] by their position. *)
Definition numbers (d : defaultdict) (ks : list nat) : Prop :=
  counter d = length ks
  ∧ NoDup ks
  ∧ ∀ k v, entries d !! k = Some v ↔ ks !! v = Some k.

(** The keys with their numbers, in the order of the numbers. *)
Definition numbered (n : nat) (ks : list nat) : list (nat * nat) :=
  imap (fun i k => (k, n + i)) ks.

(** The distinct elements of a list, each at the place of its first
    occurrence. *)
Fixpoint distinct_in_order (l : list nat) : list nat :=
  match l with
  | [] => []
  | x :: l' => x :: filter (fun y => y ≠ x) (distinct_in_order l')
  end.

(** [np.linspace(start,stop,num,endpoint=True)], over the rationals *)
Definition linspace (start stop : Q) (num : nat) : list Q :=
  match num with
  | 0 => []
  | 1 => [start]
  | S (S _) =>
      let step := ((stop - start) / inject_Z (Z.of_nat (num - 1)))%Q in
      <[num - 1 := stop]>
        (map (fun i => (inject_Z (Z.of_nat i) * step + start)%Q) (seq 0 num))
  end.

(** [dict(zip(keys,values))] *)
Definition dict_zip (keys : list nat) (values : list Q) : gmap nat Q :=
  foldl (fun d kv => <[kv.1 := kv.2]> d) ∅ (zip keys values).

(** The body of [_get_colors] *)
Definition colors_of (stateseqs : list (list nat)) : gmap nat Q :=
  let states := used_states stateseqs in
  let numstates := length states in
  dict_zip states (linspace 0 1 numstates).

End UsedStates.

Section Plotting.
Context `{Collaborators}.

(** [_get_used_states(states_objs)] and [_get_colors(states_objs)]; without
    [states_objs] the chains of the model are used *)
Definition _get_used_states (self : loc) (states_objs : option (list loc))
    : M (list nat) :=
  l <- match states_objs with
       | Some l => ret l
       | None => get_states_list self
       end ;;
  cs <- map_M get_states l ;;
  ret (used_states (stateseq <$> cs)).

Definition _get_colors (self : loc) (states_objs : option (list loc))
    : M (gmap nat Q) :=
  l <- match states_objs with
       | Some l => ret l
       | None => get_states_list self
       end ;;
  cs <- map_M get_states l ;;
  ret (colors_of (stateseq <$> cs)).

(** One call [o.plot(color=cmap(colors[state]),data=...,indices=...,
    label=...)] of [plot_observations]: the posterior, its state, the
    colour value that is passed to the colour map, and for each chain the
    observations labelled with the state and their positions. *)
Record plot_call := mkPlotCall {
  plot_distn : loc;
  plot_state : nat;
  plot_color : Q;
  plot_data : list (list Obs);
  plot_indices : list (list nat);
}.

(** What a plotting method does: the calls it makes, or the [KeyError] of
    [colors[state]]. *)
Inductive plotted :=
| Plotted (calls : list plot_call)
| KeyError (state : nat).

(** [np.where(stateseq == state)[0]] *)
Definition where_equal (seq : list nat) (state : nat) : list nat :=
  (filter (fun p => p.2 = state) (enumerate seq)).*1.

(** The loop of [plot_observations] over [enumerate(self.obs_distns)] *)
Fixpoint plot_each (colors : gmap nat Q) (used_states : list nat)
    (states_objs : list States) (distns : list (nat * loc)) : plotted :=
  match distns with
  | [] => Plotted []
  | (state, o) :: distns' =>
      if decide (state ∈ used_states) then
        match colors !! state with
        | None => KeyError state
        | Some c =>
            match plot_each colors used_states states_objs distns' with
            | Plotted calls =>
                Plotted (mkPlotCall o state c
                           (map (fun s => mask_select (data s) (stateseq s) state)
                                states_objs)
                           (map (fun s => where_equal (stateseq s) state) states_objs)
                         :: calls)
            | KeyError k => KeyError k
            end
        end
      else plot_each colors used_states states_objs distns'
  end.

(** [plot_observations(colors,states_objs)] on a model with the observation
    posteriors [obs_distns] and the chains [states_list] *)
Definition plot_observations (obs_distns : list loc) (states_list : list States)
    (colors : option (gmap nat Q)) (states_objs : option (list States)) : plotted :=
  let states_objs := default states_list states_objs in
  let colors := default (colors_of (stateseq <$> states_objs)) colors in
  let used_states := used_states (stateseq <$> states_objs) in
  plot_each colors used_states states_objs (enumerate obs_distns).

(** The loop of [HMM.plot] over the chains: the observation posteriors are
    plotted for each chain with the colours of all the chains.  (The call
    [s.plot(colors_dict=colors)] of the chain class is not part of it.) *)
Fixpoint plot_chains (obs_distns : list loc) (states_list : list States)
    (colors : gmap nat Q) (chains : list States) : plotted :=
  match chains with
  | [] => Plotted []
  | s :: chains' =>
      match plot_observations obs_distns states_list (Some colors) (Some [s]) with
      | Plotted calls =>
          match plot_chains obs_distns states_list colors chains' with
          | Plotted calls' => Plotted (calls ++ calls')
          | KeyError k => KeyError k
          end
      | KeyError k => KeyError k
      end
  end.

Definition plot (obs_distns : list loc) (states_list : list States) : plotted :=
  let colors := colors_of (stateseq <$> states_list) in
  plot_chains obs_distns states_list colors states_list.

End Plotting.

(** ** More stores to run the methods on *)

Module DemoMore.
Import Demo.
#[local] Existing Instance demo.

(** A chain class that generates: the state sequence alternates between
    the two states, from the parity of the random draw on, and the
    observation of a state is its number. *)
Definition demo_generators : Generators := {|
  states_generate_stateseq := fun n _ _ _ T _ =>
    Some (map (fun i => (n + i) `mod` 2) (seq 0 T));
  states_generate_obs := fun _ _ q => Some (map Z.of_nat q);
|}.

(** The posteriors a caller builds for an HSMM with an explicit
    initial-state posterior: observation posteriors 0 and 1, duration
    posteriors 3 and 4, initial-state posterior 5. *)
Definition hsmm_distns_store : state :=
  run (alloc (Distn 11%Z) ;;; alloc (Distn 13%Z) ;;; alloc (Distn 17%Z)) distns_store.

(** The HSMM of [hsmm_store], a copy of it (object 9), and the original
    after its transition posterior was resampled since. *)
Definition hsmm_copied_store : state := run (copy_sample hsmm) hsmm_store.
Definition hsmm_moved_store : state :=
  run (resample_trans_distn hsmm None) hsmm_copied_store.

End DemoMore.

Section Construction.
Context `{Collaborators}.

(** ** Running the monad *)

Lemma bind_ok {A B} (m : M A) (k : A → M B) st a st' :
  m st = (Ok a, st') → bind m k st = k a st'.
Proof. unfold bind. by intros ->. Qed.

Lemma bind_raise {A B} (m : M A) (k : A → M B) st e st' :
  m st = (Raise e, st') → bind m k st = (Raise e, st').
Proof. unfold bind. by intros ->. Qed.

Lemma bind_ret {A B} (a : A) (k : A → M B) st : bind (ret a) k st = k a st.
Proof. reflexivity. Qed.

Lemma bind_alloc {B} o (k : loc → M B) st :
  bind (alloc o) k st
  = k (length (heap st)) (mkState (heap st ++ [o]) (trace st) (rng st)).
Proof. reflexivity. Qed.

Lemma py_assert_true msg : py_assert true msg = ret ().
Proof. reflexivity. Qed.

Lemma attr_Some {A} name (a : A) : attr name (Some a) = ret a.
Proof. reflexivity. Qed.

Lemma get_model_at st self m :
  heap st !! self = Some (ModelObj m) → get_model self st = (Ok m, st).
Proof. intros E. unfold get_model, bind, get_obj. by rewrite E. Qed.

Lemma get_states_at st s c :
  heap st !! s = Some (StatesObj c) → get_states s st = (Ok c, st).
Proof. intros E. unfold get_states, bind, get_obj. by rewrite E. Qed.

Lemma get_distn_at st d p :
  heap st !! d = Some (Distn p) → get_distn d st = (Ok p, st).
Proof. intros E. unfold get_distn, bind, get_obj. by rewrite E. Qed.

(** ** The EM steps without data *)

(** C8: on a model without chains the soft EM step and the Viterbi EM step
    both fail with a precondition error, and the store they leave is the
    store they were run on: no posterior and no list of chains has
    changed. *)
Theorem EM_steps_need_chains st self m :
  heap st !! self = Some (ModelObj m) →
  states_list m = Some [] →
  (∃ e, EM_step self st = (Raise e, st) ∧ precondition_error e) ∧
  (∃ e, Viterbi_EM_step self st = (Raise e, st) ∧ precondition_error e).
Proof.
  intros Hm Hl.
  assert (HE : HMM_EM_step self st = (Raise (AssertionError "Must have data to run EM"), st)).
  { unfold HMM_EM_step. rewrite (bind_ok _ _ _ _ _ (get_model_at _ _ _ Hm)), Hl. done. }
  assert (HV : HMM_Viterbi_EM_step self st
               = (Raise (AssertionError "Must have data to run Viterbi EM"), st)).
  { unfold HMM_Viterbi_EM_step. rewrite (bind_ok _ _ _ _ _ (get_model_at _ _ _ Hm)), Hl. done. }
  split.
  - unfold EM_step. rewrite (bind_ok _ _ _ _ _ (get_model_at _ _ _ Hm)).
    destruct (klass m).
    + by eexists.
    + by eexists.
    + unfold HSMM_EM_step. rewrite (bind_raise _ _ _ _ _ HE). by eexists.
    + by eexists.
    + unfold HSMM_EM_step. rewrite (bind_raise _ _ _ _ _ HE). by eexists.
  - unfold Viterbi_EM_step. rewrite (bind_ok _ _ _ _ _ (get_model_at _ _ _ Hm)).
    destruct (is_HSMM (klass m)).
    + unfold HSMM_Viterbi_EM_step. rewrite (bind_raise _ _ _ _ _ HV). by eexists.
    + by eexists.
Qed.

(** ** The constructors *)

Lemma setattr_ok st self m f :
  heap st !! self = Some (ModelObj m) →
  ∃ st', setattr self f st = (Ok (), st') ∧ heap st' !! self = Some (ModelObj (f m)).
Proof.
  intros E. eexists. split.
  - unfold setattr. rewrite (bind_ok _ _ _ _ _ (get_model_at _ _ _ E)). reflexivity.
  - simpl. apply list_lookup_insert_eq. by eapply lookup_lt_Some.
Qed.

Lemma alloc_setattr_ok st self m o (g : loc → Model → Model) :
  heap st !! self = Some (ModelObj m) →
  ∃ st', (d <- alloc o ;; setattr self (g d)) st = (Ok (), st')
         ∧ heap st' !! self = Some (ModelObj (g (length (heap st)) m)).
Proof.
  intros E. unfold bind at 1. simpl.
  apply setattr_ok. simpl. rewrite lookup_app_l; [done | by eapply lookup_lt_Some].
Qed.

Lemma HMM___init___ok st self m a :
  heap st !! self = Some (ModelObj m) →
  is_ok (HMM___init__ self a st).1 = xorb (xorb (mode_a a) (mode_b a)) (mode_c a).
Proof.
  intros E0. unfold HMM___init__.
  destruct (setattr_ok st self m (set_num_states (length (a_obs_distns a))) E0)
    as (st1 & R1 & E1).
  rewrite (bind_ok _ _ _ _ _ R1).
  destruct (setattr_ok _ _ _ (set_obs_distns (a_obs_distns a)) E1) as (st2 & R2 & E2).
  rewrite (bind_ok _ _ _ _ _ R2).
  destruct (setattr_ok _ _ _ (set_states_list []) E2) as (st3 & R3 & E3).
  rewrite (bind_ok _ _ _ _ _ R3).
  destruct (xorb (xorb (mode_a a) (mode_b a)) (mode_c a)); [| done].
  rewrite py_assert_true, bind_ret.
  rewrite (bind_ok _ _ _ _ _ (get_model_at _ _ _ E3)). simpl num_states.
  rewrite attr_Some, bind_ret.
  set (m3 := set_states_list _ _) in *.
  assert (∃ st4 m4, (match a_trans_distn a with
     | Some t => setattr self (set_trans_distn t)
     | None =>
         if is_Some_b (a_alpha a)
         then
          t <- alloc (Distn (new_trans (klass m3) (length (a_obs_distns a)) (a_alpha a) (a_gamma a))) ;;
          setattr self (set_trans_distn t)
         else
          t <- alloc
                 (Distn
                    (new_trans_conc (klass m3) (length (a_obs_distns a))
                       [a_alpha_a_0 a; a_alpha_b_0 a; a_gamma_a_0 a;
                        a_gamma_b_0 a])) ;;
          setattr self (set_trans_distn t)
     end) st3 = (Ok (), st4) ∧ heap st4 !! self = Some (ModelObj m4)) as (st4 & m4 & R4 & E4).
  { destruct (a_trans_distn a) as [t|].
    - destruct (setattr_ok _ _ _ (set_trans_distn t) E3) as (st4 & R4 & E4); eauto.
    - destruct (is_Some_b (a_alpha a)).
      + edestruct (alloc_setattr_ok st3 self m3) as (st4 & R4 & E4); [done |].
        do 2 eexists. split; [exact R4 | exact E4].
      + edestruct (alloc_setattr_ok st3 self m3) as (st4 & R4 & E4); [done |].
        do 2 eexists. split; [exact R4 | exact E4]. }
  rewrite (bind_ok _ _ _ _ _ R4).
  destruct (a_init_state_distn a) as [d|]; [| destruct (a_init_state_concentration a)].
  - destruct (setattr_ok _ _ _ (set_init_state_distn d) E4) as (st5 & -> & _). done.
  - edestruct (alloc_setattr_ok st4 self m4) as (st5 & R5 & _); [done |].
    by rewrite R5.
  - edestruct (alloc_setattr_ok st4 self m4) as (st5 & R5 & _); [done |].
    by rewrite R5.
Qed.

Lemma StickyHMM___init___ok st self m a :
  heap st !! self = Some (ModelObj m) →
  is_ok (StickyHMM___init__ self a st).1
  = xorb (xorb (sticky_mode_a a) (sticky_mode_b a)) (sticky_mode_c a).
Proof.
  intros E. unfold StickyHMM___init__.
  destruct (xorb (xorb (sticky_mode_a a) (sticky_mode_b a)) (sticky_mode_c a)); [| done].
  rewrite py_assert_true, bind_ret.
  assert (∃ st1 t m1, (match s_trans_distn a with
     | Some t => setattr self (set_trans_distn t)
     | None =>
         if is_Some_b (s_kappa a)
         then
          t <- alloc (Distn (new_sticky_trans (length (s_obs_distns a))
                 [s_alpha a; s_gamma a; s_kappa a])) ;;
          setattr self (set_trans_distn t)
         else
          t <- alloc (Distn (new_sticky_trans_conc (length (s_obs_distns a))
                 [s_rho_a_0 a; s_rho_b_0 a; s_alphakappa_a_0 a;
                  s_alphakappa_b_0 a; s_gamma_a_0 a; s_gamma_b_0 a])) ;;
          setattr self (set_trans_distn t)
     end) st = (Ok (), st1) ∧ heap st1 !! self = Some (ModelObj m1)
          ∧ trans_distn m1 = Some t) as (st1 & t & m1 & R1 & E1 & Ht).
  { destruct (s_trans_distn a) as [t|].
    - destruct (setattr_ok _ _ _ (set_trans_distn t) E) as (st1 & R1 & E1).
      by exists st1, t, (set_trans_distn t m).
    - destruct (is_Some_b (s_kappa a)).
      + edestruct (alloc_setattr_ok st self) as (st1 & R1 & E1); [done |].
        do 3 eexists. split; [exact R1 | split; [exact E1 | done]].
      + edestruct (alloc_setattr_ok st self) as (st1 & R1 & E1); [done |].
        do 3 eexists. split; [exact R1 | split; [exact E1 | done]]. }
  rewrite (bind_ok _ _ _ _ _ R1).
  rewrite (bind_ok _ _ _ _ _ (get_model_at _ _ _ E1)).
  rewrite (HMM___init___ok st1 _ _ _ E1).
  unfold mode_a, mode_b, mode_c. simpl. rewrite Ht. by rewrite !andb_false_r.
Qed.

Lemma is_ok_then_ret {A B} (m : M A) (b : B) st :
  is_ok ((m ;;; ret b) st).1 = is_ok (m st).1.
Proof. unfold bind. by destruct (m st) as [[] ?]. Qed.

(** The constructors accept their arguments exactly when an odd number of
    the three configuration modes is supplied. *)
Theorem constructors_accept_odd_modes :
  (∀ a st, is_ok (HMM_new a st).1 = xorb (xorb (mode_a a) (mode_b a)) (mode_c a))
  ∧ (∀ a st, is_ok (StickyHMM_new a st).1
             = xorb (xorb (sticky_mode_a a) (sticky_mode_b a)) (sticky_mode_c a)).
Proof.
  split; intros a st.
  - unfold HMM_new, new_object. rewrite bind_alloc, is_ok_then_ret.
    eapply HMM___init___ok. simpl. by apply list_lookup_middle.
  - unfold StickyHMM_new, new_object. rewrite bind_alloc, is_ok_then_ret.
    eapply StickyHMM___init___ok. simpl. by apply list_lookup_middle.
Qed.

(** ** The number of parameters *)

Lemma distns_num_parameters_at st ds ps :
  distns_at st ds ps →
  distns_num_parameters ds st = (Ok (map distn_num_parameters ps), st).
Proof.
  unfold distns_num_parameters.
  induction 1 as [|d p ds ps Hd _ IH]; [done |].
  simpl. rewrite (bind_ok _ _ _ (distn_num_parameters p) st).
  - by rewrite (bind_ok _ _ _ _ _ IH).
  - by rewrite (bind_ok _ _ _ _ _ (get_distn_at _ _ _ Hd)).
Qed.

Lemma foldl_add_total (l : list Z) (acc : Z) :
  foldl Z.add acc l = (acc + total l)%Z.
Proof.
  revert acc. induction l as [|x l IH]; intros acc; simpl.
  - lia.
  - rewrite IH. lia.
Qed.

Lemma py_sum_total l : py_sum l = total l.
Proof. unfold py_sum. by rewrite foldl_add_total. Qed.

Lemma filter_all_pairs {A} (l : list A) : List.filter (fun _ => true) l = l.
Proof. induction l; simpl; congruence. Qed.

Lemma length_list_prod {A B} (l : list A) (k : list B) :
  length (list_prod l k) = length l * length k.
Proof. apply length_prod. Qed.

(** In a row of pairs [(i,0) .. (i,n-1)] exactly one is on the diagonal
    when [i < n]. *)
Lemma off_diagonal_row i b n :
  length (List.filter (fun ij : nat * nat => negb (ij.1 =? ij.2))
            (map (fun j => (i, j)) (seq b n)))
  = n - (if bool_decide (b ≤ i < b + n) then 1 else 0).
Proof.
  revert b. induction n as [|n IH]; intros b; simpl.
  - by case_bool_decide.
  - destruct (Nat.eqb_spec i b) as [->|Hne]; simpl; rewrite (IH (S b)).
    + rewrite bool_decide_eq_false_2 by lia. rewrite bool_decide_eq_true_2 by lia. lia.
    + repeat case_bool_decide; lia.
Qed.

Lemma off_diagonal_count b k n :
  b + k ≤ n →
  length (List.filter (fun ij : nat * nat => negb (ij.1 =? ij.2))
            (list_prod (seq b k) (seq 0 n)))
  = k * n - k.
Proof.
  revert b. induction k as [|k IH]; intros b Hk; simpl; [done |].
  rewrite List.filter_app, length_app, (IH (S b)) by lia.
  rewrite off_diagonal_row. rewrite bool_decide_eq_true_2 by lia.
  destruct n; [lia |]. nia.
Qed.

Lemma length_transitions st n :
  Z.of_nat (length (transitions st n))
  = if st then (Z.of_nat n ^ 2)%Z else (Z.of_nat n ^ 2 - Z.of_nat n)%Z.
Proof.
  unfold transitions. destruct st; simpl.
  - rewrite filter_all_pairs, length_list_prod, !length_seq. lia.
  - rewrite (off_diagonal_count 0 n n) by lia. nia.
Qed.

(** C9: the number of parameters of a model is the sum of the counts of its
    observation posteriors plus numStates squared for an HMM; for an HSMM it
    is that sum plus the counts of the duration posteriors plus numStates
    squared minus numStates, the number of transitions that are not
    self-transitions. *)
Theorem num_parameters_count st self m n os obs :
  heap st !! self = Some (ModelObj m) →
  num_states m = Some n →
  obs_distns m = Some os →
  distns_at st os obs →
  (is_HSMM (klass m) = false →
   num_parameters self st
   = (Ok (VInt (total (map distn_num_parameters obs) + Z.of_nat n ^ 2)), st)
   ∧ (Z.of_nat n ^ 2 = Z.of_nat (length (transitions true n)))%Z)
  ∧ (∀ ds durs, is_HSMM (klass m) = true →
     dur_distns m = Some ds →
     distns_at st ds durs →
     num_parameters self st
     = (Ok (VInt (total (map distn_num_parameters obs)
                  + total (map distn_num_parameters durs)
                  + Z.of_nat n ^ 2 - Z.of_nat n)), st)
     ∧ (Z.of_nat n ^ 2 - Z.of_nat n = Z.of_nat (length (transitions false n)))%Z).
Proof.
  intros Hm Hn Hos Hobs. split.
  - intros Hk. split; [| by rewrite length_transitions].
    unfold num_parameters. rewrite (bind_ok _ _ _ _ _ (get_model_at _ _ _ Hm)), Hk.
    unfold HMM_num_parameters.
    rewrite (bind_ok _ _ _ _ _ (get_model_at _ _ _ Hm)), Hos, attr_Some, bind_ret.
    rewrite (bind_ok _ _ _ _ _ (distns_num_parameters_at _ _ _ Hobs)).
    rewrite Hn, attr_Some, bind_ret. by rewrite py_sum_total.
  - intros ds durs Hk Hds Hdurs. split; [| by rewrite length_transitions].
    unfold num_parameters. rewrite (bind_ok _ _ _ _ _ (get_model_at _ _ _ Hm)), Hk.
    unfold HSMM_num_parameters.
    rewrite (bind_ok _ _ _ _ _ (get_model_at _ _ _ Hm)), Hos, attr_Some, bind_ret.
    rewrite (bind_ok _ _ _ _ _ (distns_num_parameters_at _ _ _ Hobs)).
    rewrite Hds, attr_Some, bind_ret.
    rewrite (bind_ok _ _ _ _ _ (distns_num_parameters_at _ _ _ Hdurs)).
    rewrite Hn, attr_Some, bind_ret. by rewrite !py_sum_total.
Qed.

End Construction.

Section FrameFacts.
Context `{Collaborators}.

(** ** Readers and frames *)

Lemma reads_ret {A} (a : A) : reads (ret a).
Proof. done. Qed.
Lemma reads_raise {A} e : reads (@raise _ A e).
Proof. done. Qed.
Lemma reads_attr {A} name (o : option A) : reads (attr name o).
Proof. by destruct o. Qed.
Lemma reads_lift {A} msg (o : option A) : reads (lift msg o).
Proof. by destruct o. Qed.
Lemma reads_py_assert b msg : reads (py_assert b msg).
Proof. by destruct b. Qed.
Lemma reads_get_obj l : reads (get_obj l).
Proof. intros st. unfold get_obj. by destruct (heap st !! l). Qed.
Lemma reads_call v : reads (call v).
Proof. by destruct v. Qed.
Lemma reads_as_int v : reads (as_int v).
Proof. by destruct v. Qed.

Lemma reads_bind {A B} (m : M A) (k : A → M B) :
  reads m → (∀ a, reads (k a)) → reads (bind m k).
Proof.
  intros Hm Hk st. unfold bind. specialize (Hm st).
  destruct (m st) as [[a|e] st1]; simpl in *; subst; [apply Hk | done].
Qed.

Lemma reads_map_M {A B} (f : A → M B) l : (∀ x, reads (f x)) → reads (map_M f l).
Proof.
  intros Hf. induction l as [|x l IH]; simpl; [done |].
  apply reads_bind; [done | intros y]. apply reads_bind; [done | done].
Qed.

Lemma reads_get_model l : reads (get_model l).
Proof. apply reads_bind; [apply reads_get_obj | by intros []]. Qed.
Lemma reads_get_states l : reads (get_states l).
Proof. apply reads_bind; [apply reads_get_obj | by intros []]. Qed.
Lemma reads_get_distn l : reads (get_distn l).
Proof. apply reads_bind; [apply reads_get_obj | by intros []]. Qed.

Lemma reads_inv {A} (m : M A) st r st' : reads m → m st = (r, st') → st' = st.
Proof. intros Hm E. specialize (Hm st). by rewrite E in Hm. Qed.

Lemma get_obj_inv d st o st' :
  get_obj d st = (Ok o, st') → st' = st ∧ heap st !! d = Some o.
Proof. unfold get_obj. destruct (heap st !! d); intros ?; by simplify_eq/=. Qed.

Lemma get_model_inv d st m st' :
  get_model d st = (Ok m, st') → st' = st ∧ heap st !! d = Some (ModelObj m).
Proof.
  unfold get_model, bind, get_obj, ret, raise.
  destruct (heap st !! d) as [[]|]; intros ?; by simplify_eq/=.
Qed.

Lemma get_states_inv d st c st' :
  get_states d st = (Ok c, st') → st' = st ∧ heap st !! d = Some (StatesObj c).
Proof.
  unfold get_states, bind, get_obj, ret, raise.
  destruct (heap st !! d) as [[]|]; intros ?; by simplify_eq/=.
Qed.

Lemma get_distn_inv d st p st' :
  get_distn d st = (Ok p, st') → st' = st ∧ heap st !! d = Some (Distn p).
Proof.
  unfold get_distn, bind, get_obj, ret, raise.
  destruct (heap st !! d) as [[]|]; intros ?; by simplify_eq/=.
Qed.

Section Preserves.
Context (R : relation state) `{!PreOrder R}.

Lemma reads_preserves {A} (m : M A) : reads m → preserves R m.
Proof. intros Hm st. by rewrite Hm. Qed.

Lemma run_bind {A B} (m : M A) (k : A → M B) st :
  R st (m st).2 →
  (∀ a st', m st = (Ok a, st') → R st' (k a st').2) →
  R st (bind m k st).2.
Proof.
  intros Hm Hk. unfold bind. destruct (m st) as [[a|e] st1] eqn:E; simpl in *.
  - etrans; [exact Hm | by apply Hk].
  - done.
Qed.

Lemma run_read {A B} (m : M A) (k : A → M B) st :
  reads m →
  (∀ a, m st = (Ok a, st) → R st (k a st).2) →
  R st (bind m k st).2.
Proof.
  intros Hm Hk. apply run_bind; [by rewrite Hm |].
  intros a st' E. pose proof (reads_inv _ _ _ _ Hm E) as ->. by apply Hk.
Qed.

Lemma preserves_bind {A B} (m : M A) (k : A → M B) :
  preserves R m → (∀ a, preserves R (k a)) → preserves R (bind m k).
Proof. intros Hm Hk st. apply run_bind; [apply Hm | intros; apply Hk]. Qed.

Lemma preserves_for_each {A} (l : list A) body :
  (∀ x, preserves R (body x)) → preserves R (for_each l body).
Proof.
  intros Hb. induction l as [|x l IH]; simpl; [by intros st |].
  by apply preserves_bind.
Qed.

Lemma preserves_map_M {A B} (f : A → M B) l :
  (∀ x, preserves R (f x)) → preserves R (map_M f l).
Proof.
  intros Hf. induction l as [|x l IH]; simpl; [by intros st |].
  apply preserves_bind; [done | intros y].
  apply preserves_bind; [done | by intros ys st].
Qed.

End Preserves.

(** ** The evolution of the store *)

Global Instance chain_step_preorder : PreOrder chain_step.
Proof.
  split.
  - intros []; simpl; done.
  - intros [p|m pi|c|m] [p'|m' pi'|c'|m'] [p''|m'' pi''|c''|m'']; simpl;
      try done; try congruence.
    intros (? & ? & ?) (? & ? & ?). repeat split; congruence.
Qed.

Global Instance evolves_preorder step `{!PreOrder step} : PreOrder (evolves step).
Proof.
  split.
  - intros st l o Hl. by exists o.
  - intros st1 st2 st3 H12 H23 l o Hl.
    destruct (H12 l o Hl) as (o' & Hl' & Ho).
    destruct (H23 l o' Hl') as (o'' & Hl'' & Ho').
    exists o''. split; [done | by etrans].
Qed.

Lemma evolves_heap step `{!PreOrder step} st st' :
  heap st' = heap st → evolves step st st'.
Proof. intros E l o Hl. exists o. by rewrite E. Qed.

Lemma evolves_put step `{!PreOrder step} st l o o' :
  heap st !! l = Some o → step o o' →
  evolves step st (put_obj l o' st).2.
Proof.
  intros Hl Ho k x Hk. simpl. destruct (decide (k = l)) as [->|Hne].
  - exists o'. rewrite list_lookup_insert_eq by (by eapply lookup_lt_Some).
    split; [done | congruence].
  - exists x. by rewrite list_lookup_insert_ne.
Qed.

Lemma evolves_alloc step `{!PreOrder step} st o :
  evolves step st (alloc o st).2.
Proof.
  intros l x Hl. simpl. exists x. split; [| done].
  rewrite lookup_app_l; [done | by eapply lookup_lt_Some].
Qed.

Lemma evolves_emit step `{!PreOrder step} e : preserves (evolves step) (emit e).
Proof. intros st. by apply evolves_heap. Qed.

Lemma evolves_draw step `{!PreOrder step} : preserves (evolves step) draw.
Proof. intros st. by apply evolves_heap. Qed.

(** Chain operations *)

Lemma pi_0_evolves d : preserves (evolves chain_step) (pi_0 d).
Proof.
  intros st. unfold pi_0.
  apply run_read; [tc_solve | apply reads_get_obj |]. intros o [_ Hd]%get_obj_inv.
  destruct o as [p|m [pi|]|c|m]; try reflexivity.
  apply run_read; [tc_solve | apply reads_get_model |]. intros mo _.
  apply run_read; [tc_solve | apply reads_attr |]. intros t _.
  apply run_read; [tc_solve | apply reads_get_distn |]. intros A _.
  apply run_read; [tc_solve | |].
  { destruct (dur_distns mo); [apply reads_map_M, reads_get_distn | apply reads_ret]. }
  intros durs _.
  apply run_bind; [tc_solve | |].
  - eapply evolves_put; [tc_solve | exact Hd | done].
  - intros [] st' _. reflexivity.
Qed.

Lemma States_messages_evolves s : preserves (evolves chain_step) (States_messages s).
Proof.
  intros st. unfold States_messages.
  apply run_read; [tc_solve | apply reads_get_states |]. intros c [_ Hs]%get_states_inv.
  destruct (tables c); [reflexivity |].
  apply run_read; [tc_solve | apply reads_get_model |]. intros mo _.
  apply run_read; [tc_solve | apply reads_attr |]. intros os _.
  apply run_read; [tc_solve | apply reads_map_M, reads_get_distn |]. intros obs _.
  apply run_read; [tc_solve | apply reads_attr |]. intros t _.
  apply run_read; [tc_solve | apply reads_get_distn |]. intros A _.
  apply run_read; [tc_solve | |].
  { destruct (_ && _); apply reads_attr. }
  intros i _.
  apply run_bind; [tc_solve | apply pi_0_evolves |]. intros pi st1 E1.
  pose proof (pi_0_evolves i st) as Hev. rewrite E1 in Hev. simpl in Hev.
  destruct (Hev _ _ Hs) as (o' & Hs' & Ho').
  apply run_read; [tc_solve | |].
  { destruct (dur_distns mo); [apply reads_map_M, reads_get_distn | apply reads_ret]. }
  intros durs _.
  apply run_bind; [tc_solve | |].
  - eapply evolves_put; [tc_solve | exact Hs' |].
    destruct o'; simpl in *; try done.
    destruct Ho' as (? & ? & ?). repeat split; congruence.
  - intros [] st2 _. reflexivity.
Qed.

Lemma States_log_likelihood_evolves s :
  preserves (evolves chain_step) (States_log_likelihood s).
Proof.
  apply preserves_bind; [tc_solve | apply States_messages_evolves | intros t].
  apply reads_preserves; [tc_solve | apply reads_lift].
Qed.

Lemma States_set_stateseq_evolves s q :
  preserves (evolves chain_step) (States_set_stateseq s q).
Proof.
  intros st. unfold States_set_stateseq.
  apply run_read; [tc_solve | apply reads_get_states |]. intros c [_ Hs]%get_states_inv.
  eapply evolves_put; [tc_solve | exact Hs | by repeat split].
Qed.

Lemma States_resample_evolves s temp :
  preserves (evolves chain_step) (States_resample s temp).
Proof.
  apply preserves_bind; [tc_solve | apply States_messages_evolves | intros t].
  apply preserves_bind; [tc_solve | apply evolves_draw; tc_solve | intros n].
  apply preserves_bind; [tc_solve | apply evolves_emit; tc_solve | intros _].
  apply preserves_bind; [tc_solve | | intros q].
  - apply reads_preserves; [tc_solve | apply reads_lift].
  - apply States_set_stateseq_evolves.
Qed.

(** A model object is not touched by what only evolves chains and caches. *)
Lemma evolves_model_at st st' self :
  evolves chain_step st st' → is_Some (model_at st self) →
  model_at st' self = model_at st self.
Proof.
  intros Hev [m Hm]. unfold model_at in *.
  destruct (heap st !! self) as [o|] eqn:E; [| done].
  destruct (Hev _ _ E) as (o' & -> & Ho).
  destruct o, o'; simpl in *; try done. by subst.
Qed.

(** ** The log-likelihood of a sequence that is not attached *)

Lemma set_states_list_twice l l' m :
  set_states_list l (set_states_list l' m) = set_states_list l m.
Proof. done. Qed.

Lemma set_states_list_same l m : states_list m = Some l → set_states_list l m = m.
Proof. destruct m; simpl. by intros ->. Qed.

Lemma states_list_append_at st self m l s :
  heap st !! self = Some (ModelObj m) → states_list m = Some l →
  states_list_append self s st
  = (Ok (), mkState (<[self := ModelObj (set_states_list (l ++ [s]) m)]> (heap st))
                    (trace st) (rng st)).
Proof.
  intros Hm Hl. unfold states_list_append.
  by rewrite (bind_ok _ _ _ _ _ (get_model_at _ _ _ Hm)), Hl.
Qed.

Lemma states_list_pop_at st self m l s :
  heap st !! self = Some (ModelObj m) → states_list m = Some (l ++ [s]) →
  states_list_pop self st
  = (Ok s, mkState (<[self := ModelObj (set_states_list l m)]> (heap st))
                   (trace st) (rng st)).
Proof.
  intros Hm Hl. unfold states_list_pop.
  rewrite (bind_ok _ _ _ _ _ (get_model_at _ _ _ Hm)), Hl, attr_Some, bind_ret.
  by rewrite last_snoc, removelast_last.
Qed.

(** Attaching a chain with a given state sequence and popping it leaves the
    new chain behind in the store, unattached, and nothing else. *)
Lemma add_data_then_pop st self m l d q temp kw :
  heap st !! self = Some (ModelObj m) → states_list m = Some l →
  states_init_check d kw = None →
  (add_data self d (Some q) temp kw ;;; states_list_pop self) st
  = (Ok (length (heap st)),
     mkState (heap st ++ [StatesObj (mkStates self d q None kw)]) (trace st) (rng st)).
Proof.
  intros Hm Hl Hc.
  assert (Hlt : self < length (heap st)) by (by eapply lookup_lt_Some).
  set (c := StatesObj (mkStates self d q None kw)).
  assert (Hadd : add_data self d (Some q) temp kw st
     = (Ok (), mkState (<[self := ModelObj (set_states_list (l ++ [length (heap st)]) m)]>
                          (heap st ++ [c])) (trace st) (rng st))).
  { unfold add_data.
    rewrite (bind_ok _ _ _ _ _ (get_model_at _ _ _ Hm)), Hl, attr_Some, bind_ret.
    unfold States_new. rewrite Hc, bind_alloc.
    erewrite states_list_append_at; [done | | done].
    simpl. by rewrite lookup_app_l. }
  rewrite (bind_ok _ _ _ _ _ Hadd).
  erewrite states_list_pop_at; [| simpl; apply list_lookup_insert_eq | done].
  - simpl. rewrite list_insert_insert_eq, set_states_list_twice, set_states_list_same by done.
    rewrite list_insert_id; [done |]. by rewrite lookup_app_l.
  - rewrite length_app. simpl. lia.
Qed.

(** C3: whatever [log_likelihood] does with the observation sequence it is
    passed, whether it returns a value or raises, the chains of the model
    are afterwards the ones it had before: the same objects in the same
    order. *)
Theorem log_likelihood_keeps_chains st self d kw :
  chains_at (log_likelihood self (Some d) kw st).2 self = chains_at st self.
Proof.
  unfold log_likelihood.
  assert (Hfail : ∀ e, add_data self d (Some (placeholder d)) None kw st = (Raise e, st) →
    chains_at
      ((add_data self d (Some (placeholder d)) None kw ;;;
        s <- states_list_pop self ;; States_log_likelihood s) st).2 self
    = chains_at st self).
  { intros e E. by rewrite (bind_raise _ _ _ _ _ E). }
  destruct (heap st !! self) as [o|] eqn:Hself.
  2: { eapply Hfail. unfold add_data, get_model, get_obj, bind. by rewrite Hself. }
  destruct o as [p|mm pi|c|m].
  1-3: eapply Hfail; unfold add_data, get_model, get_obj, bind; by rewrite Hself.
  destruct (states_list m) as [l|] eqn:Hl.
  2: { eapply Hfail. unfold add_data.
       rewrite (bind_ok _ _ _ _ _ (get_model_at _ _ _ Hself)), Hl. done. }
  destruct (states_init_check d kw) as [msg|] eqn:Hc.
  { eapply Hfail. unfold add_data.
    rewrite (bind_ok _ _ _ _ _ (get_model_at _ _ _ Hself)), Hl, attr_Some, bind_ret.
    unfold States_new. rewrite Hc. done. }
  pose proof (add_data_then_pop st self m l d (placeholder d) None kw Hself Hl Hc) as E.
  set (st1 := mkState _ _ _) in E.
  assert (E' : ∀ B (k : loc → M B),
    (add_data self d (Some (placeholder d)) None kw ;;; s <- states_list_pop self ;; k s) st
    = k (length (heap st)) st1).
  { intros B k. revert E. unfold bind.
    destruct (add_data self d _ None kw st) as [[[]|e] st']; [| done].
    by destruct (states_list_pop self st') as [[s|e] st'']; intros [= -> ->]. }
  rewrite E'.
  pose proof (States_log_likelihood_evolves (length (heap st)) st1) as Hev.
  assert (Hm1 : model_at st1 self = model_at st self).
  { unfold model_at, st1. simpl. rewrite lookup_app_l; [done |]. by eapply lookup_lt_Some. }
  unfold chains_at. rewrite (evolves_model_at _ _ _ Hev), Hm1; [done |].
  rewrite Hm1. unfold model_at. rewrite Hself. by eexists.
Qed.

End FrameFacts.

Section OutcomeFacts.
Context `{Collaborators}.

(** ** What is raised and what is returned *)

Section Raises.
Context (P : exn → Prop).

Lemma raises_ret {A} (a : A) : raises P (ret a).
Proof. by intros st e st'. Qed.
Lemma raises_raise {A} e : P e → raises P (@raise _ A e).
Proof. intros He st e' st' [= <- _]. done. Qed.
Lemma raises_put_obj l o : raises P (put_obj l o).
Proof. by intros st e st'. Qed.
Lemma raises_alloc o : raises P (alloc o).
Proof. by intros st e st'. Qed.
Lemma raises_emit ev : raises P (emit ev).
Proof. by intros st e st'. Qed.
Lemma raises_draw : raises P draw.
Proof. by intros st e st'. Qed.

Lemma raises_bind {A B} (m : M A) (k : A → M B) :
  raises P m → (∀ a, raises P (k a)) → raises P (bind m k).
Proof.
  intros Hm Hk st e st'. unfold bind.
  destruct (m st) as [[a|e0] st1] eqn:E.
  - apply Hk.
  - intros [= <- _]. by eapply Hm.
Qed.

Lemma raises_map_M {A B} (f : A → M B) l :
  (∀ x, raises P (f x)) → raises P (map_M f l).
Proof.
  intros Hf. induction l as [|x l IH]; simpl; [apply raises_ret |].
  apply raises_bind; [done | intros y].
  apply raises_bind; [done | intros ys]. apply raises_ret.
Qed.

Lemma raises_for_each {A} (l : list A) body :
  (∀ x, raises P (body x)) → raises P (for_each l body).
Proof.
  intros Hb. induction l as [|x l IH]; simpl; [apply raises_ret |].
  by apply raises_bind.
Qed.

End Raises.

Lemma returns_bind {A B} (Q : B → Prop) (m : M A) (k : A → M B) :
  (∀ a, returns Q (k a)) → returns Q (bind m k).
Proof.
  intros Hk st b st'. unfold bind.
  destruct (m st) as [[a|e0] st1]; [apply Hk | done].
Qed.

Lemma returns_ret {A} (Q : A → Prop) a : Q a → returns Q (ret a).
Proof. intros Ha st b st' [= <- _]. done. Qed.

(** None of the methods [BIC] runs after its check raises an
    [AssertionError]. *)
Lemma get_obj_no_assertion l : raises not_an_assertion (get_obj l).
Proof.
  intros st e st'. unfold get_obj. destruct (heap st !! l); [done |].
  by intros [= <- _].
Qed.

Lemma attr_no_assertion {A} name (o : option A) : raises not_an_assertion (attr name o).
Proof. destruct o; [apply raises_ret | by apply raises_raise]. Qed.

Lemma lift_no_assertion {A} msg (o : option A) : raises not_an_assertion (lift msg o).
Proof. destruct o; [apply raises_ret | by apply raises_raise]. Qed.

Ltac no_assertion :=
  repeat first
    [ apply raises_ret | apply raises_put_obj | apply raises_alloc
    | apply raises_emit | apply raises_draw
    | apply get_obj_no_assertion | apply attr_no_assertion | apply lift_no_assertion
    | apply raises_raise; exact I
    | apply raises_map_M; intros ?
    | apply raises_for_each; intros ?
    | match goal with
      | |- raises _ (match ?x with _ => _ end) => destruct x
      | |- raises _ (if ?x then _ else _) => destruct x
      end
    | apply raises_bind; [| intros ?]
    | progress unfold States_new, call, as_int ].

Lemma log_likelihood_no_assertion self d kw :
  raises not_an_assertion (log_likelihood self d kw).
Proof. unfold log_likelihood. no_assertion. Qed.

Lemma num_parameters_no_assertion self : raises not_an_assertion (num_parameters self).
Proof. unfold num_parameters. no_assertion. Qed.

(** Reading the property gives an integer. *)
Lemma num_parameters_returns_int self :
  returns (fun v => ∃ z, v = VInt z) (num_parameters self).
Proof.
  unfold num_parameters. apply returns_bind. intros m.
  destruct (is_HSMM (klass m)).
  - unfold HSMM_num_parameters. repeat (apply returns_bind; intros ?).
    apply returns_ret. by eexists.
  - unfold HMM_num_parameters. repeat (apply returns_bind; intros ?).
    apply returns_ret. by eexists.
Qed.

(** ** BIC *)

(** C10: on a model with at least one chain, [BIC()] passes its check and
    then raises: it never returns a score. *)
Theorem BIC_never_returns st self m l :
  heap st !! self = Some (ModelObj m) →
  states_list m = Some l →
  l ≠ [] →
  py_assert (negb (is_Some_b (@None (list Obs))) && bool_decide (0 < length l))
            "Must have data to get BIC" st = (Ok (), st)
  ∧ ∃ e st', BIC self None st = (Raise e, st') ∧ not_an_assertion e.
Proof.
  intros Hm Hl Hne.
  assert (Hlen : bool_decide (0 < length l) = true).
  { apply bool_decide_eq_true_2. destruct l; simpl; [done | lia]. }
  split; [by rewrite Hlen |].
  unfold BIC.
  rewrite (bind_ok _ _ _ _ _ (get_model_at _ _ _ Hm)), Hl, attr_Some, bind_ret.
  rewrite Hlen. simpl negb. simpl andb. rewrite py_assert_true, bind_ret.
  set (lls := map_M _ l).
  assert (Hlls : raises not_an_assertion lls).
  { apply raises_map_M. intros s. apply raises_bind; [no_assertion |].
    intros c. apply log_likelihood_no_assertion. }
  unfold bind at 1.
  destruct (lls st) as [[xs|e] st1] eqn:E1.
  2: { exists e, st1. split; [done | by eapply Hlls]. }
  unfold bind at 1.
  destruct (num_parameters self st1) as [[v|e] st2] eqn:E2.
  2: { exists e, st2. split; [done | by eapply num_parameters_no_assertion]. }
  destruct (num_parameters_returns_int _ _ _ _ E2) as [z ->].
  by eexists _, st2.
Qed.

End OutcomeFacts.

Section Ordering.
Context `{Collaborators}.

(** ** The order of the collaborator calls *)

Global Instance extends_preorder P : PreOrder (extends P).
Proof.
  split.
  - intros st. exists []. by rewrite app_nil_r.
  - intros st1 st2 st3 (e1 & E1 & F1) (e2 & E2 & F2).
    exists (e1 ++ e2). rewrite E2, E1, app_assoc. split; [done |].
    by apply Forall_app.
Qed.

Lemma extends_trace P st st' : trace st' = trace st → extends P st st'.
Proof. intros E. exists []. by rewrite app_nil_r. Qed.

Lemma extends_put_obj P l o : preserves (extends P) (put_obj l o).
Proof. intros st. by apply extends_trace. Qed.
Lemma extends_alloc P o : preserves (extends P) (alloc o).
Proof. intros st. by apply extends_trace. Qed.
Lemma extends_draw P : preserves (extends P) draw.
Proof. intros st. by apply extends_trace. Qed.
Lemma extends_emit (P : event → Prop) e : P e → preserves (extends P) (emit e).
Proof. intros He st. exists [e]. split; [done | by constructor]. Qed.
Lemma extends_ret {A} P (a : A) : preserves (extends P) (ret a).
Proof. intros st. by apply extends_trace. Qed.
Lemma extends_raise {A} P e : preserves (extends P) (@raise _ A e).
Proof. intros st. by apply extends_trace. Qed.
Lemma extends_get_obj P l : preserves (extends P) (get_obj l).
Proof. apply reads_preserves; [tc_solve | apply reads_get_obj]. Qed.
Lemma extends_attr {A} P name (o : option A) : preserves (extends P) (attr name o).
Proof. apply reads_preserves; [tc_solve | apply reads_attr]. Qed.
Lemma extends_lift {A} P name (o : option A) : preserves (extends P) (lift name o).
Proof. apply reads_preserves; [tc_solve | apply reads_lift]. Qed.

(** A method made of the primitives extends the trace by the events it
    emits. *)
Ltac trace_tac :=
  repeat first
    [ apply extends_ret | apply extends_raise | apply extends_put_obj
    | apply extends_alloc | apply extends_draw | apply extends_get_obj
    | apply extends_attr | apply extends_lift
    | apply extends_emit; simpl; tauto
    | apply preserves_map_M; [tc_solve | intros ?]
    | apply preserves_for_each; [tc_solve | intros ?]
    | match goal with
      | |- preserves _ (match ?x with _ => _ end) => destruct x
      | |- preserves _ (if ?x then _ else _) => destruct x
      end
    | apply preserves_bind; [tc_solve | | intros ?] ].

Lemma _clear_caches_trace self : preserves (extends cache_event) (_clear_caches self).
Proof. unfold _clear_caches. trace_tac. Qed.

Lemma resample_dur_distns_trace self temp :
  preserves (extends (fun e => is_duration_event e ∨ cache_event e))
            (resample_dur_distns self temp).
Proof. unfold resample_dur_distns. trace_tac. Qed.

Lemma HMM_resample_parameters_trace self temp :
  preserves (extends (fun e => is_HMM_parameter_event e ∨ cache_event e))
            (HMM_resample_parameters self temp).
Proof. unfold HMM_resample_parameters. trace_tac. Qed.

Lemma resample_states_trace self temp :
  preserves (extends is_states_event) (resample_states self temp).
Proof. unfold resample_states. trace_tac. Qed.

Lemma States_messages_trace s : preserves (extends cache_event) (States_messages s).
Proof. unfold States_messages, pi_0. trace_tac. Qed.

Lemma States_set_stateseq_trace s q :
  preserves (extends cache_event) (States_set_stateseq s q).
Proof. unfold States_set_stateseq. trace_tac. Qed.

Lemma precedes_all_app (P Q : event → Prop) l1 l2 :
  Forall (fun e => ¬ Q e) l1 → Forall (fun e => ¬ P e) l2 →
  precedes_all P Q (l1 ++ l2).
Proof.
  intros H1 H2 i j a b Hi Hj Pa Qb.
  destruct (decide (j < length l1)) as [Hlt|Hge].
  { rewrite lookup_app_l in Hj by done.
    rewrite Forall_lookup in H1. by destruct (H1 _ _ Hj). }
  destruct (decide (i < length l1)) as [Hlt'|Hge']; [lia |].
  rewrite lookup_app_r in Hi by lia.
  rewrite Forall_lookup in H2. by destruct (H2 _ _ Hi).
Qed.

Lemma resample_parameters_trace self temp st :
  ∃ ds rest,
    trace (resample_parameters self temp st).2 = trace st ++ ds ++ rest
    ∧ Forall (fun e => is_duration_event e ∨ cache_event e) ds
    ∧ Forall (fun e => is_HMM_parameter_event e ∨ cache_event e) rest.
Proof.
  unfold resample_parameters, bind.
  destruct (get_model self st) as [[m|e] st0] eqn:E.
  2: { pose proof (reads_inv _ _ _ _ (reads_get_model self) E) as ->.
       exists [], []. by rewrite !app_nil_r. }
  pose proof (reads_inv _ _ _ _ (reads_get_model self) E) as ->.
  destruct (is_HSMM (klass m)).
  - unfold HSMM_resample_parameters, bind.
    destruct (resample_dur_distns_trace self temp st) as (ds & Eds & Fds).
    destruct (resample_dur_distns self temp st) as [[[]|e] st1]; simpl in *.
    + destruct (HMM_resample_parameters_trace self temp st1) as (rest & Er & Fr).
      exists ds, rest. by rewrite Er, Eds, app_assoc.
    + exists ds, []. by rewrite app_nil_r.
  - destruct (HMM_resample_parameters_trace self temp st) as (rest & Er & Fr).
    by exists [], rest.
Qed.

(** In the events of a Gibbs sweep, whether it returns or raises, every
    resampling of a parameter posterior comes before every resampling of a
    chain's state sequence, and every resampling of a duration posterior
    comes before every resampling of an observation, transition or
    initial-state posterior. *)
Lemma resample_model_events_ordered st self temp :
  ∃ evs,
    trace (resample_model self temp st).2 = trace st ++ evs
    ∧ precedes_all is_parameter_event is_states_event evs
    ∧ precedes_all is_duration_event is_HMM_parameter_event evs.
Proof.
  unfold resample_model, bind.
  destruct (resample_parameters_trace self temp st) as (ds & rest & E & Fds & Frest).
  assert (∃ ss, trace (let (r, st') := resample_parameters self temp st in
                       match r with
                       | Ok a => resample_states self temp st'
                       | Raise e => (Raise e, st')
                       end).2 = trace st ++ (ds ++ rest) ++ ss
                ∧ Forall is_states_event ss) as (ss & Ess & Fss).
  { destruct (resample_parameters self temp st) as [[[]|e] st1]; simpl in *.
    - destruct (resample_states_trace self temp st1) as (ss & Ess & Fss).
      exists ss. by rewrite Ess, E, !app_assoc.
    - exists []. by rewrite app_nil_r. }
  assert (Hev : ∀ (P Q : event → Prop) l,
            (∀ e, P e → Q e) → Forall P l → Forall Q l).
  { intros P Q l HPQ HF. eapply Forall_impl; [exact HF | exact HPQ]. }
  exists ((ds ++ rest) ++ ss). split; [done |]. split.
  - apply precedes_all_app.
    + apply Forall_app. split; [eapply Hev, Fds | eapply Hev, Frest];
        intros []; simpl; tauto.
    + eapply Hev, Fss. intros []; unfold is_parameter_event; simpl; tauto.
  - rewrite <- app_assoc. apply precedes_all_app.
    + eapply Hev, Fds. intros []; simpl; tauto.
    + apply Forall_app. split; [eapply Hev, Frest | eapply Hev, Fss];
        intros []; simpl; tauto.
Qed.

End Ordering.

Section CacheFacts.
Context `{Collaborators}.

(** ** Caches after a parameter update *)

Lemma bind_inv {A B} (m : M A) (k : A → M B) st b st' :
  bind m k st = (Ok b, st') →
  ∃ a st1, m st = (Ok a, st1) ∧ k a st1 = (Ok b, st').
Proof.
  unfold bind. destruct (m st) as [[a|e] st1]; [| done].
  intros E. by exists a, st1.
Qed.

Lemma States_clear_caches_inv s st st' :
  States_clear_caches s st = (Ok (), st') →
  ∃ c, heap st !! s = Some (StatesObj c)
       ∧ heap st' = <[s := StatesObj (set_tables None c)]> (heap st).
Proof.
  unfold States_clear_caches.
  intros (c & st1 & [-> Hs]%get_states_inv & E)%bind_inv.
  exists c. split; [done |]. by injection E as <-.
Qed.

Lemma for_each_clear_caches l st st' :
  for_each l States_clear_caches st = (Ok (), st') →
  ∀ s, s ∈ l ∨ chain_cleared st s → chain_cleared st' s.
Proof.
  revert st. induction l as [|x l IH]; intros st E s Hs.
  - injection E as <-. destruct Hs as [Hs|Hs]; [by apply elem_of_nil in Hs | done].
  - simpl in E. apply bind_inv in E as ([] & st1 & E1 & E2).
    apply States_clear_caches_inv in E1 as (c & Hx & Hheap).
    apply (IH _ E2).
    assert (Hxc : chain_cleared st1 x).
    { exists (set_tables None c). rewrite Hheap.
      split; [| done]. apply list_lookup_insert_eq. by eapply lookup_lt_Some. }
    destruct Hs as [[->|Hs]%elem_of_cons|Hs]; [by right | by left |].
    right. destruct (decide (s = x)) as [->|Hne]; [done |].
    destruct Hs as (c' & Hc' & Ht). exists c'.
    by rewrite Hheap, list_lookup_insert_ne.
Qed.

Lemma for_each_clear_caches_evolves l :
  preserves (evolves chain_step) (for_each l States_clear_caches).
Proof.
  apply preserves_for_each; [tc_solve |]. intros s st. unfold States_clear_caches.
  apply run_read; [tc_solve | apply reads_get_states |]. intros c [_ Hs]%get_states_inv.
  apply run_bind; [tc_solve | apply evolves_emit; tc_solve |]. intros [] st1 [= <-].
  eapply evolves_put; [tc_solve | exact Hs | by repeat split].
Qed.

Lemma _clear_caches_cleared self st st' :
  _clear_caches self st = (Ok (), st') → caches_cleared st' self.
Proof.
  unfold _clear_caches.
  intros (m & ? & [-> Hm]%get_model_inv & E)%bind_inv.
  apply bind_inv in E as (l & st0 & El & E).
  pose proof (reads_inv _ _ _ _ (reads_attr _ _) El) as ->.
  apply bind_inv in E as ([] & st1 & E1 & E).
  apply bind_inv in E as (i & st2 & Ei & E).
  pose proof (reads_inv _ _ _ _ (reads_attr _ _) Ei) as ->.
  destruct (states_list m) as [l'|] eqn:Hl; [| done]. injection El as <-.
  destruct (init_state_distn m) as [i'|] eqn:Hi; [| done]. injection Ei as <-.
  pose proof (for_each_clear_caches _ _ _ E1) as Hcl.
  pose proof (for_each_clear_caches_evolves l' st) as Hev.
  rewrite E1 in Hev. simpl in Hev.
  destruct (Hev _ _ Hm) as (o' & Hm1 & Ho'). destruct o'; simpl in Ho'; try done. subst.
  unfold distn_clear_caches in E.
  apply bind_inv in E as (o & ? & [-> Hio]%get_obj_inv & E).
  assert (Hchains : Forall (chain_cleared st1) l').
  { apply Forall_forall. intros s Hs. apply Hcl. by left. }
  destruct o as [p|mm pi|c|mo].
  - injection E as <-. exists m, l', i'. repeat split; try done.
    intros mm pi Hx. congruence.
  - apply bind_inv in E as ([] & st2 & [= <-] & [= <-]).
    exists m, l', i'. simpl.
    assert (Hne : i' ≠ self) by (intros ->; congruence).
    split; [by rewrite list_lookup_insert_ne |]. split; [done |]. split.
    + eapply Forall_impl; [exact Hchains |]. intros s (c & Hc & Ht).
      exists c. split; [| done]. simpl. rewrite list_lookup_insert_ne; [done |].
      intros ->. congruence.
    + split; [done |]. intros m' pi'. simpl.
      rewrite list_lookup_insert_eq by (by eapply lookup_lt_Some). congruence.
  - injection E as <-. exists m, l', i'. repeat split; try done.
    intros mm pi Hx. congruence.
  - injection E as <-. exists m, l', i'. repeat split; try done.
    intros mm pi Hx. congruence.
Qed.

Lemma then_clear_caches {A} (m : M A) self st st' :
  (m ;;; _clear_caches self) st = (Ok (), st') → caches_cleared st' self.
Proof. intros (a & st1 & _ & E)%bind_inv. by eapply _clear_caches_cleared. Qed.

(** When one of the parameter updates returns, no chain of the model has
    cached tables and the initial-state posterior of the model holds no
    derived value. *)
Theorem parameter_update_clears_caches u self temp st st' :
  run_update u self temp st = (Ok (), st') → caches_cleared st' self.
Proof.
  destruct u; simpl; unfold resample_obs_distns, resample_trans_distn,
    resample_init_state_distn, resample_dur_distns; intros E;
    repeat first [ by eapply then_clear_caches
                 | apply bind_inv in E as (? & ? & _ & E) ].
Qed.

End CacheFacts.

Section Parallel.
Context `{Collaborators}.

(** ** Parallel resampling *)

Lemma map_M_chains {B} (f : States → B) l st :
  Forall (is_chain st) l →
  ∃ xs, map_M (fun s => c <- get_states s ;; ret (f c)) l st = (Ok xs, st)
        ∧ length xs = length l.
Proof.
  induction 1 as [|s l [c Hc] _ (xs & IH & Hlen)]; [by exists [] |].
  exists (f c :: xs). simpl.
  rewrite (bind_ok _ _ _ (f c) st).
  - rewrite (bind_ok _ _ _ _ _ IH). split; [done | simpl; lia].
  - by rewrite (bind_ok _ _ _ _ _ (get_states_at _ _ _ Hc)).
Qed.

Lemma map_M_get_states l st :
  Forall (is_chain st) l → ∃ cs, map_M get_states l st = (Ok cs, st).
Proof.
  induction 1 as [|s l [c Hc] _ (cs & IH)]; [by exists [] |].
  exists (c :: cs). simpl.
  rewrite (bind_ok _ _ _ _ _ (get_states_at _ _ _ Hc)).
  by rewrite (bind_ok _ _ _ _ _ IH).
Qed.

Lemma _get_parallel_kwargss_ok self m l st :
  heap st !! self = Some (ModelObj m) →
  Forall (is_chain st) l →
  ∃ ks, _get_parallel_kwargss self l st = (Ok ks, st).
Proof.
  intros Hm Hl. unfold _get_parallel_kwargss.
  rewrite (bind_ok _ _ _ _ _ (get_model_at _ _ _ Hm)).
  destruct (map_M_chains (fun c => censoring_kwargs (kwargs c)) l st Hl) as (ks & Eks & _).
  destruct (map_M_get_states l st Hl) as (cs & Ecs).
  destruct (klass m); try by eexists.
  - rewrite (bind_ok _ _ _ _ _ Eks). by eexists.
  - rewrite (bind_ok _ _ _ _ _ Eks). by eexists.
  - rewrite (bind_ok _ _ _ _ _ Eks), (bind_ok _ _ _ _ _ Ecs). by eexists.
Qed.

Lemma evolves_is_chain st st' s :
  evolves chain_step st st' → is_chain st s → is_chain st' s.
Proof.
  intros Hev [c Hc]. destruct (Hev _ _ Hc) as (o' & Ho' & Hstep).
  destruct o'; simpl in Hstep; try done. by eexists.
Qed.

(** Assigning the returned sequences to chains succeeds and touches only
    the chains. *)
Lemma assign_stateseqs (pairs : list (loc * list nat)) st :
  Forall (fun sq => is_chain st sq.1) pairs →
  ∃ st', for_each pairs (fun sq => States_set_stateseq sq.1 sq.2) st = (Ok (), st')
         ∧ evolves chain_step st st'.
Proof.
  revert st. induction pairs as [|[s q] pairs IH]; intros st Hall.
  - exists st. split; [done | reflexivity].
  - apply Forall_cons in Hall as [[c Hc] Hall]. simpl in *.
    pose proof (States_set_stateseq_evolves s q st) as Hev1.
    assert (E1 : States_set_stateseq s q st
                 = (Ok (), (put_obj s (StatesObj (set_stateseq q c)) st).2)).
    { unfold States_set_stateseq.
      by rewrite (bind_ok _ _ _ _ _ (get_states_at _ _ _ Hc)). }
    rewrite E1 in Hev1. simpl in Hev1.
    destruct (IH (put_obj s (StatesObj (set_stateseq q c)) st).2) as (st' & E2 & Hev2).
    { eapply Forall_impl; [exact Hall |]. intros sq Hsq.
      by eapply evolves_is_chain. }
    exists st'. rewrite (bind_ok _ _ _ _ _ E1). split; [done |]. by etrans.
Qed.

Lemma map_on_each_heap f datas kwargss st :
  heap (map_on_each f datas kwargss st).2 = heap st.
Proof. done. Qed.

Lemma run_jobs_length {A B} (job : A → M B) jobs pushed rs :
  run_jobs job jobs pushed = Ok rs → length rs = length jobs.
Proof.
  revert rs. induction jobs as [|j jobs IH]; intros rs; simpl.
  - by intros [= <-].
  - destruct (job j _) as [[r|e] ?]; [| done].
    destruct (run_jobs job jobs pushed) as [rs'|e]; [| done].
    intros [= <-]. simpl. by rewrite (IH rs').
Qed.

Lemma _get_parallel_kwargss_length self l st ks st' :
  _get_parallel_kwargss self l st = (Ok (Some ks), st') → length ks = length l.
Proof.
  assert (Hmap : ∀ {B} (f : States → B) st0 xs st1,
            map_M (fun s => c <- get_states s ;; ret (f c)) l st0 = (Ok xs, st1) →
            length xs = length l).
  { intros B f. clear. induction l as [|s l IH]; intros st0 xs st1; simpl.
    - by intros [= <- <-].
    - intros (x & st2 & _ & E)%bind_inv.
      apply bind_inv in E as (xs' & st3 & E & [= <- <-]). simpl.
      by rewrite (IH _ _ _ E). }
  assert (Hget : ∀ cs st0 st1, map_M get_states l st0 = (Ok cs, st1) → length cs = length l).
  { clear. induction l as [|s l IH]; intros cs st0 st1; simpl.
    - by intros [= <- <-].
    - intros (x & st2 & _ & E)%bind_inv.
      apply bind_inv in E as (xs' & st3 & E & [= <- <-]). simpl.
      by rewrite (IH _ _ _ E). }
  unfold _get_parallel_kwargss.
  intros (m & st1 & _ & E)%bind_inv.
  destruct (klass m); try done.
  - apply bind_inv in E as (ks' & st2 & E & [= <- <-]).
    exact (Hmap _ (fun c => censoring_kwargs (kwargs c)) _ _ _ E).
  - apply bind_inv in E as (ks' & st2 & E & [= <- <-]).
    exact (Hmap _ (fun c => censoring_kwargs (kwargs c)) _ _ _ E).
  - apply bind_inv in E as (ks' & st2 & E & E').
    apply bind_inv in E' as (cs & st3 & E' & [= <- <-]).
    rewrite length_zip_with, (Hmap _ (fun c => censoring_kwargs (kwargs c)) _ _ _ E),
      (Hget _ _ _ E'). lia.
Qed.

(** Assigning sequences to distinct chains leaves each chain with the
    sequence paired with it, and every other object as it was. *)
Lemma assign_stateseqs_result l (raw : list (list nat)) st :
  Forall (is_chain st) l → NoDup l → length raw = length l →
  ∃ st', for_each (zip l raw) (fun sq => States_set_stateseq sq.1 sq.2) st = (Ok (), st')
         ∧ Forall2 (fun s q => stateseq_at st' s = Some q) l raw
         ∧ ∀ s, s ∉ l → heap st' !! s = heap st !! s.
Proof.
  revert raw st. induction l as [|s l IH]; intros [|q raw] st Hall Hnd Hlen;
    simpl in Hlen; try lia.
  - exists st. by repeat split.
  - apply Forall_cons in Hall as [[c Hc] Hall]. apply NoDup_cons in Hnd as [Hs Hnd].
    simpl.
    assert (E1 : States_set_stateseq s q st
                 = (Ok (), (put_obj s (StatesObj (set_stateseq q c)) st).2)).
    { unfold States_set_stateseq.
      by rewrite (bind_ok _ _ _ _ _ (get_states_at _ _ _ Hc)). }
    set (st1 := (put_obj s (StatesObj (set_stateseq q c)) st).2) in *.
    assert (Hs1 : heap st1 !! s = Some (StatesObj (set_stateseq q c))).
    { simpl. apply list_lookup_insert_eq. by eapply lookup_lt_Some. }
    destruct (IH raw st1) as (st' & E2 & Hres & Hother); [| done | lia |].
    { rewrite Forall_forall in Hall. apply Forall_forall. intros x Hx.
      destruct (Hall x Hx) as [cx Hcx]. exists cx. simpl.
      rewrite list_lookup_insert_ne; [done |]. by intros ->. }
    exists st'. rewrite (bind_ok _ _ _ _ _ E1). split; [done |]. split.
    + constructor; [| done]. unfold stateseq_at, states_at.
      by rewrite (Hother s Hs), Hs1.
    + intros x Hx. apply not_elem_of_cons in Hx as [Hne Hx].
      rewrite (Hother x Hx). simpl. by rewrite list_lookup_insert_ne.
Qed.

(** The parallel sweep on a model whose chains are [l].  The jobs are made
    of the data and the configuration of the chains and run against the
    store in which the model has no chains.  When the map raises, the sweep
    raises the same exception and leaves that store: no chain has changed,
    and the model is left without chains.  When the map returns, the sweep
    returns, the model has its chains [l] again, and each of them, when no
    chain is listed twice, has the state sequence its job returned. *)
Theorem resample_states_parallel_outcome st self m l temp :
  heap st !! self = Some (ModelObj m) →
  states_list m = Some l →
  Forall (is_chain st) l →
  ∃ pushed datas kwargss,
    setattr self (set_states_list []) st = (Ok (), pushed)
    ∧ map_M _get_parallel_data l pushed = (Ok datas, pushed)
    ∧ _get_parallel_kwargss self l pushed = (Ok kwargss, pushed)
    ∧ match (map_on_each (_state_sampler self temp) datas kwargss pushed).1 with
      | Raise e =>
          ∃ st', resample_states_parallel self temp st = (Raise e, st')
                 ∧ heap st' = heap pushed
                 ∧ chains_at st' self = Some []
                 ∧ ∀ s, s ≠ self → heap st' !! s = heap st !! s
      | Ok raw =>
          ∃ st', resample_states_parallel self temp st = (Ok (), st')
                 ∧ chains_at st' self = Some l
                 ∧ Forall (is_chain st') l
                 ∧ (NoDup l → Forall2 (fun s q => stateseq_at st' s = Some q) l raw)
      end.
Proof.
  intros Hm Hl Hchains.
  assert (Hlt : self < length (heap st)) by (by eapply lookup_lt_Some).
  unfold resample_states_parallel.
  rewrite (bind_ok _ _ _ _ _ (get_model_at _ _ _ Hm)), Hl, attr_Some, bind_ret.
  destruct (setattr_ok st self m (set_states_list []) Hm) as (st1 & E1 & Hm1).
  rewrite (bind_ok _ _ _ _ _ E1).
  assert (Hheap1 : heap st1 = <[self := ModelObj (set_states_list [] m)]> (heap st)).
  { unfold setattr in E1. rewrite (bind_ok _ _ _ _ _ (get_model_at _ _ _ Hm)) in E1.
    by injection E1 as <-. }
  assert (Hother : ∀ s, s ≠ self → heap st1 !! s = heap st !! s).
  { intros s Hs. by rewrite Hheap1, list_lookup_insert_ne. }
  assert (Hchains1 : Forall (is_chain st1) l).
  { eapply Forall_impl; [exact Hchains |]. intros s [c Hc]. exists c.
    rewrite Hother; [done |]. intros ->. congruence. }
  destruct (map_M_chains data l st1 Hchains1) as (datas & Ed & Hdlen).
  destruct (_get_parallel_kwargss_ok self _ l st1 Hm1 Hchains1) as (ks & Ek).
  exists st1, datas, ks. split; [done |]. split; [exact Ed |]. split; [exact Ek |].
  unfold _get_parallel_data. rewrite (bind_ok _ _ _ _ _ Ed).
  rewrite (bind_ok _ _ _ _ _ Ek).
  unfold bind at 1 3.
  pose proof (map_on_each_heap (_state_sampler self temp) datas ks st1) as Hheap2.
  assert (Hrawlen : ∀ raw, (map_on_each (_state_sampler self temp) datas ks st1).1 = Ok raw →
                    length raw = length l).
  { intros raw Eraw. unfold map_on_each in Eraw. simpl in Eraw.
    apply run_jobs_length in Eraw. rewrite Eraw.
    destruct ks as [ks|].
    - apply _get_parallel_kwargss_length in Ek. rewrite length_zip. lia.
    - by rewrite length_map. }
  destruct (map_on_each (_state_sampler self temp) datas ks st1) as [[raw|e] st2];
    simpl in Hheap2; simpl.
  2: { eexists. split; [done |]. split; [done |]. split.
       - unfold chains_at, model_at. by rewrite Hheap2, Hm1.
       - intros s Hs. rewrite Hheap2. by apply Hother. }
  specialize (Hrawlen raw eq_refl).
  assert (Hchains2 : Forall (is_chain st2) l).
  { eapply Forall_impl; [exact Hchains1 |]. intros s [c Hc]. exists c. by rewrite Hheap2. }
  destruct (assign_stateseqs (zip l raw) st2) as (st3 & E3 & Hev3).
  { apply Forall_forall. intros [s q] Hin. simpl.
    apply elem_of_zip_l in Hin. rewrite Forall_forall in Hchains2. by apply Hchains2. }
  rewrite (bind_ok _ _ _ _ _ E3).
  assert (Hm3 : heap st3 !! self = Some (ModelObj (set_states_list [] m))).
  { destruct (Hev3 self (ModelObj (set_states_list [] m))) as (o' & Ho' & Hstep).
    - by rewrite Hheap2.
    - destruct o'; simpl in Hstep; try done. by subst. }
  destruct (setattr_ok st3 self _ (set_states_list l) Hm3) as (st4 & E4 & Hm4).
  assert (Hheap4 : heap st4 = <[self := ModelObj (set_states_list l (set_states_list [] m))]>
                                (heap st3)).
  { unfold setattr in E4. rewrite (bind_ok _ _ _ _ _ (get_model_at _ _ _ Hm3)) in E4.
    by injection E4 as <-. }
  assert (Hchain_ne : ∀ s, s ∈ l → s ≠ self).
  { intros s Hs ->. rewrite Forall_forall in Hchains. destruct (Hchains _ Hs). congruence. }
  exists st4. split; [exact E4 |]. split; [| split].
  - unfold chains_at, model_at. by rewrite Hm4.
  - apply Forall_forall. intros s Hs.
    rewrite Forall_forall in Hchains2.
    destruct (evolves_is_chain _ _ _ Hev3 (Hchains2 _ Hs)) as [c Hc].
    exists c. rewrite Hheap4, list_lookup_insert_ne; [done |].
    intros ->. by apply (Hchain_ne _ Hs).
  - intros Hnd.
    destruct (assign_stateseqs_result l raw st2 Hchains2 Hnd Hrawlen)
      as (st3' & E3' & Hres & _).
    rewrite E3 in E3'. injection E3' as <-.
    apply Forall2_same_length_lookup. split; [done |].
    intros i s q Hs Hq.
    pose proof (Forall2_lookup_lr _ _ _ _ _ _ Hres Hs Hq) as Hsq.
    unfold stateseq_at, states_at in *. rewrite Hheap4, list_lookup_insert_ne; [done |].
    intros Heq. apply (Hchain_ne s); [by eapply list_elem_of_lookup_2 | done].
Qed.

End Parallel.

Section MoreFrameFacts.
Context `{Collaborators}.

(** ** What the methods leave alone *)

Global Instance cache_step_preorder : PreOrder cache_step.
Proof.
  split.
  - intros []; simpl; done.
  - intros [p|m pi|c|m] [p'|m' pi'|c'|m'] [p''|m'' pi''|c''|m'']; simpl;
      try done; try congruence.
    intros (? & ? & ? & ?) (? & ? & ? & ?). repeat split; congruence.
Qed.

Global Instance parameter_step_preorder : PreOrder parameter_step.
Proof.
  split.
  - intros []; simpl; done.
  - intros [p|m pi|c|m] [p'|m' pi'|c'|m'] [p''|m'' pi''|c''|m'']; simpl;
      try done; try congruence.
    intros (? & ? & ? & ?) (? & ? & ? & ?). repeat split; congruence.
Qed.

Global Instance stateseq_step_preorder : PreOrder stateseq_step.
Proof.
  split.
  - intros []; simpl; done.
  - intros [p|m pi|c|m] [p'|m' pi'|c'|m'] [p''|m'' pi''|c''|m'']; simpl;
      try done; try congruence.
    intros (? & ? & ? & ?) (? & ? & ? & ?). repeat split; congruence.
Qed.

Lemma cache_step_chain_step o o' : cache_step o o' → chain_step o o'.
Proof. destruct o, o'; simpl; try done. by intros (? & ? & ? & ?). Qed.

Lemma cache_step_parameter_step o o' : cache_step o o' → parameter_step o o'.
Proof. destruct o, o'; simpl; done. Qed.

Lemma evolves_mono (step step' : relation obj) st st' :
  (∀ o o', step o o' → step' o o') → evolves step st st' → evolves step' st st'.
Proof.
  intros Hsub Hev l o Hl. destruct (Hev l o Hl) as (o' & Hl' & Ho).
  exists o'. split; [done | by apply Hsub].
Qed.

Lemma preserves_mono {A} (step step' : relation obj) (m : M A) :
  (∀ o o', step o o' → step' o o') →
  preserves (evolves step) m → preserves (evolves step') m.
Proof. intros Hsub Hm st. eapply evolves_mono; [exact Hsub | apply Hm]. Qed.

(** Filling and clearing caches *)

Lemma pi_0_caches d : preserves (evolves cache_step) (pi_0 d).
Proof.
  intros st. unfold pi_0.
  apply run_read; [tc_solve | apply reads_get_obj |]. intros o [_ Hd]%get_obj_inv.
  destruct o as [p|m [pi|]|c|m]; try reflexivity.
  apply run_read; [tc_solve | apply reads_get_model |]. intros mo _.
  apply run_read; [tc_solve | apply reads_attr |]. intros t _.
  apply run_read; [tc_solve | apply reads_get_distn |]. intros A _.
  apply run_read; [tc_solve | |].
  { destruct (dur_distns mo); [apply reads_map_M, reads_get_distn | apply reads_ret]. }
  intros durs _.
  apply run_bind; [tc_solve | |].
  - eapply evolves_put; [tc_solve | exact Hd | done].
  - intros [] st' _. reflexivity.
Qed.

Lemma States_messages_caches s : preserves (evolves cache_step) (States_messages s).
Proof.
  intros st. unfold States_messages.
  apply run_read; [tc_solve | apply reads_get_states |]. intros c [_ Hs]%get_states_inv.
  destruct (tables c); [reflexivity |].
  apply run_read; [tc_solve | apply reads_get_model |]. intros mo _.
  apply run_read; [tc_solve | apply reads_attr |]. intros os _.
  apply run_read; [tc_solve | apply reads_map_M, reads_get_distn |]. intros obs _.
  apply run_read; [tc_solve | apply reads_attr |]. intros t _.
  apply run_read; [tc_solve | apply reads_get_distn |]. intros A _.
  apply run_read; [tc_solve | |].
  { destruct (_ && _); apply reads_attr. }
  intros i _.
  apply run_bind; [tc_solve | apply pi_0_caches |]. intros pi st1 E1.
  pose proof (pi_0_caches i st) as Hev. rewrite E1 in Hev. simpl in Hev.
  destruct (Hev _ _ Hs) as (o' & Hs' & Ho').
  apply run_read; [tc_solve | |].
  { destruct (dur_distns mo); [apply reads_map_M, reads_get_distn | apply reads_ret]. }
  intros durs _.
  apply run_bind; [tc_solve | |].
  - eapply evolves_put; [tc_solve | exact Hs' |].
    destruct o'; simpl in *; try done.
    destruct Ho' as (? & ? & ? & ?). repeat split; congruence.
  - intros [] st2 _. reflexivity.
Qed.

Lemma States_log_likelihood_caches s :
  preserves (evolves cache_step) (States_log_likelihood s).
Proof.
  apply preserves_bind; [tc_solve | apply States_messages_caches | intros t].
  apply reads_preserves; [tc_solve | apply reads_lift].
Qed.

Lemma States_clear_caches_caches s :
  preserves (evolves cache_step) (States_clear_caches s).
Proof.
  intros st. unfold States_clear_caches.
  apply run_read; [tc_solve | apply reads_get_states |]. intros c [_ Hs]%get_states_inv.
  apply run_bind; [tc_solve | apply evolves_emit; tc_solve |]. intros [] st1 [= <-].
  eapply evolves_put; [tc_solve | exact Hs | by repeat split].
Qed.

Lemma distn_clear_caches_caches i :
  preserves (evolves cache_step) (distn_clear_caches i).
Proof.
  intros st. unfold distn_clear_caches.
  apply run_read; [tc_solve | apply reads_get_obj |]. intros o [_ Hi]%get_obj_inv.
  destruct o as [p|m pi|c|m]; try reflexivity.
  apply run_bind; [tc_solve | apply evolves_emit; tc_solve |]. intros [] st1 [= <-].
  eapply evolves_put; [tc_solve | exact Hi | done].
Qed.

Lemma _clear_caches_caches self : preserves (evolves cache_step) (_clear_caches self).
Proof.
  unfold _clear_caches.
  apply preserves_bind; [tc_solve | | intros m].
  { apply reads_preserves; [tc_solve | apply reads_get_model]. }
  apply preserves_bind; [tc_solve | | intros l].
  { apply reads_preserves; [tc_solve | apply reads_attr]. }
  apply preserves_bind; [tc_solve | | intros _].
  { apply preserves_for_each; [tc_solve | apply States_clear_caches_caches]. }
  apply preserves_bind; [tc_solve | | intros i].
  { apply reads_preserves; [tc_solve | apply reads_attr]. }
  apply distn_clear_caches_caches.
Qed.

Lemma reads_chains_of self : reads (chains_of self).
Proof.
  unfold chains_of.
  apply reads_bind; [apply reads_get_model | intros m].
  apply reads_bind; [apply reads_attr | intros l].
  apply reads_map_M, reads_get_states.
Qed.

(** Updating a posterior *)

Lemma update_distn_parameters d f :
  preserves (evolves parameter_step) (update_distn d f).
Proof.
  intros st. unfold update_distn.
  apply run_read; [tc_solve | apply reads_get_obj |]. intros o [_ Hd]%get_obj_inv.
  destruct o as [p|m pi|c|m]; try reflexivity.
  eapply evolves_put; [tc_solve | exact Hd | done].
Qed.

Lemma _clear_caches_parameters self :
  preserves (evolves parameter_step) (_clear_caches self).
Proof.
  eapply preserves_mono; [apply cache_step_parameter_step | apply _clear_caches_caches].
Qed.

Lemma States_E_step_parameters s :
  preserves (evolves parameter_step) (States_E_step s).
Proof.
  eapply preserves_mono; [apply cache_step_parameter_step |].
  apply preserves_bind; [tc_solve | apply States_messages_caches | intros t].
  apply reads_preserves; [tc_solve | apply reads_ret].
Qed.

(** A step of a method whose run relates the stores by [evolves
    parameter_step]. *)
Ltac parameters :=
  repeat first
    [ apply _clear_caches_parameters
    | apply States_E_step_parameters
    | apply update_distn_parameters
    | apply (evolves_emit parameter_step)
    | apply (evolves_draw parameter_step)
    | apply (reads_preserves (evolves parameter_step)); first
        [ apply reads_get_model | apply reads_attr | apply reads_chains_of
        | apply reads_py_assert | apply reads_ret | apply reads_raise
        | apply reads_map_M; intros [] ; first [apply reads_ret | apply reads_raise] ]
    | apply (preserves_for_each (evolves parameter_step)); intros ?
    | apply (preserves_bind (evolves parameter_step)); [| intros ?]
    ].

Lemma HMM_resample_parameters_parameters self temp :
  preserves (evolves parameter_step) (HMM_resample_parameters self temp).
Proof.
  unfold HMM_resample_parameters, resample_obs_distns, resample_trans_distn,
    resample_init_state_distn.
  parameters.
Qed.

Lemma resample_obs_distns_parameters self temp :
  preserves (evolves parameter_step) (resample_obs_distns self temp).
Proof. unfold resample_obs_distns. parameters. Qed.
Lemma resample_trans_distn_parameters self temp :
  preserves (evolves parameter_step) (resample_trans_distn self temp).
Proof. unfold resample_trans_distn. parameters. Qed.
Lemma resample_init_state_distn_parameters self temp :
  preserves (evolves parameter_step) (resample_init_state_distn self temp).
Proof. unfold resample_init_state_distn. parameters. Qed.
Lemma resample_dur_distns_parameters self temp :
  preserves (evolves parameter_step) (resample_dur_distns self temp).
Proof. unfold resample_dur_distns. parameters. Qed.

Lemma resample_parameters_parameters self temp :
  preserves (evolves parameter_step) (resample_parameters self temp).
Proof.
  unfold resample_parameters.
  apply (preserves_bind (evolves parameter_step)); [parameters | intros m].
  destruct (is_HSMM (klass m)); [| apply HMM_resample_parameters_parameters].
  unfold HSMM_resample_parameters.
  apply (preserves_bind (evolves parameter_step));
    [apply resample_dur_distns_parameters
    | intros _; apply HMM_resample_parameters_parameters].
Qed.

(** The parameter phase of a Gibbs sweep, whether it returns or raises,
    leaves every model object as it is and every chain with its model, its
    data and its state sequence: it changes the values of posteriors and
    clears caches, nothing else. *)
Theorem resample_parameters_keeps_states self temp :
  preserves (evolves parameter_step) (resample_parameters self temp).
Proof.
  unfold resample_parameters.
  apply (preserves_bind (evolves parameter_step)); [parameters | intros m].
  destruct (is_HSMM (klass m)); [| apply HMM_resample_parameters_parameters].
  unfold HSMM_resample_parameters.
  apply (preserves_bind (evolves parameter_step));
    [| intros _; apply HMM_resample_parameters_parameters].
  unfold resample_dur_distns. parameters.
Qed.

(** The state phase of a Gibbs sweep, whether it returns or raises, leaves
    every model object and the value of every posterior as they are, and
    every chain with its model and its data. *)
Theorem resample_states_keeps_parameters self temp :
  preserves (evolves chain_step) (resample_states self temp).
Proof.
  unfold resample_states.
  apply preserves_bind; [tc_solve | | intros m].
  { apply reads_preserves; [tc_solve | apply reads_get_model]. }
  apply preserves_bind; [tc_solve | | intros l].
  { apply reads_preserves; [tc_solve | apply reads_attr]. }
  apply preserves_for_each; [tc_solve | intros s]. apply States_resample_evolves.
Qed.

Lemma HMM_EM_step_parameters self :
  preserves (evolves parameter_step) (HMM_EM_step self).
Proof. unfold HMM_EM_step. parameters. Qed.


(** [log_likelihood], with or without an observation sequence, whether it
    returns or raises, leaves every model object and the value of every
    posterior as they are, and every chain with its model, its data and
    its state sequence: it fills caches, nothing else. *)
Theorem log_likelihood_only_caches self d kw :
  preserves (evolves cache_step) (log_likelihood self d kw).
Proof.
  intros st. destruct d as [d|]; unfold log_likelihood.
  2: { apply run_read; [tc_solve | apply reads_get_model |]. intros m _.
       apply run_read; [tc_solve | apply reads_attr |]. intros l _.
       apply run_bind; [tc_solve | |].
       - apply preserves_map_M; [tc_solve | apply States_log_likelihood_caches].
       - intros lls st' _. reflexivity. }
  assert (Hfail : ∀ e, add_data self d (Some (placeholder d)) None kw st = (Raise e, st) →
    evolves cache_step st
      ((add_data self d (Some (placeholder d)) None kw ;;;
        s <- states_list_pop self ;; States_log_likelihood s) st).2).
  { intros e E. rewrite (bind_raise _ _ _ _ _ E). reflexivity. }
  destruct (heap st !! self) as [o|] eqn:Hself.
  2: { eapply Hfail. unfold add_data, get_model, get_obj, bind. by rewrite Hself. }
  destruct o as [p|mm pi|c|m].
  1-3: eapply Hfail; unfold add_data, get_model, get_obj, bind; by rewrite Hself.
  destruct (states_list m) as [l|] eqn:Hl.
  2: { eapply Hfail. unfold add_data.
       rewrite (bind_ok _ _ _ _ _ (get_model_at _ _ _ Hself)), Hl. done. }
  destruct (states_init_check d kw) as [msg|] eqn:Hc.
  { eapply Hfail. unfold add_data.
    rewrite (bind_ok _ _ _ _ _ (get_model_at _ _ _ Hself)), Hl, attr_Some, bind_ret.
    unfold States_new. rewrite Hc. done. }
  pose proof (add_data_then_pop st self m l d (placeholder d) None kw Hself Hl Hc) as E.
  set (st1 := mkState _ _ _) in E.
  assert (E' : ∀ B (k : loc → M B),
    (add_data self d (Some (placeholder d)) None kw ;;; s <- states_list_pop self ;; k s) st
    = k (length (heap st)) st1).
  { intros B k. revert E. unfold bind.
    destruct (add_data self d _ None kw st) as [[[]|e] st']; [| done].
    by destruct (states_list_pop self st') as [[s|e] st'']; intros [= -> ->]. }
  rewrite E'. etrans; [| apply States_log_likelihood_caches].
  apply (evolves_alloc cache_step st (StatesObj (mkStates self d (placeholder d) None kw))).
Qed.

End MoreFrameFacts.

Section CopyFacts.
Context `{Collaborators}.

(** ** What [copy_sample] copies *)

Global Instance stable_preorder new : PreOrder (stable new).
Proof.
  split.
  - by intros st l o.
  - intros st1 st2 st3 H12 H23 l o Hl Hne. apply H23; [| done]. by apply H12.
Qed.

Lemma stable_alloc new o : preserves (stable new) (alloc o).
Proof.
  intros st l x Hl _. simpl. rewrite lookup_app_l; [done | by eapply lookup_lt_Some].
Qed.

Lemma stable_setattr new f : preserves (stable new) (setattr new f).
Proof.
  intros st. unfold setattr.
  apply run_read; [tc_solve | apply reads_get_model |]. intros m _.
  intros l o Hl Hne. simpl. by rewrite list_lookup_insert_ne.
Qed.

Global Instance same_size_preorder : PreOrder same_size.
Proof.
  split.
  - by intros st.
  - intros st1 st2 st3 H12 H23. unfold same_size in *. congruence.
Qed.

Lemma _clear_caches_same_size self : preserves same_size (_clear_caches self).
Proof.
  assert (Hput : ∀ l o, preserves same_size (put_obj l o)).
  { intros l o st. unfold same_size. simpl. apply length_insert. }
  assert (Hemit : ∀ e, preserves same_size (emit e)) by (by intros e st).
  unfold _clear_caches.
  apply preserves_bind; [tc_solve | | intros m].
  { apply reads_preserves; [tc_solve | apply reads_get_model]. }
  apply preserves_bind; [tc_solve | | intros l].
  { apply reads_preserves; [tc_solve | apply reads_attr]. }
  apply preserves_bind; [tc_solve | | intros _].
  { apply preserves_for_each; [tc_solve | intros s]. unfold States_clear_caches.
    apply preserves_bind; [tc_solve | | intros c].
    { apply reads_preserves; [tc_solve | apply reads_get_states]. }
    apply preserves_bind; [tc_solve | apply Hemit | intros _; apply Hput]. }
  apply preserves_bind; [tc_solve | | intros i].
  { apply reads_preserves; [tc_solve | apply reads_attr]. }
  unfold distn_clear_caches.
  apply preserves_bind; [tc_solve | | intros o].
  { apply reads_preserves; [tc_solve | apply reads_get_obj]. }
  destruct o; try (by intros st).
  apply preserves_bind; [tc_solve | apply Hemit | intros _; apply Hput].
Qed.

(** What [copy.copy] does to the instance it copies: its caches are
    cleared, nothing else of the store changes, and the copy is a new
    object with the attributes of the instance. *)
Lemma copy_copy_inv self st new st' :
  copy_copy self st = (Ok new, st') →
  ∃ st0 m,
    _clear_caches self st = (Ok (), st0)
    ∧ heap st !! self = Some (ModelObj m)
    ∧ heap st0 !! self = Some (ModelObj m)
    ∧ evolves cache_step st st0
    ∧ length (heap st0) = length (heap st)
    ∧ new = length (heap st)
    ∧ heap st' = heap st0 ++ [ModelObj m].
Proof.
  unfold copy_copy, __getstate__.
  intros (d & st1 & E & [= <- <-])%bind_inv.
  apply bind_inv in E as ([] & st0 & E0 & [-> Hd]%get_model_inv).
  pose proof (_clear_caches_caches self st) as Hev.
  pose proof (_clear_caches_same_size self st) as Hlen.
  rewrite E0 in Hev, Hlen. simpl in Hev, Hlen. unfold same_size in Hlen.
  assert (Hm : heap st !! self = Some (ModelObj d)).
  { unfold _clear_caches in E0.
    apply bind_inv in E0 as (m & ? & [-> Hm]%get_model_inv & _).
    destruct (Hev _ _ Hm) as (o' & Ho' & Hstep). rewrite Hd in Ho'.
    injection Ho' as <-. simpl in Hstep. by subst. }
  exists st0, d. simpl. by rewrite Hlen.
Qed.

Lemma distn_copy_sample_inv d st d' st' :
  distn_copy_sample d st = (Ok d', st') →
  ∃ o, heap st !! d = Some o ∧ ¬ is_model o
       ∧ d' = length (heap st) ∧ heap st' = heap st ++ [o].
Proof.
  unfold distn_copy_sample.
  intros (o & ? & [-> Hd]%get_obj_inv & E)%bind_inv.
  exists o. destruct o; try done; injection E as <- <-; by repeat split; try intros [].
Qed.

Lemma States_copy_sample_inv new s st s' st' :
  States_copy_sample s new st = (Ok s', st') →
  ∃ o, heap st !! s = Some o ∧ ¬ is_model o
       ∧ s' = length (heap st) ∧ heap st' = heap st ++ [chain_of new o].
Proof.
  unfold States_copy_sample.
  intros (c & ? & [-> Hs]%get_states_inv & E)%bind_inv.
  exists (StatesObj c). injection E as <- <-. by repeat split; try intros [].
Qed.

Section CopyList.
Context (new : loc) (f : loc → M loc) (g : obj → obj).
Hypothesis f_inv : ∀ d st d' st',
  f d st = (Ok d', st') →
  ∃ o, heap st !! d = Some o ∧ ¬ is_model o
       ∧ d' = length (heap st) ∧ heap st' = heap st ++ [g o].

Lemma copy_one_stable d st d' st' :
  f d st = (Ok d', st') → stable new st st'.
Proof.
  intros (o & _ & _ & _ & Hheap)%f_inv l x Hl _.
  rewrite Hheap, lookup_app_l; [done | by eapply lookup_lt_Some].
Qed.

Lemma copied_stable n st st' ds ds' :
  copied n st g ds ds' → stable new st st' →
  is_Some (model_at st new) → n = new →
  copied n st' g ds ds'.
Proof.
  intros Hc Hst [mn Hnew] ->. unfold model_at in Hnew.
  destruct (heap st !! new) as [[]|] eqn:En; try done.
  eapply Forall2_impl; [exact Hc |]. intros d d' (Hlt & o & Hd & Ho & Hd').
  split; [done |]. exists o. repeat split; [| done |].
  - apply Hst; [done |]. intros ->. rewrite En in Hd. injection Hd as <-. by apply Ho.
  - apply Hst; [done | lia].
Qed.

Lemma copy_list ds st ds' st' :
  map_M f ds st = (Ok ds', st') →
  new < length (heap st) →
  is_Some (model_at st new) →
  stable new st st'
  ∧ length (heap st) ≤ length (heap st')
  ∧ heap st' !! new = heap st !! new
  ∧ copied new st' g ds ds'.
Proof.
  revert st ds' st'. induction ds as [|d ds IH]; intros st ds' st' E Hlt Hnew.
  - injection E as <- <-. repeat split; [reflexivity | done | constructor].
  - simpl in E. apply bind_inv in E as (d' & st1 & E1 & E).
    apply bind_inv in E as (ds1 & st2 & E2 & [= <- <-]).
    pose proof (copy_one_stable _ _ _ _ E1) as Hs1.
    destruct (f_inv _ _ _ _ E1) as (o & Hd & Ho & -> & Hheap1).
    assert (Hnew1 : is_Some (model_at st1 new)).
    { destruct Hnew as [mn Hmn]. exists mn. unfold model_at in *.
      by rewrite Hheap1, lookup_app_l. }
    destruct (IH st1 ds1 st2 E2) as (Hs2 & Hlen2 & Hn2 & Hc2);
      [rewrite Hheap1, length_app; lia | done |].
    rewrite Hheap1, length_app in Hlen2. simpl in Hlen2.
    repeat split; [by etrans | lia | |].
    { rewrite Hn2, Hheap1. by rewrite lookup_app_l. }
    constructor; [| done]. split; [lia |].
    assert (Hne : d ≠ new).
    { intros ->. destruct Hnew as [mn Hmn]. unfold model_at in Hmn.
      rewrite Hd in Hmn. by destruct o. }
    exists o. repeat split; [| done |].
    + apply Hs2; [| done]. by apply Hs1.
    + apply Hs2; [| lia]. rewrite Hheap1. by apply list_lookup_middle.
Qed.

Lemma copy_one d st d' st' :
  f d st = (Ok d', st') →
  new < length (heap st) →
  is_Some (model_at st new) →
  stable new st st'
  ∧ length (heap st) ≤ length (heap st')
  ∧ heap st' !! new = heap st !! new
  ∧ copied new st' g [d] [d'].
Proof.
  intros E Hlt Hnew. apply copy_list; [| done | done].
  simpl. by rewrite (bind_ok _ _ _ _ _ E).
Qed.

(** Copying the objects of one attribute and assigning the copies to the
    new model. *)
Lemma copy_attribute (setter : Model → Model) ds st mk ds' st2 st3 :
  map_M f ds st = (Ok ds', st2) →
  setattr new setter st2 = (Ok (), st3) →
  new < length (heap st) →
  heap st !! new = Some (ModelObj mk) →
  stable new st st3
  ∧ new < length (heap st3)
  ∧ heap st3 !! new = Some (ModelObj (setter mk))
  ∧ copied new st3 g ds ds'.
Proof.
  intros E1 E2 Hlt Hnew.
  assert (Hsome : is_Some (model_at st new)).
  { exists mk. unfold model_at. by rewrite Hnew. }
  destruct (copy_list _ _ _ _ E1 Hlt Hsome) as (Hs & Hlen & Hn & Hc).
  rewrite Hnew in Hn.
  destruct (setattr_ok st2 new mk setter Hn) as (st3' & E2' & Hn3).
  rewrite E2 in E2'. injection E2' as <-.
  pose proof (stable_setattr new setter st2) as Hs2. rewrite E2 in Hs2. simpl in Hs2.
  repeat split; [by etrans | by eapply lookup_lt_Some | done |].
  eapply copied_stable; [exact Hc | exact Hs2 | | done].
  exists mk. unfold model_at. by rewrite Hn.
Qed.

End CopyList.

Lemma copied_carry new g n st st' ds ds' m :
  copied n st g ds ds' → stable new st st' →
  heap st !! new = Some (ModelObj m) → n = new →
  copied n st' g ds ds'.
Proof.
  intros Hc Hs Hm ->. eapply copied_stable; [exact Hc | exact Hs | | done].
  exists m. unfold model_at. by rewrite Hm.
Qed.

Lemma map_M_singleton {A B} (f : A → M B) d st d' st' :
  f d st = (Ok d', st') → map_M f [d] st = (Ok [d'], st').
Proof. intros E. simpl. by rewrite (bind_ok _ _ _ _ _ E). Qed.

(** The copy made by [HMM.copy_sample]. *)
Lemma HMM_copy_sample_copies st self new st' :
  HMM_copy_sample self st = (Ok new, st') →
  ∃ st0 m os os' t t' i i' l l',
    _clear_caches self st = (Ok (), st0)
    ∧ heap st !! self = Some (ModelObj m)
    ∧ heap st0 !! self = Some (ModelObj m)
    ∧ evolves cache_step st st0
    ∧ new = length (heap st)
    ∧ obs_distns m = Some os ∧ trans_distn m = Some t
    ∧ init_state_distn m = Some i ∧ states_list m = Some l
    ∧ heap st' !! new
      = Some (ModelObj (set_states_list l' (set_init_state_distn i'
                          (set_trans_distn t' (set_obs_distns os' m)))))
    ∧ stable new st0 st'
    ∧ copied new st' same os os'
    ∧ copied new st' same [t] [t']
    ∧ copied new st' same [i] [i']
    ∧ copied new st' (chain_of new) l l'.
Proof.
  unfold HMM_copy_sample.
  intros (new0 & st1 & Ecopy & E)%bind_inv.
  apply copy_copy_inv in Ecopy as (st0 & m & E0 & Hm & Hm0 & Hev & Hlen & -> & Hheap1).
  set (new0 := length (heap st)) in *.
  assert (Hs01 : stable new0 st0 st1).
  { intros l o Hl _. rewrite Hheap1, lookup_app_l; [done | by eapply lookup_lt_Some]. }
  assert (Hn1 : heap st1 !! new0 = Some (ModelObj m)).
  { rewrite Hheap1. apply list_lookup_middle. by rewrite Hlen. }
  assert (Hlt1 : new0 < length (heap st1)) by (by eapply lookup_lt_Some).
  assert (Hne : self ≠ new0).
  { apply lookup_lt_Some in Hm. subst new0. lia. }
  apply bind_inv in E as (m1 & ? & [-> Hm1]%get_model_inv & E).
  rewrite (Hs01 _ _ Hm0 Hne) in Hm1. injection Hm1 as <-.
  apply bind_inv in E as (os & ? & Eos & E).
  pose proof (reads_inv _ _ _ _ (reads_attr _ _) Eos) as ->.
  destruct (obs_distns m) as [os0|] eqn:Hos; [injection Eos as <- | done].
  apply bind_inv in E as (os' & st2 & E2 & E).
  apply bind_inv in E as ([] & st3 & E3 & E).
  destruct (copy_attribute new0 distn_copy_sample same distn_copy_sample_inv
              _ _ _ _ _ _ _ E2 E3 Hlt1 Hn1) as (Hs13 & Hlt3 & Hn3 & Hc3).
  apply bind_inv in E as (t & ? & Et & E).
  pose proof (reads_inv _ _ _ _ (reads_attr _ _) Et) as ->.
  destruct (trans_distn m) as [t0|] eqn:Ht; [injection Et as <- | done].
  apply bind_inv in E as (t' & st4 & E4 & E).
  apply bind_inv in E as ([] & st5 & E5 & E).
  destruct (copy_attribute new0 distn_copy_sample same distn_copy_sample_inv
              _ [t0] _ _ _ _ _ (map_M_singleton _ _ _ _ _ E4) E5 Hlt3 Hn3)
    as (Hs35 & Hlt5 & Hn5 & Hc5).
  apply bind_inv in E as (i & ? & Ei & E).
  pose proof (reads_inv _ _ _ _ (reads_attr _ _) Ei) as ->.
  destruct (init_state_distn m) as [i0|] eqn:Hi; [injection Ei as <- | done].
  apply bind_inv in E as (i' & st6 & E6 & E).
  apply bind_inv in E as ([] & st7 & E7 & E).
  destruct (copy_attribute new0 distn_copy_sample same distn_copy_sample_inv
              _ [i0] _ _ _ _ _ (map_M_singleton _ _ _ _ _ E6) E7 Hlt5 Hn5)
    as (Hs57 & Hlt7 & Hn7 & Hc7).
  apply bind_inv in E as (l & ? & El & E).
  pose proof (reads_inv _ _ _ _ (reads_attr _ _) El) as ->.
  destruct (states_list m) as [l0|] eqn:Hl; [injection El as <- | done].
  apply bind_inv in E as (l' & st8 & E8 & E).
  apply bind_inv in E as ([] & st9 & E9 & [= <- <-]).
  destruct (copy_attribute new0 (fun s => States_copy_sample s new0) (chain_of new0)
              (States_copy_sample_inv new0) _ _ _ _ _ _ _ E8 E9 Hlt7 Hn7)
    as (Hs79 & Hlt9 & Hn9 & Hc9).
  exists st0, m, os0, os', t0, t', i0, i', l0, l'.
  repeat split; try done.
  - etrans; [exact Hs01 |]. etrans; [exact Hs13 |]. etrans; [exact Hs35 |]. by etrans.
  - eapply copied_carry; [| exact Hs79 | exact Hn7 | done].
    eapply copied_carry; [| exact Hs57 | exact Hn5 | done].
    eapply copied_carry; [exact Hc3 | exact Hs35 | exact Hn3 | done].
  - eapply copied_carry; [| exact Hs79 | exact Hn7 | done].
    eapply copied_carry; [exact Hc5 | exact Hs57 | exact Hn5 | done].
  - eapply copied_carry; [exact Hc7 | exact Hs79 | exact Hn7 | done].
Qed.

(** The copy made by [copy_sample]; [st0] is the store after the caches of
    the original are cleared. *)
Lemma copy_sample_inv st self new st' :
  copy_sample self st = (Ok new, st') →
  ∃ st0 m m',
    heap st !! self = Some (ModelObj m)
    ∧ _clear_caches self st = (Ok (), st0)
    ∧ new = length (heap st)
    ∧ heap st' !! new = Some (ModelObj m')
    ∧ stable new st0 st'
    ∧ klass m' = klass m
    ∧ copied new st' same (default [] (obs_distns m)) (default [] (obs_distns m'))
    ∧ copied new st' same (option_list (trans_distn m)) (option_list (trans_distn m'))
    ∧ copied new st' same (option_list (init_state_distn m))
                          (option_list (init_state_distn m'))
    ∧ copied new st' (chain_of new) (default [] (states_list m))
                                    (default [] (states_list m'))
    ∧ (is_HSMM (klass m) = true →
       copied new st' same (default [] (dur_distns m)) (default [] (dur_distns m')))
    ∧ left_censoring_init_state_distn m' = left_censoring_init_state_distn m.
Proof.
  unfold copy_sample.
  intros (m & ? & [-> Hm]%get_model_inv & E)%bind_inv.
  destruct (is_HSMM (klass m)) eqn:Hk.
  - unfold HSMM_copy_sample in E.
    apply bind_inv in E as (new0 & st1 & E1 & E).
    apply HMM_copy_sample_copies in E1
      as (st0 & m0 & os & os' & t & t' & i & i' & l & l' & E0 & Hm' & Hm0 & Hev & ->
          & Hos & Ht & Hi & Hl & Hn1 & Hs1 & Hc1 & Hc2 & Hc3 & Hc4).
    rewrite Hm in Hm'. injection Hm' as <-.
    assert (Hne : self ≠ length (heap st)).
    { apply lookup_lt_Some in Hm. lia. }
    apply bind_inv in E as (m1 & ? & [-> Hm1]%get_model_inv & E).
    rewrite (Hs1 _ _ Hm0 Hne) in Hm1. injection Hm1 as <-.
    apply bind_inv in E as (ds & ? & Eds & E).
    pose proof (reads_inv _ _ _ _ (reads_attr _ _) Eds) as ->.
    destruct (dur_distns m) as [ds0|] eqn:Hds; [injection Eds as <- | done].
    apply bind_inv in E as (ds' & st2 & E2 & E).
    apply bind_inv in E as ([] & st3 & E3 & [= <- <-]).
    destruct (copy_attribute (length (heap st)) distn_copy_sample same
                distn_copy_sample_inv _ _ _ _ _ _ _ E2 E3
                ltac:(by eapply lookup_lt_Some) Hn1) as (Hs3 & Hlt3 & Hn3 & Hc5).
    exists st0, m, (set_dur_distns ds' (set_states_list l' (set_init_state_distn i'
                 (set_trans_distn t' (set_obs_distns os' m))))).
    rewrite Hos, Ht, Hi, Hl, Hds. simpl.
    repeat split; try done.
    + by etrans.
    + by eapply copied_carry.
    + by eapply copied_carry.
    + by eapply copied_carry.
    + by eapply copied_carry.
  - apply HMM_copy_sample_copies in E
      as (st0 & m0 & os & os' & t & t' & i & i' & l & l' & E0 & Hm' & Hm0 & Hev & ->
          & Hos & Ht & Hi & Hl & Hn1 & Hs1 & Hc1 & Hc2 & Hc3 & Hc4).
    rewrite Hm in Hm'. injection Hm' as <-.
    exists st0, m, (set_states_list l' (set_init_state_distn i'
                 (set_trans_distn t' (set_obs_distns os' m)))).
    rewrite Hos, Ht, Hi, Hl. simpl.
    repeat split; try done. intros Hk'. by rewrite Hk in Hk'.
Qed.

Lemma _clear_caches_init_exists self st st' :
  _clear_caches self st = (Ok (), st') →
  ∃ m i o, heap st' !! self = Some (ModelObj m)
           ∧ init_state_distn m = Some i ∧ heap st' !! i = Some o.
Proof.
  intros E.
  pose proof (_clear_caches_caches self st) as Hev. rewrite E in Hev. simpl in Hev.
  unfold _clear_caches in E.
  apply bind_inv in E as (m & ? & [-> Hm]%get_model_inv & E).
  apply bind_inv in E as (l & st0 & El & E).
  apply bind_inv in E as ([] & st1 & E1 & E).
  apply bind_inv in E as (i & st2 & Ei & E).
  pose proof (reads_inv _ _ _ _ (reads_attr _ _) Ei) as ->.
  destruct (init_state_distn m) as [i'|] eqn:Hi; [| done]. injection Ei as <-.
  destruct (Hev _ _ Hm) as (o' & Ho' & Hstep).
  destruct o'; simpl in Hstep; try done. subst.
  pose proof (distn_clear_caches_caches i' st1) as Hev1. rewrite E in Hev1. simpl in Hev1.
  unfold distn_clear_caches in E.
  apply bind_inv in E as (o & ? & [-> Hio]%get_obj_inv & _).
  destruct (Hev1 _ _ Hio) as (o1 & Ho1 & _).
  by exists m, i', o1.
Qed.

(** The copy made by [copy_sample]: a new model object whose observation,
    transition and initial-state posteriors, chains and (for an HSMM)
    duration posteriors are new objects with the contents of the
    original's, the chains referring to the new model.  Taking the copy
    clears the caches of the original: afterwards no chain of the original
    holds tables and its initial-state posterior holds no derived value;
    nothing else of the store before the copy has changed.  The attribute
    [left_censoring_init_state_distn] is the original's. *)
Theorem copy_sample_copies st self new st' :
  copy_sample self st = (Ok new, st') →
  ∃ m m',
    heap st !! self = Some (ModelObj m)
    ∧ new = length (heap st)
    ∧ heap st' !! new = Some (ModelObj m')
    ∧ evolves cache_step st st'
    ∧ caches_cleared st' self
    ∧ klass m' = klass m
    ∧ copied new st' same (default [] (obs_distns m)) (default [] (obs_distns m'))
    ∧ copied new st' same (option_list (trans_distn m)) (option_list (trans_distn m'))
    ∧ copied new st' same (option_list (init_state_distn m))
                          (option_list (init_state_distn m'))
    ∧ copied new st' (chain_of new) (default [] (states_list m))
                                    (default [] (states_list m'))
    ∧ (is_HSMM (klass m) = true →
       copied new st' same (default [] (dur_distns m)) (default [] (dur_distns m')))
    ∧ left_censoring_init_state_distn m' = left_censoring_init_state_distn m.
Proof.
  intros (st0 & m & m' & Hm & E0 & -> & Hn & Hs & Hrest)%copy_sample_inv.
  pose proof (_clear_caches_caches self st) as Hev. rewrite E0 in Hev. simpl in Hev.
  pose proof (_clear_caches_same_size self st) as Hlen.
  rewrite E0 in Hlen. simpl in Hlen. unfold same_size in Hlen.
  assert (Hold : ∀ l o, heap st0 !! l = Some o → heap st' !! l = Some o).
  { intros l o Hl. apply Hs; [done |]. apply lookup_lt_Some in Hl. lia. }
  exists m, m'. split; [done |]. split; [done |]. split; [done |]. split; [| split].
  - intros l o Hl. destruct (Hev _ _ Hl) as (o' & Ho' & Hstep).
    exists o'. split; [by apply Hold | done].
  - destruct (_clear_caches_cleared _ _ _ E0) as (m0 & l & i & Hm0 & Hl & Hcl & Hi & Hnd).
    destruct (_clear_caches_init_exists _ _ _ E0) as (m1 & i1 & o & Hm1 & Hi1 & Ho).
    rewrite Hm0 in Hm1. injection Hm1 as <-. rewrite Hi in Hi1. injection Hi1 as <-.
    exists m0, l, i. split; [by apply Hold |]. split; [done |]. split; [| split; [done |]].
    + eapply Forall_impl; [exact Hcl |]. intros s (c & Hc & Ht).
      exists c. split; [by apply Hold | done].
    + intros mm pi Hx. rewrite (Hold _ _ Ho) in Hx. apply (Hnd mm pi). by rewrite Ho, Hx.
  - exact Hrest.
Qed.

(** Whatever then happens to the objects that were in the store before the
    copy was made, the copy and the objects of its copied attributes stay
    as [copy_sample] left them. *)
Theorem copy_sample_independent st self new st' st'' :
  copy_sample self st = (Ok new, st') →
  (∀ l, length (heap st) ≤ l → heap st'' !! l = heap st' !! l) →
  ∃ m',
    heap st' !! new = Some (ModelObj m')
    ∧ heap st'' !! new = Some (ModelObj m')
    ∧ Forall (fun d => heap st'' !! d = heap st' !! d) (copied_attributes m').
Proof.
  intros (st0 & m & m' & Hm & _ & -> & Hn & Hs & Hk & Hobs & Ht & Hi & Hl & Hd & _)%copy_sample_inv
         Hlater.
  exists m'. split; [done |]. split; [by rewrite Hlater |].
  assert (Hfresh : ∀ g ds ds', copied (length (heap st)) st' g ds ds' →
                   Forall (fun d => heap st'' !! d = heap st' !! d) ds').
  { intros g ds ds' Hc. induction Hc as [|d d' ds ds' (Hlt & _) _ IH]; constructor; [| done].
    apply Hlater. lia. }
  unfold copied_attributes. rewrite !Forall_app. repeat split; eauto.
  rewrite Hk. destruct (is_HSMM (klass m)); [eauto | constructor].
Qed.

End CopyFacts.

Section SweepCalls.
Context `{Collaborators}.

(** ** The resampling calls of a Gibbs sweep *)

Lemma resampling_calls_app evs evs' :
  resampling_calls (evs ++ evs') = resampling_calls evs ++ resampling_calls evs'.
Proof. apply List.filter_app. Qed.

Lemma resampling_calls_caches evs :
  Forall cache_event evs → resampling_calls evs = [].
Proof.
  induction 1 as [|e evs He _ IH]; [done |]. by destruct e.
Qed.

Lemma makes_calls_bind {A B} (m : M A) (k : A → M B) st e1 e2 :
  makes_calls m st e1 →
  (∀ a st1, m st = (Ok a, st1) → makes_calls (k a) st1 e2) →
  makes_calls (bind m k) st (e1 ++ e2).
Proof.
  intros (evs1 & E1 & P1 & O1) Hk. unfold makes_calls, bind.
  destruct (m st) as [[a|e] st1] eqn:Em; simpl in *.
  - destruct (Hk a st1 eq_refl) as (evs2 & E2 & P2 & O2).
    exists (evs1 ++ evs2). rewrite E2, E1, app_assoc. split; [done |].
    rewrite resampling_calls_app, (O1 eq_refl). split.
    + by apply prefix_app.
    + intros Hok. by rewrite (O2 Hok).
  - exists evs1. split; [done |]. split; [by apply prefix_app_r | done].
Qed.

Lemma makes_calls_silent {A} (m : M A) st :
  preserves (extends cache_event) m → makes_calls m st [].
Proof.
  intros Hm. destruct (Hm st) as (evs & E & Hall). exists evs.
  rewrite (resampling_calls_caches _ Hall). done.
Qed.

Lemma makes_calls_reads {A} (m : M A) st : reads m → makes_calls m st [].
Proof.
  intros Hm. apply makes_calls_silent.
  apply reads_preserves; [tc_solve | done].
Qed.

Lemma makes_calls_emit e st :
  is_resampling e = true → makes_calls (emit e) st [e].
Proof.
  intros He. exists [e]. unfold resampling_calls. simpl. rewrite He. done.
Qed.

Lemma makes_calls_raise {A} e st expected : makes_calls (@raise _ A e) st expected.
Proof.
  exists []. simpl. rewrite app_nil_r. split; [done |].
  split; [apply prefix_nil | done].
Qed.

Lemma makes_calls_for_each {A} (body : A → M unit) (g : A → event) l st :
  (∀ x st, makes_calls (body x) st [g x]) →
  makes_calls (for_each l body) st (map g l).
Proof.
  intros Hb. revert st. induction l as [|x l IH]; intros st; simpl.
  - apply makes_calls_reads, reads_ret.
  - apply (makes_calls_bind _ _ _ [g x] (map g l)); [apply Hb | intros _ st1 _; apply IH].
Qed.

(** Updating a posterior makes no event. *)
Lemma update_distn_trace d f : preserves (extends cache_event) (update_distn d f).
Proof.
  unfold update_distn.
  apply preserves_bind; [tc_solve | apply extends_get_obj | intros o].
  destruct o; first [apply extends_put_obj | apply extends_ret | apply extends_raise].
Qed.

(** One resampling of a posterior: the sufficient statistics are read off
    the chains, then the posterior is resampled. *)
Lemma resample_one_calls self e (upd : list States → nat → M unit) st :
  is_resampling e = true →
  (∀ cs n, preserves (extends cache_event) (upd cs n)) →
  makes_calls (cs <- chains_of self ;; n <- draw ;; emit e ;;; upd cs n) st [e].
Proof.
  intros He Hupd.
  apply (makes_calls_bind _ _ _ [] [e]); [apply makes_calls_reads, reads_chains_of |].
  intros cs st1 _.
  apply (makes_calls_bind _ _ _ [] [e]); [apply makes_calls_silent, extends_draw |].
  intros n st2 _.
  apply (makes_calls_bind _ _ _ [e] []); [by apply makes_calls_emit |].
  intros _ st3 _. apply makes_calls_silent, Hupd.
Qed.

Lemma then_clear_caches_calls (m : M unit) self st expected :
  makes_calls m st expected →
  makes_calls (m ;;; _clear_caches self) st expected.
Proof.
  intros Hm. rewrite <- (app_nil_r expected).
  apply makes_calls_bind; [done |]. intros _ st1 _.
  apply makes_calls_silent, _clear_caches_trace.
Qed.

Lemma resample_obs_distns_calls self m temp st :
  heap st !! self = Some (ModelObj m) →
  makes_calls (resample_obs_distns self temp) st (obs_calls m).
Proof.
  intros Hm. unfold makes_calls, resample_obs_distns, obs_calls.
  rewrite (bind_ok _ _ _ _ _ (get_model_at _ _ _ Hm)).
  destruct (obs_distns m) as [os|]; [| apply makes_calls_raise].
  rewrite attr_Some, bind_ret. simpl default.
  apply then_clear_caches_calls.
  apply (makes_calls_for_each _ (fun sd => EvObsResample sd.1 sd.2)).
  intros sd st1.
  apply (resample_one_calls self _ (fun cs n => update_distn sd.2 _)); [done |].
  intros cs n. apply update_distn_trace.
Qed.

Lemma resample_dur_distns_calls self m temp st :
  heap st !! self = Some (ModelObj m) →
  makes_calls (resample_dur_distns self temp) st (dur_calls m).
Proof.
  intros Hm. unfold makes_calls, resample_dur_distns, dur_calls.
  rewrite (bind_ok _ _ _ _ _ (get_model_at _ _ _ Hm)).
  destruct (dur_distns m) as [ds|]; [| apply makes_calls_raise].
  rewrite attr_Some, bind_ret. simpl default.
  apply then_clear_caches_calls.
  apply (makes_calls_for_each _ (fun sd => EvDurResample sd.1 sd.2)).
  intros sd st1.
  apply (resample_one_calls self _ (fun cs n => update_distn sd.2 _)); [done |].
  intros cs n. apply update_distn_trace.
Qed.

Lemma resample_trans_distn_calls self m temp st :
  heap st !! self = Some (ModelObj m) →
  makes_calls (resample_trans_distn self temp) st (trans_calls m).
Proof.
  intros Hm. unfold makes_calls, resample_trans_distn, trans_calls.
  rewrite (bind_ok _ _ _ _ _ (get_model_at _ _ _ Hm)).
  destruct (trans_distn m) as [t|]; [| apply makes_calls_raise].
  rewrite attr_Some, bind_ret. simpl.
  assert (Hgoal : makes_calls
            ((cs <- chains_of self ;; n <- draw ;; emit (EvTransResample t) ;;;
              update_distn t (fun p => distn_resample n p [ASeqs (map stateseq cs)])) ;;;
             _clear_caches self) st [EvTransResample t]).
  { apply then_clear_caches_calls.
    apply (resample_one_calls self _ (fun cs n => update_distn t _)); [done |].
    intros cs n. apply update_distn_trace. }
  destruct Hgoal as (evs & E & P & O). exists evs.
  unfold bind in *. destruct (chains_of self st) as [[cs|e] st1]; [| done].
  destruct (draw st1) as [[n|e] st2]; [| done].
  destruct (emit (EvTransResample t) st2) as [[[]|e] st3]; [| done].
  by destruct (update_distn t _ st3) as [[[]|e] st4].
Qed.

Lemma resample_init_state_distn_calls self m temp st :
  heap st !! self = Some (ModelObj m) →
  makes_calls (resample_init_state_distn self temp) st (init_calls m).
Proof.
  intros Hm. unfold makes_calls, resample_init_state_distn, init_calls.
  rewrite (bind_ok _ _ _ _ _ (get_model_at _ _ _ Hm)).
  destruct (init_state_distn m) as [i|]; [| apply makes_calls_raise].
  rewrite attr_Some, bind_ret. simpl.
  assert (Hgoal : makes_calls
            ((cs <- chains_of self ;; n <- draw ;; emit (EvInitResample i) ;;;
              update_distn i (fun p =>
                distn_resample n p [ASeqs (map (fun s => take 1 (stateseq s)) cs)])) ;;;
             _clear_caches self) st [EvInitResample i]).
  { apply then_clear_caches_calls.
    apply (resample_one_calls self _ (fun cs n => update_distn i _)); [done |].
    intros cs n. apply update_distn_trace. }
  destruct Hgoal as (evs & E & P & O). exists evs.
  unfold bind in *. destruct (chains_of self st) as [[cs|e] st1]; [| done].
  destruct (draw st1) as [[n|e] st2]; [| done].
  destruct (emit (EvInitResample i) st2) as [[[]|e] st3]; [| done].
  by destruct (update_distn i _ st3) as [[[]|e] st4].
Qed.

Lemma States_resample_calls s temp st :
  makes_calls (States_resample s temp) st [EvStatesResample s].
Proof.
  unfold States_resample.
  apply (makes_calls_bind _ _ _ [] [_]).
  { apply makes_calls_silent, States_messages_trace. }
  intros t st1 _.
  apply (makes_calls_bind _ _ _ [] [_]); [apply makes_calls_silent, extends_draw |].
  intros n st2 _.
  apply (makes_calls_bind _ _ _ [_] []); [by apply makes_calls_emit |].
  intros _ st3 _.
  apply (makes_calls_bind _ _ _ [] []); [apply makes_calls_reads, reads_lift |].
  intros q st4 _. apply makes_calls_silent, States_set_stateseq_trace.
Qed.

Lemma resample_states_calls self m temp st :
  heap st !! self = Some (ModelObj m) →
  makes_calls (resample_states self temp) st (states_calls m).
Proof.
  intros Hm. unfold makes_calls, resample_states, states_calls.
  rewrite (bind_ok _ _ _ _ _ (get_model_at _ _ _ Hm)).
  destruct (states_list m) as [l|]; [| apply makes_calls_raise].
  rewrite attr_Some, bind_ret. simpl default.
  apply (makes_calls_for_each _ EvStatesResample).
  intros s st1. apply States_resample_calls.
Qed.

(** The model object stays as it is while posteriors are resampled. *)
Lemma model_kept {A} (mm : M A) self m st :
  preserves (evolves parameter_step) mm →
  heap st !! self = Some (ModelObj m) →
  heap (mm st).2 !! self = Some (ModelObj m).
Proof.
  intros Hmm Hm. destruct (Hmm st _ _ Hm) as (o' & Ho' & Hstep).
  destruct o'; simpl in Hstep; try done. by subst.
Qed.

Lemma model_kept_at {A} (mm : M A) self m st a st1 :
  preserves (evolves parameter_step) mm →
  heap st !! self = Some (ModelObj m) →
  mm st = (Ok a, st1) →
  heap st1 !! self = Some (ModelObj m).
Proof. intros Hmm Hm E. pose proof (model_kept mm self m st Hmm Hm) as K. by rewrite E in K. Qed.

Lemma HMM_resample_parameters_calls self m temp st :
  heap st !! self = Some (ModelObj m) →
  makes_calls (HMM_resample_parameters self temp) st
              (obs_calls m ++ trans_calls m ++ init_calls m).
Proof.
  intros Hm. unfold HMM_resample_parameters.
  apply makes_calls_bind; [by apply resample_obs_distns_calls |]. intros [] st1 E1.
  pose proof (model_kept_at _ _ _ _ _ _ (resample_obs_distns_parameters self temp) Hm E1)
    as Hm1.
  apply makes_calls_bind; [by apply resample_trans_distn_calls |]. intros [] st2 E2.
  pose proof (model_kept_at _ _ _ _ _ _ (resample_trans_distn_parameters self temp) Hm1 E2)
    as Hm2.
  by apply resample_init_state_distn_calls.
Qed.

Lemma resample_parameters_calls self m temp st :
  heap st !! self = Some (ModelObj m) →
  makes_calls (resample_parameters self temp) st (parameter_calls m).
Proof.
  intros Hm. unfold makes_calls, resample_parameters, parameter_calls.
  rewrite (bind_ok _ _ _ _ _ (get_model_at _ _ _ Hm)).
  destruct (is_HSMM (klass m)); [| by apply HMM_resample_parameters_calls].
  unfold HSMM_resample_parameters.
  apply makes_calls_bind; [by apply resample_dur_distns_calls |]. intros [] st1 E1.
  pose proof (model_kept_at _ _ _ _ _ _ (resample_dur_distns_parameters self temp) Hm E1)
    as Hm1.
  by apply HMM_resample_parameters_calls.
Qed.


End SweepCalls.

Module PredictiveFacts.
Import Predictive.
Local Open Scope R_scope.

(** ** Forecast scores *)

(** The logarithm of a weight, [inf] or [nan], and [-inf] or [nan]. *)
Local Abbreviation lg w := (flog (Fin w)).
Local Abbreviation hot x := (x = PInf ∨ x = NaN).
Local Abbreviation cold x := (x = NInf ∨ x = NaN).
Local Abbreviation rsum l := (foldr Rplus 0 l).
Local Abbreviation rdot u v := (foldr Rplus 0 (zip_with Rmult u v)).

(** *** Arithmetic on the floats *)

Lemma flog_pos w : 0 < w → lg w = Fin (ln w).
Proof. intros Hw. unfold flog. by destruct (Rlt_dec 0 w). Qed.

Lemma flog_0 : lg 0 = NInf.
Proof.
  unfold flog. destruct (Rlt_dec 0 0) as [H|_]; [lra |].
  by destruct (Req_dec_T 0 0).
Qed.

Lemma weight_cases w : 0 <= w → w = 0 ∨ 0 < w.
Proof. intros Hw. destruct (Req_dec_T w 0); [by left | right; lra]. Qed.

Lemma flog_exp x : lg (exp x) = Fin x.
Proof. rewrite flog_pos by apply exp_pos. by rewrite ln_exp. Qed.

Lemma flog_weight w : 0 <= w → lg w = NInf ∨ ∃ r, lg w = Fin r.
Proof.
  intros [-> | Hw]%weight_cases; [left; apply flog_0 | right].
  exists (ln w). by apply flog_pos.
Qed.

Lemma fexp_flog w : 0 <= w → fexp (lg w) = Fin w.
Proof.
  intros [-> | Hw]%weight_cases; [by rewrite flog_0 |].
  rewrite flog_pos by done. simpl. by rewrite exp_ln.
Qed.

Lemma flog_mul u v : 0 <= u → 0 <= v → fadd (lg u) (lg v) = lg (u * v).
Proof.
  intros [-> | Hu]%weight_cases Hv.
  { rewrite Rmult_0_l, flog_0. by destruct (flog_weight v Hv) as [-> | [r ->]]. }
  apply weight_cases in Hv as [-> | Hv].
  { rewrite Rmult_0_r, flog_0. by rewrite flog_pos. }
  rewrite !flog_pos; [| by apply Rmult_lt_0_compat | done | done].
  simpl. by rewrite ln_mult.
Qed.

Lemma logaddexp_flog u v : 0 <= u → 0 <= v → logaddexp (lg u) (lg v) = lg (u + v).
Proof. intros Hu Hv. unfold logaddexp. by rewrite !fexp_flog. Qed.

Lemma flog_scale S c : 0 <= S → fadd (lg (exp (- c) * S)) (Fin c) = lg S.
Proof.
  intros [-> | HS]%weight_cases.
  { by rewrite Rmult_0_r, flog_0. }
  pose proof (exp_pos (- c)).
  rewrite !flog_pos; [| done | by apply Rmult_lt_0_compat].
  simpl. f_equal. rewrite ln_mult, ln_exp by done. lra.
Qed.

Lemma fexp_fsub_flog w c : 0 <= w → fexp (fsub (lg w) (Fin c)) = Fin (w * exp (- c)).
Proof.
  intros [-> | Hw]%weight_cases.
  { rewrite flog_0, Rmult_0_l. done. }
  rewrite flog_pos by done. simpl. f_equal.
  by rewrite exp_plus, exp_ln.
Qed.

Lemma fadd_nan_r x : fadd x NaN = NaN.
Proof. by destruct x. Qed.

Lemma fsub_self x : (∀ r, x ≠ Fin r) → fsub x x = NaN.
Proof. intros Hx. destruct x; try done. by destruct (Hx x). Qed.

Lemma fmax_choice x y : fmax x y = x ∨ fmax x y = y.
Proof.
  destruct x as [a| | |], y as [b| | |]; simpl; auto.
  unfold Rmax. destruct (Rle_dec a b); auto.
Qed.

Lemma fadd_hot_l x y : hot x → hot (fadd x y).
Proof. intros [-> | ->]; destruct y; simpl; auto. Qed.

Lemma logaddexp_hot_l x y : hot x → hot (logaddexp x y).
Proof.
  intros Hx. unfold logaddexp.
  assert (H1 : hot (fexp x)) by (destruct Hx as [-> | ->]; simpl; auto).
  destruct (fadd_hot_l _ (fexp y) H1) as [-> | ->]; simpl; auto.
Qed.

Lemma logaddexp_comm x y : logaddexp x y = logaddexp y x.
Proof.
  unfold logaddexp. f_equal.
  destruct (fexp x), (fexp y); simpl; try done. by rewrite Rplus_comm.
Qed.

Lemma logaddexp_hot_r x y : hot y → hot (logaddexp x y).
Proof. rewrite logaddexp_comm. apply logaddexp_hot_l. Qed.

Lemma logaddexp_cold x y : cold x → cold y → cold (logaddexp x y).
Proof.
  unfold logaddexp. intros [-> | ->] [-> | ->]; simpl; auto.
  rewrite Rplus_0_r. left. apply flog_0.
Qed.

Lemma logaddexp_ninf : logaddexp NInf NInf = NInf.
Proof. unfold logaddexp. simpl. rewrite Rplus_0_r. apply flog_0. Qed.

Lemma fsub_hot x y : hot x → hot y → fsub x y = NaN.
Proof. by intros [-> | ->] [-> | ->]. Qed.

Lemma fsub_cold_ninf x : cold x → fsub x NInf = NaN.
Proof. by intros [-> | ->]. Qed.

#[local] Arguments flog : simpl never.
#[local] Arguments logaddexp : simpl never.

(** *** Reducing a row *)

Section Reduce.
Context (P : float → Prop).

Lemma foldl_absorbs (f : float → float → float) x l :
  (∀ x y, P x → P (f x y)) → (∀ x y, P y → P (f x y)) →
  P x ∨ Exists P l → P (foldl f x l).
Proof.
  intros Hl Hr. revert x. induction l as [|y l IH]; intros x [Hx | Hex]; simpl.
  - done.
  - by apply Exists_nil in Hex.
  - apply IH. left. by apply Hl.
  - apply IH. apply Exists_cons in Hex as [Hy | Hex]; [left; by apply Hr | by right].
Qed.

Lemma foldl_closed (f : float → float → float) x l :
  (∀ x y, P x → P y → P (f x y)) →
  P x → Forall P l → P (foldl f x l).
Proof.
  intros Hf Hx Hall. revert x Hx. induction Hall as [|y l Hy _ IH]; intros x Hx; simpl.
  - done.
  - apply IH. by apply Hf.
Qed.

Lemma reduce_absorbs l :
  (∀ x y, P x → P (logaddexp x y)) → (∀ x y, P y → P (logaddexp x y)) →
  Exists P l → P (logaddexp_reduce l).
Proof.
  intros Hl Hr Hex. destruct l as [|x l]; [by apply Exists_nil in Hex |].
  simpl. apply foldl_absorbs; [done | done |].
  apply Exists_cons in Hex. tauto.
Qed.

Lemma reduce_closed l :
  (∀ x y, P x → P y → P (logaddexp x y)) →
  l ≠ [] → Forall P l → P (logaddexp_reduce l).
Proof.
  intros Hf Hne Hall. destruct l as [|x l]; [done |].
  apply Forall_cons in Hall as [Hx Hall]. simpl. by apply foldl_closed.
Qed.

End Reduce.

Lemma reduce_hot l : Exists (fun x => hot x) l → hot (logaddexp_reduce l).
Proof.
  apply (reduce_absorbs (fun x => hot x));
    [apply logaddexp_hot_l | apply logaddexp_hot_r].
Qed.

Lemma reduce_nan l : Exists (fun x => x = NaN) l → logaddexp_reduce l = NaN.
Proof.
  apply (reduce_absorbs (fun x => x = NaN)).
  - by intros x y ->.
  - intros x y ->. unfold logaddexp. simpl. by rewrite fadd_nan_r.
Qed.

Lemma reduce_cold l : l ≠ [] → Forall (fun x => cold x) l → cold (logaddexp_reduce l).
Proof. apply (reduce_closed (fun x => cold x)), logaddexp_cold. Qed.

Lemma reduce_ninf l :
  l ≠ [] → Forall (fun x => x = NInf) l → logaddexp_reduce l = NInf.
Proof.
  apply (reduce_closed (fun x => x = NInf)). intros x y -> ->. apply logaddexp_ninf.
Qed.

Lemma foldl_logaddexp_flog w ws :
  0 <= w → Forall (fun w => 0 <= w) ws →
  foldl logaddexp (lg w) (map (fun w => lg w) ws) = lg (w + rsum ws).
Proof.
  intros Hw Hws. revert w Hw. induction Hws as [|x ws Hx _ IH]; intros w Hw; simpl.
  - by rewrite Rplus_0_r.
  - rewrite logaddexp_flog, IH by (done || lra). f_equal. f_equal. lra.
Qed.

(** [logaddexp.reduce] of the logarithms of weights is the logarithm of
    their sum. *)
Lemma reduce_flog ws :
  ws ≠ [] → Forall (fun w => 0 <= w) ws →
  logaddexp_reduce (map (fun w => lg w) ws) = lg (rsum ws).
Proof.
  intros Hne Hws. destruct ws as [|w ws]; [done |].
  apply Forall_cons in Hws as [Hw Hws]. simpl. by apply foldl_logaddexp_flog.
Qed.

(** *** The maximum of a row *)

Lemma foldl_fmax_elem x l : foldl fmax x l = x ∨ foldl fmax x l ∈ l.
Proof.
  revert x. induction l as [|y l IH]; intros x; simpl; [by left |].
  destruct (IH (fmax x y)) as [E | Hin].
  - rewrite E. destruct (fmax_choice x y) as [-> | ->]; [by left | right; left].
  - right. by right.
Qed.

Lemma row_max_elem a : a ≠ [] → row_max a ∈ a.
Proof.
  destruct a as [|x l]; [done | intros _]. simpl.
  destruct (foldl_fmax_elem x l) as [-> | Hin]; [left | by right].
Qed.

(** *** Rows of logarithms of weights *)

Lemma weights_list (l : list float) :
  Forall is_weight l → ∃ vs, l = map Fin vs ∧ Forall (fun v => 0 <= v) vs.
Proof.
  induction 1 as [|x l (r & -> & Hr) _ (vs & -> & Hvs)]; [by exists [] |].
  exists (r :: vs). split; [done | by constructor].
Qed.

Lemma classify_row (a : list float) :
  (∃ ws, a = map (fun w => lg w) ws ∧ Forall (fun w => 0 <= w) ws)
  ∨ Exists (fun x => hot x) a.
Proof.
  induction a as [|x a [(ws & -> & Hws) | Hex]].
  - left. by exists [].
  - destruct x as [r| | |].
    + left. exists (exp r :: ws). simpl. rewrite flog_exp. split; [done |].
      constructor; [| done]. pose proof (exp_pos r). lra.
    + right. left. by left.
    + left. exists (0 :: ws). simpl. rewrite flog_0. split; [done |].
      constructor; [lra | done].
    + right. left. by right.
  - right. by right.
Qed.

Lemma zero_or_positive ws :
  Forall (fun w => 0 <= w) ws →
  Forall (fun w => w = 0) ws ∨ Exists (fun w => 0 < w) ws.
Proof.
  induction 1 as [|w ws Hw _ [IH | IH]].
  - left. constructor.
  - apply weight_cases in Hw as [-> | Hw]; [left; by constructor | right; by left].
  - right. by right.
Qed.

Lemma foldl_fmax_fin c ws :
  Forall (fun w => 0 <= w) ws →
  ∃ c', foldl fmax (Fin c) (map (fun w => lg w) ws) = Fin c'.
Proof.
  intros Hws. revert c. induction Hws as [|w ws Hw _ IH]; intros c; simpl; [by exists c |].
  destruct (flog_weight w Hw) as [-> | [r ->]]; simpl; apply IH.
Qed.

Lemma foldl_fmax_ninf ws :
  Forall (fun w => 0 <= w) ws → Exists (fun w => 0 < w) ws →
  ∃ c, foldl fmax NInf (map (fun w => lg w) ws) = Fin c.
Proof.
  induction 1 as [|w ws Hw Hws IH]; intros Hex; [by apply Exists_nil in Hex |].
  simpl. apply weight_cases in Hw as [-> | Hw].
  - rewrite flog_0. simpl. apply IH.
    apply Exists_cons in Hex as [Hex | Hex]; [lra | done].
  - rewrite flog_pos by done. simpl. by apply foldl_fmax_fin.
Qed.

Lemma row_max_fin ws :
  Forall (fun w => 0 <= w) ws → Exists (fun w => 0 < w) ws →
  ∃ c, row_max (map (fun w => lg w) ws) = Fin c.
Proof.
  intros Hws Hex. destruct Hws as [|w ws Hw Hws]; [by apply Exists_nil in Hex |].
  simpl. apply weight_cases in Hw as [-> | Hw].
  - rewrite flog_0. apply foldl_fmax_ninf; [done |].
    apply Exists_cons in Hex as [Hex | Hex]; [lra | done].
  - rewrite flog_pos by done. by apply foldl_fmax_fin.
Qed.

(** *** One column of the forward recursion, on the rescaled row *)

Lemma dot_Fin us vs : dot (map Fin us) (map Fin vs) = Fin (rdot us vs).
Proof.
  unfold dot, vsum. revert vs. induction us as [|u us IH]; intros vs; [done |].
  destruct vs as [|v vs]; [done |]. simpl. by rewrite IH.
Qed.

Lemma rdot_scaled us vs (k : R) :
  rdot (map (fun w => w * k) us) vs = k * rdot us vs.
Proof.
  revert vs. induction us as [|u us IH]; intros vs; simpl; [lra |].
  destruct vs as [|v vs]; simpl; [lra |]. rewrite IH. lra.
Qed.

Lemma products_weights us vs :
  Forall (fun w => 0 <= w) us → Forall (fun w => 0 <= w) vs →
  Forall (fun w => 0 <= w) (zip_with Rmult us vs).
Proof.
  intros Hus. revert vs. induction Hus as [|u us Hu _ IH]; intros vs Hvs; [constructor |].
  destruct Hvs as [|v vs Hv Hvs]; simpl; constructor; [| by apply IH].
  by apply Rmult_le_pos.
Qed.

Lemma rsum_weights ws : Forall (fun w => 0 <= w) ws → 0 <= rsum ws.
Proof. induction 1; simpl; lra. Qed.

Lemma zip_flog us vs :
  Forall (fun w => 0 <= w) us → Forall (fun w => 0 <= w) vs →
  zip_with fadd (map (fun w => lg w) us) (map flog (map Fin vs))
  = map (fun w => lg w) (zip_with Rmult us vs).
Proof.
  intros Hus. revert vs. induction Hus as [|u us Hu _ IH]; intros vs Hvs; [done |].
  destruct Hvs as [|v vs Hv Hvs]; [done |]. simpl. rewrite flog_mul, IH by done. done.
Qed.

Lemma rescaled_column ws vs c :
  ws ≠ [] → length ws = length vs →
  Forall (fun w => 0 <= w) ws → Forall (fun w => 0 <= w) vs →
  fadd (flog (dot (map (fun x => fexp (fsub x (Fin c))) (map (fun w => lg w) ws))
                  (map Fin vs)))
       (Fin c)
  = logaddexp_reduce (zip_with fadd (map (fun w => lg w) ws) (map flog (map Fin vs))).
Proof.
  intros Hne Hlen Hws Hvs.
  assert (E : map (fun x => fexp (fsub x (Fin c))) (map (fun w => lg w) ws)
              = map Fin (map (fun w => w * exp (- c)) ws)).
  { rewrite !map_map. apply map_ext_in. intros w Hw.
    apply fexp_fsub_flog. rewrite Forall_forall in Hws. apply Hws.
    by apply list_elem_of_In. }
  rewrite E, dot_Fin, rdot_scaled, flog_scale
    by (by apply rsum_weights, products_weights).
  rewrite zip_flog, reduce_flog; [done | | by apply products_weights | done | done].
  destruct ws, vs; done.
Qed.

(** *** Slices *)

Lemma slice_to_neg_1_cons {A} (x y : A) l :
  slice_to_neg 1 (x :: y :: l) = x :: slice_to_neg 1 (y :: l).
Proof. unfold slice_to_neg. simpl. by rewrite Nat.sub_0_r. Qed.

Lemma slice_to_neg_1_map {A B} (f : A → B) l :
  slice_to_neg 1 (map f l) = map f (slice_to_neg 1 l).
Proof.
  unfold slice_to_neg. rewrite length_map. symmetry. apply (fmap_take f).
Qed.

Lemma sub_column_row_max (X : matrix) :
  map (map fexp) (sub_column X (map row_max X))
  = map (fun row => map (fun x => fexp (fsub x (row_max row))) row) X.
Proof.
  unfold sub_column. induction X as [|row X IH]; simpl; [done |].
  f_equal; [| done]. rewrite map_map. done.
Qed.

Lemma add_column_row_max (g : list float → list float) (X : matrix) :
  add_column (map g X) (map row_max X)
  = map (fun row => map (fun x => fadd x (row_max row)) (g row)) X.
Proof. unfold add_column. induction X as [|row X IH]; simpl; [done | by f_equal]. Qed.

(** *** One step of the forward recursion on the rescaled vector *)

Section OneStep.
Context (A : matrix).
Hypothesis A_rows : (0 < length A)%nat.
Hypothesis A_square :
  Forall (fun r => length r = length A ∧ Forall is_weight r) A.

(** What the loop of [predictive_likelihoods] computes from the row [a] of
    forward messages and the row [b] of observation log-likelihoods. *)
Local Abbreviation advanced a b :=
  (zip_with fadd
     (map (fun x => fadd x (row_max a))
          (map flog (vec_mat (map (fun x => fexp (fsub x (row_max a))) a) A)))
     b).

Lemma ncols_square : ncols A = length A.
Proof.
  destruct A as [|r A']; [simpl in A_rows; lia |].
  apply Forall_cons in A_square as [[Hr _] _]. done.
Qed.

Lemma col_weights j : (j < length A)%nat → Forall is_weight (col j A).
Proof.
  intros Hj. unfold col. apply Forall_forall. intros x Hx.
  apply list_elem_of_fmap in Hx as (r & -> & Hr).
  rewrite Forall_forall in A_square. destruct (A_square r Hr) as [Hlen Hpos].
  rewrite Forall_forall in Hpos. apply Hpos.
  apply list_elem_of_In. apply nth_In. lia.
Qed.

Lemma length_col j : length (col j A) = length A.
Proof. unfold col. by rewrite length_map. Qed.

Lemma length_forward_step (a b : list float) :
  length b = length A → length (forward_step A a b) = length A.
Proof.
  intros Hb. unfold forward_step.
  rewrite length_zip_with, length_map, length_seq, ncols_square. lia.
Qed.

(** On a row of logarithms of weights whose maximum is finite, the loop
    computes the next row of forward messages. *)
Lemma advance_row ws c (b : list float) :
  length ws = length A →
  Forall (fun w => 0 <= w) ws →
  row_max (map (fun w => lg w) ws) = Fin c →
  advanced (map (fun w => lg w) ws) b = forward_step A (map (fun w => lg w) ws) b.
Proof.
  intros Hlen Hws Hc. rewrite Hc. unfold forward_step, vec_mat. f_equal.
  set (u := map (fun x => fexp (fsub x (Fin c))) (map (fun w => lg w) ws)).
  rewrite !map_map. subst u. apply map_ext_in. intros j Hj.
  apply in_seq in Hj. rewrite ncols_square in Hj.
  destruct (weights_list (col j A)) as (vs & Evs & Hvs); [apply col_weights; lia |].
  rewrite Evs. apply rescaled_column; try done.
  - destruct ws; [simpl in Hlen; lia | done].
  - rewrite Hlen, <- (length_col j), Evs. by rewrite length_map.
Qed.

(** A [nan] in the rescaled row makes every entry the loop computes [nan]. *)
Lemma dot_nan (u v : list float) :
  length u = length v → Exists (fun x => x = NaN) u → dot u v = NaN.
Proof.
  unfold dot, vsum. intros Hlen Hex. revert v Hlen.
  induction Hex as [x u -> | x u _ IH]; intros [|y v] Hlen; simpl in *; try lia.
  - done.
  - rewrite IH by lia. apply fadd_nan_r.
Qed.

Lemma advanced_nan (a b : list float) :
  length a = length A → length b = length A →
  (∀ r, row_max a ≠ Fin r) →
  logaddexp_reduce (advanced a b) = NaN.
Proof.
  intros Ha Hb Hmax.
  assert (Hne : a ≠ []) by (destruct a; [simpl in Ha; lia | done]).
  assert (Hex : Exists (fun x => x = NaN) (map (fun x => fexp (fsub x (row_max a))) a)).
  { apply Exists_exists. exists NaN. split; [| done].
    apply list_elem_of_fmap. exists (row_max a). split; [| by apply row_max_elem].
    by rewrite fsub_self. }
  assert (E : advanced a b = map (fun _ => NaN) b).
  { unfold vec_mat. rewrite ncols_square, <- Hb. clear Hb.
    rewrite !map_map.
    assert (Hall : ∀ j, fadd (flog (dot (map (fun x => fexp (fsub x (row_max a))) a)
                                        (col j A))) (row_max a) = NaN).
    { intros j. rewrite dot_nan; [done | | done].
      by rewrite length_map, length_col. }
    generalize 0%nat. induction b as [|y b IH]; intros n; [done |].
    simpl. by rewrite Hall, IH. }
  rewrite E. apply reduce_nan. destruct b; [simpl in Hb; lia |]. by left.
Qed.

(** The next row of forward messages after a row with an [inf] or a [nan],
    and after a row of [-inf]. *)
Lemma forward_step_hot (a b : list float) :
  length a = length A → length b = length A →
  Exists (fun x => hot x) a →
  hot (logaddexp_reduce (forward_step A a b)).
Proof.
  intros Ha Hb Hex. apply reduce_hot. unfold forward_step.
  rewrite ncols_square, <- Hb.
  assert (Hall : ∀ j, hot (logaddexp_reduce (zip_with fadd a (map flog (col j A))))).
  { intros j. apply reduce_hot.
    assert (Hlen : length a = length (map flog (col j A))).
    { by rewrite length_map, length_col. }
    revert Hlen. generalize (map flog (col j A)). clear -Hex.
    induction Hex as [x a Hx | x a _ IH]; intros [|y l] Hlen; simpl in *; try lia.
    - left. by apply fadd_hot_l.
    - right. apply IH. lia. }
  destruct b as [|y b]; [simpl in Hb; lia |]. simpl. left. apply fadd_hot_l, Hall.
Qed.

Lemma forward_step_cold (a b : list float) :
  length a = length A → length b = length A →
  Forall (fun x => x = NInf) a →
  cold (logaddexp_reduce (forward_step A a b)).
Proof.
  intros Ha Hb Hall. unfold forward_step. rewrite ncols_square, <- Hb.
  assert (Hcol : ∀ j, (j < length A)%nat →
            logaddexp_reduce (zip_with fadd a (map flog (col j A))) = NInf).
  { intros j Hj. apply reduce_ninf.
    - pose proof (length_col j) as Hl.
      destruct a, (col j A); simpl in *; try lia. done.
    - pose proof (col_weights j Hj) as Hw. revert Hw. generalize (col j A). clear -Hall.
      induction Hall as [|x a -> _ IH]; intros [|y l] Hw; simpl; try constructor.
      + apply Forall_cons in Hw as [(r & -> & Hr) _].
        by destruct (flog_weight r Hr) as [-> | [r' ->]].
      + apply IH. by apply Forall_cons in Hw as [_ Hw]. }
  assert (Hgen : ∀ n, (n + length b <= length A)%nat →
            Forall (fun x => cold x)
              (zip_with fadd
                 (map (fun j => logaddexp_reduce (zip_with fadd a (map flog (col j A))))
                      (seq n (length b)))
                 b)).
  { clear Hb. induction b as [|y b IH]; intros n Hn; simpl in *; [constructor |].
    constructor; [| apply IH; lia].
    rewrite Hcol by lia. destruct y; simpl; auto. }
  apply reduce_cold; [| apply Hgen; lia].
  destruct b; [simpl in Hb; lia | done].
Qed.

(** The score of one time index: what the loop of [predictive_likelihoods]
    compares with the past likelihood has the same difference to it as the
    next row of forward messages. *)
Lemma advance_score (a b : list float) :
  length a = length A → length b = length A →
  fsub (logaddexp_reduce (advanced a b)) (logaddexp_reduce a)
  = fsub (logaddexp_reduce (forward_step A a b)) (logaddexp_reduce a).
Proof.
  intros Ha Hb.
  assert (Hdegenerate : (∀ r, row_max a ≠ Fin r) →
            fsub (logaddexp_reduce (forward_step A a b)) (logaddexp_reduce a) = NaN →
            fsub (logaddexp_reduce (advanced a b)) (logaddexp_reduce a)
            = fsub (logaddexp_reduce (forward_step A a b)) (logaddexp_reduce a)).
  { intros Hmax ->. by rewrite advanced_nan. }
  destruct (classify_row a) as [(ws & -> & Hws) | Hex].
  - rewrite length_map in Ha.
    destruct (zero_or_positive ws Hws) as [Hzero | Hpos].
    + assert (Hninf : Forall (fun x => x = NInf) (map (fun w => lg w) ws)).
      { apply Forall_fmap. eapply Forall_impl; [exact Hzero |].
        intros w ->. apply flog_0. }
      assert (Hne : map (fun w => lg w) ws ≠ []).
      { destruct ws; [simpl in Ha; lia | done]. }
      apply Hdegenerate.
      * intros r Hr.
        pose proof (row_max_elem _ Hne) as Hin. rewrite Hr in Hin.
        rewrite Forall_forall in Hninf. by specialize (Hninf _ Hin).
      * rewrite (reduce_ninf _ Hne Hninf). apply fsub_cold_ninf.
        apply forward_step_cold; [by rewrite length_map | done | done].
    + destruct (row_max_fin ws Hws Hpos) as (c & Hc).
      by rewrite (advance_row ws c b Ha Hws Hc).
  - assert (Hne : a ≠ []) by (destruct a; [simpl in Ha; lia | done]).
    apply Hdegenerate.
    + intros r Hr.
      assert (Hhot : hot (row_max a)).
      { destruct a as [|x a]; [done |]. simpl.
        apply (foldl_absorbs (fun x => hot x)).
        - intros [] []; simpl; intros [|]; auto; done.
        - intros [] []; simpl; intros [|]; auto; done.
        - apply Exists_cons in Hex. tauto. }
      rewrite Hr in Hhot. by destruct Hhot.
    + apply fsub_hot; [by apply forward_step_hot | by apply reduce_hot].
Qed.

Lemma advance_scores (a0 : list float) (rest : matrix) :
  length a0 = length A →
  Forall (fun b => length b = length A) rest →
  zip_with fsub
    (map logaddexp_reduce
       (mat_add
          (map (fun row => map (fun x => fadd x (row_max row))
                             (map flog (vec_mat (map (fun x => fexp (fsub x (row_max row)))
                                                     row) A)))
               (slice_to_neg 1 (a0 :: forward_from A a0 rest)))
          rest))
    (map logaddexp_reduce (slice_to_neg 1 (a0 :: forward_from A a0 rest)))
  = zip_with fsub
      (map logaddexp_reduce (forward_from A a0 rest))
      (map logaddexp_reduce (slice_to_neg 1 (a0 :: forward_from A a0 rest))).
Proof.
  intros Ha0 Hrest. revert a0 Ha0.
  induction Hrest as [|b rest Hb Hrest IH]; intros a0 Ha0; [done |].
  simpl forward_from. rewrite slice_to_neg_1_cons.
  unfold mat_add in *. simpl. f_equal.
  - by apply advance_score.
  - apply IH. by apply length_forward_step.
Qed.

End OneStep.


End PredictiveFacts.

(** ** The properties on the stores of [Demo] *)

Module DemoFacts.
Import Demo.
#[local] Existing Instance demo.

(** C1: the second chain of the model cannot be sampled.  In the parallel
    sweep the job of the first chain returns a state sequence and the job
    of the second raises; the sweep raises with it.  No state sequence has
    changed and no object other than the model has, but the model, which
    had the chains 6 and 7, is left without chains. *)
Lemma parallel_failure_loses_chains :
  let pushed := (setattr hmm (set_states_list []) hmm_store2).2 in
  let r := resample_states_parallel hmm None hmm_store2 in
  chains_at hmm_store2 hmm = Some [6; 7]
  ∧ (_state_sampler hmm None [1; 2; 3]%Z false
       (mkState (heap pushed) (trace pushed) (rng pushed + 1))).1 = Ok [1; 0; 1]
  ∧ (_state_sampler hmm None [4; -1]%Z false
       (mkState (heap pushed) (trace pushed) (rng pushed + 0))).1
    = Raise (CollaboratorError "resample")
  ∧ r.1 = Raise (CollaboratorError "resample")
  ∧ stateseq_at r.2 6 = stateseq_at hmm_store2 6
  ∧ stateseq_at r.2 7 = stateseq_at hmm_store2 7
  ∧ heap r.2
    = <[hmm := ModelObj (mkModel HMM (Some 2) (Some [0; 1]) (Some []) (Some 4) (Some 5)
                                 None None)]> (heap hmm_store2)
  ∧ chains_at r.2 hmm = Some []
  ∧ chains_at r.2 hmm ≠ chains_at hmm_store2 hmm.
Proof. vm_compute. repeat split; congruence. Qed.

(** C2: with all three configuration modes supplied, both constructors
    return a model. *)
Lemma constructors_accept_all_three_modes :
  (mode_a all_modes_args && mode_b all_modes_args && mode_c all_modes_args = true)
  ∧ is_ok (HMM_new all_modes_args distns_store).1 = true
  ∧ (sticky_mode_a all_modes_sticky_args && sticky_mode_b all_modes_sticky_args
     && sticky_mode_c all_modes_sticky_args = true)
  ∧ is_ok (StickyHMM_new all_modes_sticky_args distns_store).1 = true.
Proof. by vm_compute. Qed.

(** C6: on an HSMM with an explicit initial-state posterior, after the
    transition posterior is resampled the initial state kept for left
    censoring still holds the value derived from the old transition
    posterior. *)
Lemma left_censoring_cache_survives_update :
  let r := run_update UpdTrans hsmm_explicit None hsmm_explicit_store in
  r.1 = Ok ()
  ∧ heap hsmm_explicit_store !! 7 = Some (Distn 10%Z)
  ∧ heap r.2 !! 7 = Some (Distn 11%Z)
  ∧ (left_censoring_init_state_distn <$> model_at r.2 hsmm_explicit) = Some (Some 8)
  ∧ heap r.2 !! 8 = Some (SteadyState hsmm_explicit (Some 10%Z))
  ∧ caches_cleared r.2 hsmm_explicit
  ∧ ¬ all_caches_cleared r.2 hsmm_explicit.
Proof.
  set (r := run_update UpdTrans hsmm_explicit None hsmm_explicit_store).
  assert (Hr : r.1 = Ok ()) by reflexivity.
  assert (H8 : heap r.2 !! 8 = Some (SteadyState hsmm_explicit (Some 10%Z))) by reflexivity.
  assert (Hm : heap r.2 !! hsmm_explicit
     = Some (ModelObj (mkModel HSMM (Some 2) (Some [0; 1]) (Some [9]) (Some 7) (Some 5)
                               (Some [3; 4]) (Some 8)))) by reflexivity.
  repeat split; try reflexivity.
  - apply (parameter_update_clears_caches UpdTrans hsmm_explicit None hsmm_explicit_store).
    reflexivity.
  - intros [_ Hlc]. by specialize (Hlc _ 8 Hm eq_refl _ _ H8).
Qed.

(** C7: the copy of an HSMM keeps the left-censoring initial state of the
    original, which is the original's own derived initial state (taking
    the copy has cleared its cache); once the original's transition
    posterior is resampled, the distribution read through the copy has
    moved, though the copy's transition posterior has not. *)
Lemma copy_shares_left_censoring_initial_state :
  let c := copy_sample hsmm hsmm_store in
  let r := resample_trans_distn hsmm None c.2 in
  c.1 = Ok 9
  ∧ (init_state_distn <$> model_at c.2 hsmm) = Some (Some 7)
  ∧ (left_censoring_init_state_distn <$> model_at c.2 9) = Some (Some 7)
  ∧ (trans_distn <$> model_at c.2 9) = Some (Some 12)
  ∧ heap hsmm_store !! 7 = Some (SteadyState hsmm (Some 11%Z))
  ∧ heap c.2 !! 7 = Some (SteadyState hsmm None)
  ∧ (left_censoring_pi_0 9 c.2).1 = Ok 11%Z
  ∧ r.1 = Ok ()
  ∧ heap r.2 !! 7 = Some (SteadyState hsmm None)
  ∧ (left_censoring_pi_0 9 r.2).1 = Ok 12%Z
  ∧ heap r.2 !! 12 = Some (Distn 11%Z).
Proof. by vm_compute. Qed.

Lemma EM_steps_need_chains_witness :
  (heap hmm_store0 !! hmm
   = Some (ModelObj (mkModel HMM (Some 2) (Some [0; 1]) (Some []) (Some 4) (Some 5)
                             None None)))
  ∧ (∃ e, EM_step hmm hmm_store0 = (Raise e, hmm_store0) ∧ precondition_error e)
  ∧ (∃ e, Viterbi_EM_step hmm hmm_store0 = (Raise e, hmm_store0) ∧ precondition_error e).
Proof.
  split; [reflexivity |].
  exact (EM_steps_need_chains hmm_store0 hmm _ eq_refl eq_refl).
Defined.

Lemma num_parameters_count_witness :
  num_parameters hmm hmm_store = (Ok (VInt 8), hmm_store)
  ∧ num_parameters hsmm hsmm_store = (Ok (VInt 10), hsmm_store).
Proof.
  assert (Hm : heap hmm_store !! hmm
    = Some (ModelObj (mkModel HMM (Some 2) (Some [0; 1]) (Some [6]) (Some 4) (Some 5)
                              None None))) by (vm_compute; reflexivity).
  assert (Hd : distns_at hmm_store [0; 1] [3%Z; 5%Z]).
  { repeat constructor; vm_compute; reflexivity. }
  assert (Hm' : heap hsmm_store !! hsmm
    = Some (ModelObj (mkModel HSMM (Some 2) (Some [0; 1]) (Some [8]) (Some 6) (Some 7)
                              (Some [3; 4]) (Some 7)))) by (vm_compute; reflexivity).
  assert (Hd' : distns_at hsmm_store [0; 1] [4%Z; 6%Z]).
  { repeat constructor; vm_compute; reflexivity. }
  assert (Hu' : distns_at hsmm_store [3; 4] [12%Z; 14%Z]).
  { repeat constructor; vm_compute; reflexivity. }
  split.
  - exact (proj1 (proj1 (num_parameters_count hmm_store hmm _ 2 [0; 1] [3%Z; 5%Z]
                           Hm eq_refl eq_refl Hd) eq_refl)).
  - exact (proj1 (proj2 (num_parameters_count hsmm_store hsmm _ 2 [0; 1] [4%Z; 6%Z]
                           Hm' eq_refl eq_refl Hd') [3; 4] [12%Z; 14%Z] eq_refl eq_refl Hu')).
Defined.

Lemma BIC_never_returns_witness :
  heap hmm_store !! hmm
  = Some (ModelObj (mkModel HMM (Some 2) (Some [0; 1]) (Some [6]) (Some 4) (Some 5)
                            None None))
  ∧ ∃ e st', BIC hmm None hmm_store = (Raise e, st') ∧ not_an_assertion e.
Proof.
  split; [reflexivity |].
  refine (proj2 (BIC_never_returns hmm_store hmm _ [6] eq_refl eq_refl _)). done.
Defined.


(** The events of one Gibbs sweep of the HSMM of [hsmm_store]. *)
Example hsmm_sweep_events :
  trace hsmm_store
  = [EvDurResample 0 3; EvDurResample 1 4; EvClearCaches 8; EvClearCaches 7;
     EvObsResample 0 0; EvObsResample 1 1; EvClearCaches 8; EvClearCaches 7;
     EvTransResample 6; EvClearCaches 8; EvClearCaches 7;
     EvInitResample 7; EvClearCaches 8; EvClearCaches 7;
     EvStatesResample 8].
Proof. reflexivity. Qed.

End DemoFacts.

Module PredictiveDemo.
Import Predictive PredictiveFacts.
Local Open Scope R_scope.

#[local] Arguments flog : simpl never.

Ltac run_tables :=
  cbv [predictive_likelihoods block_predictive_likelihoods predictive_iteration
       messages_forwards forward_from forward_step one_state_chain
       aBl pi0 trans_matrix
       foldl map zip_with seq ncols col nth slice_to_neg slice_from take drop length
       Nat.sub sub_column add_column mat_add mat_mul vec_mat dot vsum foldr
       matrix_power row_max logaddexp_reduce outs cmaxes scaled_alphal prev_k app].

(** An equation between real numbers built from numerals and [exp] of
    expressions that are zero. *)
Ltac real_eval :=
  repeat match goal with
         | |- context [exp ?x] =>
             lazymatch x with
             | 0 => fail
             | _ => replace x with 0 by lra
             end
         end;
  rewrite ?exp_0; lra.

Lemma flog_one e : e = 1 → flog (Fin e) = Fin 0.
Proof. intros ->. rewrite flog_pos by lra. by rewrite ln_1. Qed.

(** The logarithms of expressions that are one, innermost first. *)
Ltac float_eval :=
  repeat (simpl;
          match goal with
          | |- context [flog (Fin ?e)] => rewrite (flog_one e) by real_eval
          end);
  simpl.



End PredictiveDemo.

Section Decoding.
Context `{Collaborators}.

(** ** The most likely state sequences *)

Lemma map_M_reads_inv {A B} (f : A → M B) l st ys st' :
  (∀ x, reads (f x)) →
  map_M f l st = (Ok ys, st') →
  st' = st ∧ Forall2 (fun x y => f x st = (Ok y, st)) l ys.
Proof.
  intros Hf. revert ys. induction l as [|x l IH]; intros ys E; simpl in E.
  - injection E as <- <-. by split.
  - apply bind_inv in E as (y & st1 & E1 & E).
    pose proof (reads_inv _ _ _ _ (Hf x) E1) as ->.
    apply bind_inv in E as (ys' & st2 & E2 & [= <- <-]).
    destruct (IH _ E2) as [-> Hall]. split; [done |]. by constructor.
Qed.

Lemma get_states_list_inv self st l st' :
  get_states_list self st = (Ok l, st') → st' = st ∧ chains_at st self = Some l.
Proof.
  unfold get_states_list.
  intros (m & ? & [-> Hm]%get_model_inv & E)%bind_inv.
  pose proof (reads_inv _ _ _ _ (reads_attr _ _) E) as ->.
  split; [done |]. unfold chains_at, model_at. rewrite Hm. simpl.
  destruct (states_list m); [by injection E as -> | done].
Qed.

Lemma reads_get_states_list self : reads (get_states_list self).
Proof.
  apply reads_bind; [apply reads_get_model | intros m; apply reads_attr].
Qed.

Lemma reads_read_stateseqs self : reads (read_stateseqs self).
Proof.
  apply reads_bind; [apply reads_get_states_list | intros l].
  apply reads_map_M. intros s.
  apply reads_bind; [apply reads_get_states | intros c; apply reads_ret].
Qed.

Lemma read_stateseqs_inv self st qs st' :
  read_stateseqs self st = (Ok qs, st') →
  st' = st
  ∧ ∃ l, chains_at st self = Some l
         ∧ Forall2 (fun s q => stateseq_at st s = Some q) l qs.
Proof.
  intros E. pose proof (reads_inv _ _ _ _ (reads_read_stateseqs self) E) as ->.
  split; [done |]. unfold read_stateseqs in E.
  apply bind_inv in E as (l & ? & [-> Hl]%get_states_list_inv & E).
  exists l. split; [done |].
  apply map_M_reads_inv in E as [_ Hall].
  2: { intros s. apply reads_bind; [apply reads_get_states | intros c; apply reads_ret]. }
  eapply Forall2_impl; [exact Hall |]. intros s q Es. simpl in Es.
  apply bind_inv in Es as (c & ? & [-> Hc]%get_states_inv & [= <-]).
  unfold stateseq_at, states_at. by rewrite Hc.
Qed.

Lemma bind_reads_inv {A B} (m : M A) (k : A → M B) st b st' :
  bind m k st = (Ok b, st') → reads m →
  ∃ a, m st = (Ok a, st) ∧ k a st = (Ok b, st').
Proof.
  intros (a & st1 & E1 & E)%bind_inv Hm.
  pose proof (reads_inv _ _ _ _ Hm E1) as ->. by exists a.
Qed.

Global Instance chains_fixed_preorder : PreOrder chains_fixed.
Proof.
  split.
  - by intros [].
  - intros [] o' o''; simpl; try done. by intros -> ->.
Qed.

Lemma pi_0_chains d : preserves (evolves chains_fixed) (pi_0 d).
Proof.
  intros st. unfold pi_0.
  apply run_read; [tc_solve | apply reads_get_obj |]. intros o [_ Hd]%get_obj_inv.
  destruct o as [p|m [pi|]|c|m]; try reflexivity.
  apply run_read; [tc_solve | apply reads_get_model |]. intros mo _.
  apply run_read; [tc_solve | apply reads_attr |]. intros t _.
  apply run_read; [tc_solve | apply reads_get_distn |]. intros A _.
  apply run_read; [tc_solve | |].
  { destruct (dur_distns mo); [apply reads_map_M, reads_get_distn | apply reads_ret]. }
  intros durs _.
  apply run_bind; [tc_solve | |].
  - eapply evolves_put; [tc_solve | exact Hd | done].
  - intros [] st' _. reflexivity.
Qed.

Lemma set_tables_same c t : tables c = Some t → set_tables (Some t) c = c.
Proof. destruct c; simpl. by intros ->. Qed.

(** Reading the tables of the chain [s]: afterwards the chain holds them,
    and every other chain is as it was. *)
Lemma States_messages_inv s st t st' :
  States_messages s st = (Ok t, st') →
  ∃ c, heap st !! s = Some (StatesObj c)
       ∧ (∀ t0, tables c = Some t0 → t0 = t)
       ∧ heap st' !! s = Some (StatesObj (set_tables (Some t) c))
       ∧ ∀ l c', l ≠ s → heap st !! l = Some (StatesObj c') →
                 heap st' !! l = Some (StatesObj c').
Proof.
  unfold States_messages.
  intros (c & [_ Hs]%get_states_inv & E)%bind_reads_inv; [| apply reads_get_states].
  exists c. split; [done |].
  destruct (tables c) as [t0|] eqn:Htc.
  { injection E as -> <-. split; [by intros ? [= ->] |].
    rewrite set_tables_same by done. by split. }
  split; [done |].
  apply bind_reads_inv in E as (mo & _ & E); [| apply reads_get_model].
  apply bind_reads_inv in E as (os & _ & E); [| apply reads_attr].
  apply bind_reads_inv in E as (obs & _ & E); [| apply reads_map_M, reads_get_distn].
  apply bind_reads_inv in E as (tr & _ & E); [| apply reads_attr].
  apply bind_reads_inv in E as (A & _ & E); [| apply reads_get_distn].
  apply bind_reads_inv in E as (i & _ & E); [| destruct (_ && _); apply reads_attr].
  apply bind_inv in E as (pi & st1 & E1 & E).
  pose proof (pi_0_chains i st) as Hev. rewrite E1 in Hev. simpl in Hev.
  apply bind_reads_inv in E as (durs & _ & E).
  2: { destruct (dur_distns mo); [apply reads_map_M, reads_get_distn | apply reads_ret]. }
  apply bind_inv in E as ([] & st2 & [= <-] & [= <- <-]). simpl.
  destruct (Hev _ _ Hs) as (o' & Hs1 & ->).
  split.
  - apply list_lookup_insert_eq. by eapply lookup_lt_Some.
  - intros l c' Hne Hl. destruct (Hev _ _ Hl) as (o' & Hl1 & ->).
    by rewrite list_lookup_insert_ne.
Qed.

Lemma States_set_stateseq_inv s q st st' :
  States_set_stateseq s q st = (Ok (), st') →
  ∃ c, heap st !! s = Some (StatesObj c)
       ∧ heap st' = <[s := StatesObj (set_stateseq q c)]> (heap st).
Proof.
  unfold States_set_stateseq.
  intros (c & [_ Hs]%get_states_inv & E)%bind_reads_inv; [| apply reads_get_states].
  exists c. split; [done |]. by injection E as <-.
Qed.

(** Decoding the chain [s]: afterwards it is decoded, and every other chain
    is as it was. *)
Lemma States_Viterbi_inv s st st' :
  States_Viterbi s st = (Ok (), st') →
  decoded st' s
  ∧ ∀ l c', l ≠ s → heap st !! l = Some (StatesObj c') →
            heap st' !! l = Some (StatesObj c').
Proof.
  unfold States_Viterbi.
  intros (t & st1 & (c & Hs & _ & Hs1 & Hother)%States_messages_inv & E)%bind_inv.
  apply States_set_stateseq_inv in E as (c1 & Hc1 & Hheap).
  rewrite Hs1 in Hc1. injection Hc1 as <-. split.
  - exists (set_stateseq (states_viterbi t) (set_tables (Some t) c)), t.
    rewrite Hheap. split; [| done].
    apply list_lookup_insert_eq. by eapply lookup_lt_Some.
  - intros l c' Hne Hl. rewrite Hheap, list_lookup_insert_ne by done. by apply Hother.
Qed.

Lemma States_Viterbi_evolves s : preserves (evolves chain_step) (States_Viterbi s).
Proof.
  apply preserves_bind; [tc_solve | apply States_messages_evolves | intros t].
  apply States_set_stateseq_evolves.
Qed.

(** A Viterbi pass over the chains [l]: afterwards each of them is decoded,
    and every chain that is not among them is as it was. *)
Lemma for_each_Viterbi l st st' :
  for_each l States_Viterbi st = (Ok (), st') →
  (∀ s, s ∈ l ∨ decoded st s → decoded st' s)
  ∧ ∀ s c, s ∉ l → heap st !! s = Some (StatesObj c) →
           heap st' !! s = Some (StatesObj c).
Proof.
  revert st. induction l as [|x l IH]; intros st E.
  - injection E as <-. split; [| done].
    intros s [Hs|Hs]; [by apply elem_of_nil in Hs | done].
  - simpl in E. apply bind_inv in E as ([] & st1 & E1 & E2).
    apply States_Viterbi_inv in E1 as (Hx & Hother).
    destruct (IH _ E2) as (IH1 & IH2). split.
    + intros s Hs. apply IH1.
      destruct Hs as [[->|Hs]%elem_of_cons|Hs]; [by right | by left |].
      right. destruct (decide (s = x)) as [->|Hne]; [done |].
      destruct Hs as (c & t & Hc & Ht & Hq). exists c, t. split; [| done].
      by apply Hother.
    + intros s c [Hne Hnl]%not_elem_of_cons Hc. apply IH2; [done |]. by apply Hother.
Qed.

(** Putting state sequences back: when every pair names a chain and the
    sequence [f] gives for it, every chain named keeps or gets the
    sequence [f] gives, and a chain keeps its tables. *)
Lemma for_each_set_stateseq (f : loc → option (list nat)) pairs st st' :
  for_each pairs (fun sq => States_set_stateseq sq.1 sq.2) st = (Ok (), st') →
  (∀ s q, (s, q) ∈ pairs → f s = Some q) →
  evolves stateseq_step st st'
  ∧ ∀ s, s ∈ pairs.*1 ∨ stateseq_at st s = f s → stateseq_at st' s = f s.
Proof.
  revert st. induction pairs as [|[x q] pairs IH]; intros st E Hf.
  - injection E as <-. split; [reflexivity |]. intros s [Hs|Hs]; [| done].
    by apply elem_of_nil in Hs.
  - simpl in E. apply bind_inv in E as ([] & st1 & E1 & E2).
    apply States_set_stateseq_inv in E1 as (c & Hc & Hheap).
    destruct (IH _ E2) as (IH1 & IH2).
    { intros s q' Hin. apply Hf. by right. }
    assert (Hx : stateseq_at st1 x = f x).
    { unfold stateseq_at, states_at. rewrite Hheap.
      rewrite list_lookup_insert_eq by (by eapply lookup_lt_Some). simpl.
      symmetry. apply Hf. by left. }
    split.
    + etrans; [| exact IH1]. intros l o Hl.
      destruct (decide (l = x)) as [->|Hne].
      * exists (StatesObj (set_stateseq q c)). rewrite Hheap.
        rewrite list_lookup_insert_eq by (by eapply lookup_lt_Some).
        split; [done |]. rewrite Hc in Hl. injection Hl as <-. by repeat split.
      * exists o. rewrite Hheap, list_lookup_insert_ne by done. split; [done | reflexivity].
    + intros s Hs. apply IH2.
      destruct (decide (s = x)) as [->|Hne]; [by right |].
      destruct Hs as [Hs|Hs].
      * left. simpl in Hs. apply elem_of_cons in Hs as [Hs|Hs]; [done | done].
      * right. rewrite <- Hs. unfold stateseq_at, states_at.
        by rewrite Hheap, list_lookup_insert_ne.
Qed.

(** [Viterbi_stateseqs], when it returns: the sequences it returns are the
    most likely ones of the tables the chains of the model now hold, one
    for each chain in the order of the chains; and the run has only filled
    caches: every chain of the store has the state sequence it had before,
    every model and every posterior is as it was. *)
Theorem Viterbi_stateseqs_restores st self r st' :
  Viterbi_stateseqs self st = (Ok r, st') →
  evolves cache_step st st'
  ∧ ∃ l, chains_at st self = Some l
         ∧ chains_at st' self = Some l
         ∧ Forall2 (fun s q => ∃ t, cached st' s t ∧ q = states_viterbi t) l r.
Proof.
  unfold Viterbi_stateseqs.
  intros (cur & E0 & E)%bind_reads_inv; [| apply reads_read_stateseqs].
  apply read_stateseqs_inv in E0 as (_ & l & Hl & Hcur).
  apply bind_reads_inv in E as (l0 & [_ Hl0]%get_states_list_inv & E);
    [| apply reads_get_states_list].
  rewrite Hl in Hl0. injection Hl0 as <-.
  apply bind_inv in E as ([] & st1 & E1 & E).
  pose proof (preserves_for_each (evolves chain_step) l States_Viterbi
                States_Viterbi_evolves st) as Hev1.
  rewrite E1 in Hev1. simpl in Hev1.
  apply for_each_Viterbi in E1 as (Hdec & Hother).
  apply bind_reads_inv in E as (r0 & E2 & E); [| apply reads_read_stateseqs].
  apply read_stateseqs_inv in E2 as (_ & l1 & Hl1 & Hr).
  assert (Hm1 : model_at st1 self = model_at st self).
  { apply evolves_model_at; [done |]. unfold chains_at in Hl.
    destruct (model_at st self); [by eexists | done]. }
  assert (l1 = l) as ->.
  { unfold chains_at in Hl1. rewrite Hm1 in Hl1. unfold chains_at in Hl. congruence. }
  apply bind_reads_inv in E as (l2 & [_ Hl2]%get_states_list_inv & E);
    [| apply reads_get_states_list].
  rewrite Hl1 in Hl2. injection Hl2 as <-.
  apply bind_inv in E as ([] & st2 & E3 & [= <- <-]).
  apply (for_each_set_stateseq (stateseq_at st)) in E3 as (Hev2 & Hrestored).
  2: { intros s q Hin. apply list_elem_of_lookup in Hin as (i & Hi).
       apply lookup_zip_with_Some in Hi as (s' & q' & [= <- <-] & Hs & Hq).
       eapply Forall2_lookup_lr in Hcur; [| exact Hs | exact Hq]. done. }
  assert (Hseq : ∀ s c, heap st !! s = Some (StatesObj c) →
                        stateseq_at st2 s = Some (stateseq c)).
  { intros s c Hc.
    assert (Hf : stateseq_at st s = Some (stateseq c)).
    { unfold stateseq_at, states_at. by rewrite Hc. }
    rewrite <- Hf. apply Hrestored.
    destruct (decide (s ∈ l)) as [Hin|Hnin].
    - left. apply list_elem_of_lookup in Hin as (i & Hi).
      destruct (Forall2_lookup_l _ _ _ _ _ Hcur Hi) as (q & Hq & _).
      apply list_elem_of_fmap. exists (s, q). split; [done |].
      apply list_elem_of_lookup. exists i. apply lookup_zip_with_Some. by exists s, q.
    - right. unfold stateseq_at at 1, states_at. by rewrite (Hother _ _ Hnin Hc). }
  split; [| exists l; repeat split].
  - intros s o Hs.
    destruct (Hev1 _ _ Hs) as (o1 & Hs1 & Ho1).
    destruct (Hev2 _ _ Hs1) as (o2 & Hs2 & Ho2).
    exists o2. split; [done |].
    destruct o as [p|m pi|c|m], o1 as [p1|m1 pi1|c1|m1]; simpl in Ho1; try done;
      destruct o2 as [p2|m2 pi2|c2|m2]; simpl in Ho2; try done; simpl;
      try congruence.
    destruct Ho1 as (? & ? & ?), Ho2 as (? & ? & ? & ?).
    pose proof (Hseq _ _ Hs) as Hq. unfold stateseq_at, states_at in Hq.
    rewrite Hs2 in Hq. simpl in Hq. injection Hq as Hq.
    repeat split; congruence.
  - done.
  - unfold chains_at. unfold chains_at in Hl1.
    destruct (model_at st1 self) as [m|] eqn:Hm; [| done].
    unfold model_at in Hm. destruct (heap st1 !! self) as [[| | |m']|] eqn:Hself; try done.
    injection Hm as ->. destruct (Hev2 _ _ Hself) as (o2 & Hs2 & Ho2).
    simpl in Ho2. subst o2. unfold model_at. by rewrite Hs2.
  - eapply Forall2_impl; [| intros s q Hsq; exact Hsq].
    apply Forall2_same_length_lookup. split; [by eapply Forall2_length |].
    intros i s q Hs Hq.
    assert (Hin : s ∈ l) by (by eapply list_elem_of_lookup_2).
    destruct (Hdec s (or_introl Hin)) as (c & t & Hc & Ht & Hv).
    pose proof (Forall2_lookup_lr _ _ _ _ _ _ Hr Hs Hq) as Hsq.
    unfold stateseq_at, states_at in Hsq. rewrite Hc in Hsq. simpl in Hsq.
    injection Hsq as <-.
    destruct (Hev2 _ _ Hc) as (o2 & Hs2 & Ho2).
    destruct o2 as [| |c2|]; simpl in Ho2; try done.
    destruct Ho2 as (_ & _ & Ht2 & _).
    exists t. split; [| done]. exists c2. split; [done | congruence].
Qed.

End Decoding.

Section Attaching.
Context `{Collaborators}.

(** ** Attaching a chain *)

Lemma States_new_evolves self d seq temp kw :
  preserves (evolves chain_step) (States_new self d seq temp kw).
Proof.
  intros st. unfold States_new.
  destruct (states_init_check d kw); [reflexivity |].
  destruct seq as [q|]; [apply evolves_alloc; tc_solve |].
  apply run_bind; [tc_solve | apply evolves_alloc; tc_solve |]. intros s st1 _.
  apply run_bind; [tc_solve | apply States_resample_evolves |]. intros [] st2 _.
  reflexivity.
Qed.

(** The chain a constructor call returns: a new object, a chain of the
    model it was given, with the data and, when one was given, the state
    sequence of the call. *)
Lemma States_new_inv self d seq temp kw st s st' :
  States_new self d seq temp kw st = (Ok s, st') →
  s = length (heap st)
  ∧ ∃ c, heap st' !! s = Some (StatesObj c)
         ∧ model c = self ∧ data c = d ∧ kwargs c = kw
         ∧ ∀ q, seq = Some q → stateseq c = q ∧ tables c = None.
Proof.
  unfold States_new. destruct (states_init_check d kw); [done |].
  destruct seq as [q|].
  - intros [= <- <-]. split; [done |]. eexists. split.
    + simpl. by apply list_lookup_middle.
    + simpl. repeat split; by simplify_eq.
  - intros (s0 & st1 & [= <- <-] & E)%bind_inv.
    apply bind_inv in E as ([] & st2 & E2 & [= <- <-]). split; [done |].
    pose proof (States_resample_evolves (length (heap st)) temp
      (mkState (heap st ++ [StatesObj (mkStates self d [] None kw)]) (trace st) (rng st)))
      as Hev.
    rewrite E2 in Hev. simpl in Hev.
    destruct (Hev (length (heap st)) (StatesObj (mkStates self d [] None kw)))
      as (o' & Ho' & Hstep).
    { simpl. by apply list_lookup_middle. }
    destruct o' as [| |c|]; simpl in Hstep; try done.
    destruct Hstep as (? & ? & ?). exists c. repeat split; done.
Qed.

Lemma add_data_outcome st self m l d seq temp kw :
  heap st !! self = Some (ModelObj m) →
  states_list m = Some l →
  match add_data self d seq temp kw st with
  | (Ok _, st') =>
      chains_at st' self = Some (l ++ [length (heap st)])
      ∧ ∃ c, heap st' !! length (heap st) = Some (StatesObj c)
             ∧ model c = self ∧ data c = d ∧ kwargs c = kw
             ∧ ∀ q, seq = Some q → stateseq c = q ∧ tables c = None
  | (Raise _, st') => chains_at st' self = Some l
  end.
Proof.
  intros Hm Hl.
  assert (Hlt : self < length (heap st)) by (by eapply lookup_lt_Some).
  unfold add_data.
  rewrite (bind_ok _ _ _ _ _ (get_model_at _ _ _ Hm)), Hl, attr_Some, bind_ret.
  unfold bind at 1.
  pose proof (States_new_evolves self d seq temp kw st) as Hev.
  destruct (States_new self d seq temp kw st) as [[s|e] st1] eqn:E; simpl in Hev.
  2: { unfold chains_at. rewrite (evolves_model_at _ _ _ Hev).
       - unfold model_at. by rewrite Hm.
       - unfold model_at. rewrite Hm. by eexists. }
  destruct (Hev _ _ Hm) as (o' & Hm1 & Hstep).
  destruct o' as [| | |m1]; simpl in Hstep; try done. subst m1.
  apply States_new_inv in E as (-> & c & Hc & Hcm & Hcd & Hck & Hcq).
  rewrite (states_list_append_at _ _ _ _ _ Hm1 Hl). simpl. split.
  - unfold chains_at, model_at. simpl.
    rewrite list_lookup_insert_eq by (by eapply lookup_lt_Some). done.
  - exists c. rewrite list_lookup_insert_ne by lia. done.
Qed.

(** [add_data] on a model whose chains are [l]: when it returns, the chains
    of the model are [l] followed by one new chain, the object made last,
    which belongs to the model and holds the data and, when one was given,
    the state sequence of the call; when it raises (the chain class refused
    the arguments, or sampling a state sequence failed), the chains of the
    model are still [l]. *)
Theorem add_data_appends st self m l d seq temp kw r st' :
  heap st !! self = Some (ModelObj m) →
  states_list m = Some l →
  add_data self d seq temp kw st = (r, st') →
  if is_ok r then
    chains_at st' self = Some (l ++ [length (heap st)])
    ∧ ∃ c, states_at st' (length (heap st)) = Some c
           ∧ model c = self ∧ data c = d ∧ kwargs c = kw
           ∧ ∀ q, seq = Some q → stateseq c = q ∧ tables c = None
  else chains_at st' self = Some l.
Proof.
  intros Hm Hl E.
  pose proof (add_data_outcome st self m l d seq temp kw Hm Hl) as Hout.
  rewrite E in Hout. destruct r as [[]|e]; simpl; [| exact Hout].
  destruct Hout as (Hch & c & Hc & Hrest). split; [exact Hch |].
  exists c. unfold states_at. by rewrite Hc.
Qed.

(** [_state_sampler], the job a worker runs against the model it was
    pushed: whether it returns a state sequence or raises, the chains of
    the model are afterwards the ones it had before. *)
Theorem _state_sampler_keeps_chains st global_model temp d kw :
  chains_at (_state_sampler global_model temp d kw st).2 global_model
  = chains_at st global_model.
Proof.
  unfold _state_sampler.
  assert (Hfail : ∀ e, add_data global_model d None temp kw st = (Raise e, st) →
    chains_at
      ((add_data global_model d None temp kw ;;;
        s <- states_list_pop global_model ;;
        c <- get_states s ;; ret (stateseq c)) st).2 global_model
    = chains_at st global_model).
  { intros e E. by rewrite (bind_raise _ _ _ _ _ E). }
  destruct (heap st !! global_model) as [o|] eqn:Hself.
  2: { eapply Hfail. unfold add_data, get_model, get_obj, bind. by rewrite Hself. }
  destruct o as [p|mm pi|c|m].
  1-3: eapply Hfail; unfold add_data, get_model, get_obj, bind; by rewrite Hself.
  destruct (states_list m) as [l|] eqn:Hl.
  2: { eapply Hfail. unfold add_data.
       rewrite (bind_ok _ _ _ _ _ (get_model_at _ _ _ Hself)), Hl. done. }
  assert (Hst : chains_at st global_model = Some l).
  { unfold chains_at, model_at. by rewrite Hself. }
  pose proof (add_data_outcome st global_model m l d None temp kw Hself Hl) as Hadd.
  destruct (add_data global_model d None temp kw st) as [[[]|e] st1] eqn:E.
  2: { by rewrite (bind_raise _ _ _ _ _ E), Hst. }
  destruct Hadd as (Hch & _).
  rewrite (bind_ok _ _ _ _ _ E).
  unfold chains_at, model_at in Hch.
  destruct (heap st1 !! global_model) as [[| | |m1]|] eqn:Hm1; try done.
  simpl in Hch.
  rewrite (bind_ok _ _ _ _ _ (states_list_pop_at _ _ _ l _ Hm1 Hch)).
  set (st3 := mkState _ _ _).
  assert (Hr : reads (c <- get_states (length (heap st)) ;; ret (stateseq c))).
  { apply reads_bind; [apply reads_get_states | intros c; apply reads_ret]. }
  rewrite Hr, Hst. unfold chains_at, model_at, st3. simpl.
  rewrite list_lookup_insert_eq; [done |]. by eapply lookup_lt_Some.
Qed.

End Attaching.

Section Edges.
Context `{Collaborators}.

(** ** BIC on passed data *)

(** [BIC(data)] with an observation sequence fails the check
    [data is None and ...] whatever the model holds, and leaves the store
    as it was: the branch that scores passed data is never reached. *)
Theorem BIC_refuses_data st self m l d :
  heap st !! self = Some (ModelObj m) →
  states_list m = Some l →
  BIC self (Some d) st = (Raise (AssertionError "Must have data to get BIC"), st).
Proof.
  intros Hm Hl. unfold BIC.
  by rewrite (bind_ok _ _ _ _ _ (get_model_at _ _ _ Hm)), Hl, attr_Some, bind_ret.
Qed.

(** [BIC] raises on every store, for every model and with or without an
    observation sequence: no call of it returns a score. *)
Theorem BIC_always_raises st self d : ∃ e st', BIC self d st = (Raise e, st').
Proof.
  unfold BIC.
  destruct (get_model self st) as [[m|e] st0] eqn:Em.
  2: { rewrite (bind_raise _ _ _ _ _ Em). by eexists _, _. }
  apply get_model_inv in Em as [-> Hm].
  rewrite (bind_ok _ _ _ _ _ (get_model_at _ _ _ Hm)).
  destruct (states_list m) as [l|] eqn:Hl; [| by eexists _, _].
  rewrite attr_Some, bind_ret.
  destruct d as [d|]; [by eexists _, _ |].
  destruct (bool_decide (0 < length l)) eqn:Hlen; [| by eexists _, _].
  simpl negb. simpl andb. rewrite py_assert_true, bind_ret.
  unfold bind at 1.
  destruct (map_M _ l st) as [[xs|e] st1] eqn:E1; [| by eexists _, _].
  unfold bind at 1.
  destruct (num_parameters self st1) as [[v|e] st2] eqn:E2; [| by eexists _, _].
  destruct (num_parameters_returns_int _ _ _ _ E2) as [z ->].
  by eexists _, st2.
Qed.

(** ** Pickling *)

(** [__getstate__], when it returns: the attributes it returns are those of
    the model, which are as they were before the call; no chain of the
    model holds tables and its initial-state posterior holds no derived
    value; and the call has changed nothing but caches. *)
Theorem getstate_clears_caches st self d st' :
  __getstate__ self st = (Ok d, st') →
  model_at st self = Some d
  ∧ model_at st' self = Some d
  ∧ caches_cleared st' self
  ∧ evolves cache_step st st'.
Proof.
  unfold __getstate__.
  intros ([] & st1 & E1 & [Heq Hm]%get_model_inv)%bind_inv. subst st1.
  pose proof (_clear_caches_caches self st) as Hev. rewrite E1 in Hev. simpl in Hev.
  assert (Hm' : model_at st' self = Some d).
  { unfold model_at. by rewrite Hm. }
  repeat split; try done.
  - unfold _clear_caches in E1.
    apply bind_inv in E1 as (m & ? & [-> Hm0]%get_model_inv & _).
    destruct (Hev _ _ Hm0) as (o' & Ho' & Hstep). rewrite Hm in Ho'.
    injection Ho' as <-. simpl in Hstep. subst. unfold model_at. by rewrite Hm0.
  - by eapply _clear_caches_cleared.
Qed.

(** ** The parallel sweep without chains *)

(** On a model without chains, [resample_states_parallel] returns; the
    objects of the store and the record of collaborator calls are as they
    were. *)
Theorem resample_states_parallel_no_chains st self m temp :
  heap st !! self = Some (ModelObj m) →
  states_list m = Some [] →
  ∃ st', resample_states_parallel self temp st = (Ok (), st')
         ∧ heap st' = heap st ∧ trace st' = trace st.
Proof.
  intros Hm Hl. unfold resample_states_parallel.
  rewrite (bind_ok _ _ _ _ _ (get_model_at _ _ _ Hm)), Hl, attr_Some, bind_ret.
  assert (Hsame : set_states_list [] m = m) by (by apply set_states_list_same).
  assert (Hset : setattr self (set_states_list []) st = (Ok (), st)).
  { unfold setattr. rewrite (bind_ok _ _ _ _ _ (get_model_at _ _ _ Hm)), Hsame.
    unfold put_obj. rewrite list_insert_id by done. by destruct st. }
  rewrite (bind_ok _ _ _ _ _ Hset). simpl map_M. rewrite bind_ret.
  assert (Hk : ∃ ks, _get_parallel_kwargss self [] st = (Ok ks, st)
                     ∧ (ks = None ∨ ks = Some [])).
  { unfold _get_parallel_kwargss.
    rewrite (bind_ok _ _ _ _ _ (get_model_at _ _ _ Hm)).
    destruct (klass m); simpl; eauto. }
  destruct Hk as (ks & Ek & Hks). rewrite (bind_ok _ _ _ _ _ Ek).
  unfold bind at 1.
  assert (Hmap : map_on_each (_state_sampler self temp) [] ks st
                 = (Ok [], mkState (heap st) (trace st) (rng st + 0))).
  { by destruct Hks as [-> | ->]. }
  rewrite Hmap. simpl for_each. rewrite bind_ret.
  eexists. split.
  - unfold setattr, get_model, get_obj, bind. simpl. rewrite Hm. reflexivity.
  - simpl. rewrite Hsame, list_insert_id by done. done.
Qed.

End Edges.

Section NewModels.
Context `{Collaborators}.

(** ** What the constructors build *)

Global Instance keeps_others_preorder self : PreOrder (keeps_others self).
Proof.
  split.
  - intros st. by split.
  - intros st1 st2 st3 [Hl1 H1] [Hl2 H2]. split; [lia |].
    intros l Hne Hlt. rewrite H2 by (done || lia). by apply H1.
Qed.

Lemma setattr_inv self f st st' :
  setattr self f st = (Ok (), st') →
  ∃ m, heap st !! self = Some (ModelObj m)
       ∧ heap st' !! self = Some (ModelObj (f m))
       ∧ keeps_others self st st'.
Proof.
  unfold setattr.
  intros (m & [_ Hm]%get_model_inv & E)%bind_reads_inv; [| apply reads_get_model].
  injection E as <-. exists m. split; [done |]. simpl. split.
  - apply list_lookup_insert_eq. by eapply lookup_lt_Some.
  - split; simpl; [by rewrite length_insert |].
    intros l Hne _. by rewrite list_lookup_insert_ne.
Qed.

Lemma alloc_setattr_inv self o (g : loc → Model → Model) st st' :
  ¬ is_model o →
  (d <- alloc o ;; setattr self (g d)) st = (Ok (), st') →
  ∃ m, heap st !! self = Some (ModelObj m)
       ∧ heap st' !! self = Some (ModelObj (g (length (heap st)) m))
       ∧ heap st' !! length (heap st) = Some o
       ∧ keeps_others self st st'.
Proof.
  intros Ho (d & st1 & [= <- <-] & (m & Hm & Hm' & Hlen & Hk)%setattr_inv)%bind_inv.
  simpl in *.
  assert (Hlt : self < length (heap st)).
  { destruct (decide (self < length (heap st))) as [|Hge]; [done |].
    apply lookup_lt_Some in Hm as Hm2. rewrite length_app in Hm2. simpl in Hm2.
    assert (self = length (heap st)) as -> by lia.
    rewrite list_lookup_middle in Hm by done. injection Hm as ->. by destruct Ho. }
  exists m. rewrite lookup_app_l in Hm by done.
  split; [done |]. split; [done |]. split.
  - rewrite Hk; [by apply list_lookup_middle | lia |]. rewrite length_app. simpl. lia.
  - split; [rewrite length_app in Hlen; simpl in Hlen; lia |].
    intros l Hne Hl. rewrite Hk; [by rewrite lookup_app_l | done |].
    rewrite length_app. simpl. lia.
Qed.

Lemma keeps_others_lookup self st st' l o :
  keeps_others self st st' → heap st !! l = Some o → l ≠ self →
  heap st' !! l = Some o.
Proof.
  intros [_ Hk] Hl Hne. rewrite Hk; [done | done |]. by eapply lookup_lt_Some.
Qed.

(** What [HMM.__init__] leaves when it returns. *)
Lemma HMM___init___inv self a st st' m0 :
  heap st !! self = Some (ModelObj m0) →
  HMM___init__ self a st = (Ok (), st') →
  keeps_others self st st'
  ∧ ∃ t i,
      heap st' !! self
      = Some (ModelObj (set_init_state_distn i (set_trans_distn t
          (set_states_list [] (set_obs_distns (a_obs_distns a)
             (set_num_states (length (a_obs_distns a)) m0))))))
      ∧ match a_trans_distn a with
        | Some t0 => t = t0
        | None => length (heap st) ≤ t ∧ ∃ p, heap st' !! t = Some (Distn p)
        end
      ∧ match a_init_state_distn a, a_init_state_concentration a with
        | Some i0, _ => i = i0
        | None, Some rho =>
            length (heap st) ≤ i
            ∧ heap st' !! i
              = Some (Distn (new_initial_state (length (a_obs_distns a)) rho))
        | None, None =>
            length (heap st) ≤ i ∧ heap st' !! i = Some (SteadyState self None)
        end.
Proof.
  intros Hm0 E. unfold HMM___init__ in E.
  apply bind_inv in E as ([] & st1 & (m & Hm & Hm1 & K1)%setattr_inv & E).
  rewrite Hm0 in Hm. injection Hm as <-.
  apply bind_inv in E as ([] & st2 & (m & Hm & Hm2 & K2)%setattr_inv & E).
  rewrite Hm1 in Hm. injection Hm as <-.
  apply bind_inv in E as ([] & st3 & (m & Hm & Hm3 & K3)%setattr_inv & E).
  rewrite Hm2 in Hm. injection Hm as <-.
  apply bind_reads_inv in E as ([] & _ & E); [| apply reads_py_assert].
  apply bind_reads_inv in E as (m & [_ Hm]%get_model_inv & E); [| apply reads_get_model].
  rewrite Hm3 in Hm. injection Hm as <-.
  apply bind_reads_inv in E as (n & En & E); [| apply reads_attr].
  injection En as <-.
  apply bind_inv in E as ([] & st4 & E4 & E5).
  set (m3 := set_states_list [] _) in *.
  assert (K03 : keeps_others self st st3) by (etrans; [| exact K3]; by etrans).
  assert (∃ t, heap st4 !! self = Some (ModelObj (set_trans_distn t m3))
               ∧ keeps_others self st3 st4
               ∧ match a_trans_distn a with
                 | Some t0 => t = t0
                 | None => length (heap st) ≤ t ∧ t ≠ self
                           ∧ ∃ p, heap st4 !! t = Some (Distn p)
                 end) as (t & Hm4 & K4 & Ht).
  { destruct (a_trans_distn a) as [t0|].
    - apply setattr_inv in E4 as (m & Hm & Hm4 & K4).
      rewrite Hm3 in Hm. injection Hm as <-. by exists t0.
    - assert (Hlen : length (heap st) ≤ length (heap st3)) by apply K03.
      assert (Hne : length (heap st3) ≠ self).
      { apply lookup_lt_Some in Hm3. lia. }
      destruct (is_Some_b (a_alpha a));
        (apply alloc_setattr_inv in E4 as (m & Hm & Hm4 & Hnew & K4); [| by intros []]);
        rewrite Hm3 in Hm; injection Hm as <-;
        exists (length (heap st3));
        (split; [done |]; split; [exact K4 |]; split; [done |]; split; [done |];
         by eexists). }
  set (m4 := set_trans_distn t m3) in *.
  assert (K04 : keeps_others self st st4) by (by etrans).
  assert (∃ i, heap st' !! self = Some (ModelObj (set_init_state_distn i m4))
               ∧ keeps_others self st4 st'
               ∧ match a_init_state_distn a, a_init_state_concentration a with
                 | Some i0, _ => i = i0
                 | None, Some rho =>
                     length (heap st) ≤ i
                     ∧ heap st' !! i
                       = Some (Distn (new_initial_state (length (a_obs_distns a)) rho))
                 | None, None =>
                     length (heap st) ≤ i ∧ heap st' !! i = Some (SteadyState self None)
                 end) as (i & Hm5 & K5 & Hi).
  { assert (Hlen : length (heap st) ≤ length (heap st4)) by apply K04.
    destruct (a_init_state_distn a) as [i0|]; [| destruct (a_init_state_concentration a)].
    - apply setattr_inv in E5 as (m & Hm & Hm5 & K5).
      rewrite Hm4 in Hm. injection Hm as <-. by exists i0.
    - apply alloc_setattr_inv in E5 as (m & Hm & Hm5 & Hnew & K5); [| by intros []].
      rewrite Hm4 in Hm. injection Hm as <-. by exists (length (heap st4)).
    - apply alloc_setattr_inv in E5 as (m & Hm & Hm5 & Hnew & K5); [| by intros []].
      rewrite Hm4 in Hm. injection Hm as <-. by exists (length (heap st4)). }
  split; [by etrans |]. exists t, i. split; [done |]. split; [| done].
  destruct (a_trans_distn a) as [t0|]; [done |].
  destruct Ht as (Hle & Hne & p & Hp). split; [done |]. exists p.
  by eapply keeps_others_lookup.
Qed.

(** The model [HMM(...)] returns: a new object of the store, in which no
    object that was there before has changed.  It has one state for each
    observation posterior it was given, these posteriors, and no chain.
    A transition posterior that was passed is the one it gets, whatever
    else was passed; otherwise it gets a new one.  An initial-state
    posterior that was passed is the one it gets; otherwise a new one is
    built from the concentration, or, without a concentration, it gets a
    new derived initial state that refers back to the model. *)
Theorem HMM_new_attributes a st self st' :
  HMM_new a st = (Ok self, st') →
  self = length (heap st)
  ∧ (∀ l o, heap st !! l = Some o → heap st' !! l = Some o)
  ∧ ∃ m t i,
      heap st' !! self = Some (ModelObj m)
      ∧ klass m = HMM
      ∧ num_states m = Some (length (a_obs_distns a))
      ∧ obs_distns m = Some (a_obs_distns a)
      ∧ states_list m = Some []
      ∧ trans_distn m = Some t
      ∧ init_state_distn m = Some i
      ∧ match a_trans_distn a with
        | Some t0 => t = t0
        | None => self < t ∧ ∃ p, heap st' !! t = Some (Distn p)
        end
      ∧ match a_init_state_distn a, a_init_state_concentration a with
        | Some i0, _ => i = i0
        | None, Some rho =>
            self < i
            ∧ heap st' !! i
              = Some (Distn (new_initial_state (length (a_obs_distns a)) rho))
        | None, None => self < i ∧ heap st' !! i = Some (SteadyState self None)
        end.
Proof.
  unfold HMM_new, new_object.
  intros (s & st1 & [= <- <-] & E)%bind_inv.
  apply bind_inv in E as ([] & st2 & E & [= <- <-]).
  apply HMM___init___inv with (m0 := blank HMM) in E as (K & t & i & Hm & Ht & Hi).
  2: { simpl. by apply list_lookup_middle. }
  simpl in K, Ht, Hi. rewrite length_app in Ht, Hi. simpl in Ht, Hi.
  split; [done |]. split.
  - intros l o Hl. apply lookup_lt_Some in Hl as Hlt.
    eapply keeps_others_lookup; [exact K | | lia]. simpl. by rewrite lookup_app_l.
  - eexists _, t, i. split; [exact Hm |]. simpl. repeat split; try done.
    + destruct (a_trans_distn a); [done |]. destruct Ht as [? ?]. split; [lia | done].
    + destruct (a_init_state_distn a); [done |].
      destruct (a_init_state_concentration a); destruct Hi as [? ?]; (split; [lia | done]).
Qed.


End NewModels.

Section UsedStatesFacts.

(** ** The states in use *)

Lemma numbers_empty : numbers (mkDefaultdict ∅ 0) [].
Proof.
  split; [done |]. split; [constructor |]. intros k v. simpl.
  by rewrite lookup_empty, lookup_nil.
Qed.

Lemma numbers_canonical_id d ks x :
  numbers d ks → numbers (canonical_id d x) (add_key ks x).
Proof.
  intros (Hc & Hnd & Hl). unfold canonical_id, add_key.
  destruct (decide (x ∈ ks)) as [Hin|Hnin].
  - apply list_elem_of_lookup in Hin as (v & Hv). apply Hl in Hv. by rewrite Hv.
  - destruct (entries d !! x) as [v|] eqn:Hx.
    { apply Hl in Hx. by apply list_elem_of_lookup_2 in Hx. }
    split; [simpl; rewrite length_app; simpl; lia |]. split.
    { apply NoDup_app. split; [done |]. split; [| apply NoDup_singleton].
      intros y Hy ->%list_elem_of_singleton. done. }
    intros k v. simpl. destruct (decide (k = x)) as [->|Hne].
    + rewrite lookup_insert_eq. split.
      * intros [= <-]. rewrite Hc. by apply list_lookup_middle.
      * intros Hv. f_equal. rewrite Hc.
        destruct (decide (v < length ks)) as [Hlt|Hge].
        -- rewrite lookup_app_l in Hv by done. by apply list_elem_of_lookup_2 in Hv.
        -- apply lookup_lt_Some in Hv. rewrite length_app in Hv. simpl in Hv. lia.
    + rewrite lookup_insert_ne by done. rewrite Hl. split.
      * intros Hv. rewrite lookup_app_l; [done | by eapply lookup_lt_Some].
      * intros Hv. destruct (decide (v < length ks)) as [Hlt|Hge].
        -- by rewrite lookup_app_l in Hv.
        -- rewrite lookup_app_r in Hv by lia.
           destruct (v - length ks); simpl in Hv; [by simplify_eq | done].
Qed.

Lemma numbers_foldl l d ks :
  numbers d ks → numbers (foldl canonical_id d l) (foldl add_key ks l).
Proof.
  revert d ks. induction l as [|x l IH]; intros d ks Hn; [done |].
  simpl. by apply IH, numbers_canonical_id.
Qed.

Lemma foldl_concat {A B} (f : A → B → A) (a : A) (ls : list (list B)) :
  foldl (fun a l => foldl f a l) a ls = foldl f a (concat ls).
Proof.
  revert a. induction ls as [|l ls IH]; intros a; [done |].
  simpl. by rewrite foldl_app, IH.
Qed.

Lemma numbered_cons n k ks : numbered n (k :: ks) = (k, n) :: numbered (S n) ks.
Proof.
  unfold numbered. simpl. rewrite Nat.add_0_r. f_equal.
  apply imap_ext. intros i x _. simpl. f_equal. lia.
Qed.

Lemma elem_of_numbered n ks k v :
  (k, v) ∈ numbered n ks ↔ ∃ i, v = n + i ∧ ks !! i = Some k.
Proof.
  unfold numbered. rewrite elem_of_lookup_imap. split.
  - intros (i & x & [= -> ->] & Hx). by exists i.
  - intros (i & -> & Hi). by exists i, k.
Qed.

Lemma numbered_sorted n ks : StronglySorted by_value (numbered n ks).
Proof.
  revert n. induction ks as [|k ks IH]; intros n; [constructor |].
  rewrite numbered_cons. constructor; [apply IH |].
  apply Forall_forall. intros [k' v] (i & -> & _)%elem_of_numbered.
  unfold by_value. simpl. lia.
Qed.

Lemma numbered_fst n ks : (numbered n ks).*1 = ks.
Proof.
  revert n. induction ks as [|k ks IH]; intros n; [done |].
  rewrite numbered_cons. simpl. by rewrite IH.
Qed.

Lemma numbered_NoDup n ks : NoDup (numbered n ks).
Proof.
  revert n. induction ks as [|k ks IH]; intros n; [constructor |].
  rewrite numbered_cons. constructor; [| apply IH].
  intros (i & Hi & _)%elem_of_numbered. lia.
Qed.

Global Instance by_value_total : Total by_value.
Proof. intros x y. unfold by_value. lia. Qed.
Global Instance by_value_trans : Transitive by_value.
Proof. intros x y z. unfold by_value. lia. Qed.

(** Sorting the items of a dictionary that numbers [ks] gives the keys in
    the order of their numbers, whatever order the items come in. *)
Lemma sorted_items d ks (items : list (nat * nat)) :
  numbers d ks → items ≡ₚ map_to_list (entries d) →
  (sorted_by_value items).*1 = ks.
Proof.
  intros (Hc & Hnd & Hl) Hperm.
  assert (Hp : map_to_list (entries d) ≡ₚ numbered 0 ks).
  { apply NoDup_Permutation; [apply NoDup_map_to_list | apply numbered_NoDup |].
    intros [k v]. rewrite elem_of_map_to_list, Hl, elem_of_numbered. split.
    - intros Hv. by exists v.
    - by intros (i & -> & Hi). }
  assert (Hs : sorted_by_value items = numbered 0 ks).
  { apply (StronglySorted_unique_strong by_value).
    - intros [k1 v1] [k2 v2] H1 H2 H12 H21. unfold by_value in *. simpl in *.
      assert (v1 = v2) as <- by lia. f_equal.
      unfold sorted_by_value in H1. rewrite merge_sort_Permutation, Hperm, Hp in H1.
      apply elem_of_numbered in H1 as (i1 & -> & Hi1).
      apply elem_of_numbered in H2 as (i2 & Hi & Hi2).
      assert (i1 = i2) as <- by lia. congruence.
    - apply StronglySorted_merge_sort; tc_solve.
    - apply numbered_sorted.
    - unfold sorted_by_value. by rewrite merge_sort_Permutation, Hperm. }
  rewrite Hs. apply numbered_fst.
Qed.

Lemma filter_not_elem_of_snoc (ks l : list nat) x :
  filter (fun y => y ∉ ks ++ [x]) l = filter (fun y => y ∉ ks) (filter (fun y => y ≠ x) l).
Proof.
  rewrite list_filter_filter. apply list_filter_iff. intros y.
  rewrite not_elem_of_app, list_elem_of_singleton. tauto.
Qed.

Lemma foldl_add_key l ks :
  foldl add_key ks l = ks ++ filter (fun y => y ∉ ks) (distinct_in_order l).
Proof.
  revert ks. induction l as [|x l IH]; intros ks.
  { simpl. by rewrite app_nil_r. }
  simpl. rewrite IH. unfold add_key. destruct (decide (x ∈ ks)) as [Hin|Hnin].
  - rewrite filter_cons_False by (by intros ?). f_equal.
    rewrite list_filter_filter. apply list_filter_iff. intros y. split; [| tauto].
    intros Hy. split; [done |]. by intros ->.
  - rewrite filter_cons_True by done. rewrite <- app_assoc. simpl. do 2 f_equal.
    apply filter_not_elem_of_snoc.
Qed.

Lemma filter_all (l : list nat) : filter (fun y => y ∉ @nil nat) l = l.
Proof.
  induction l as [|x l IH]; [done |].
  rewrite filter_cons_True by apply not_elem_of_nil. by rewrite IH.
Qed.

Lemma distinct_in_order_spec l :
  NoDup (distinct_in_order l) ∧ ∀ x, x ∈ distinct_in_order l ↔ x ∈ l.
Proof.
  induction l as [|x l [IHn IHe]]; simpl.
  { split; [constructor | done]. }
  split.
  - constructor; [| by apply NoDup_filter].
    rewrite list_elem_of_filter. by intros [? _].
  - intros y. rewrite !elem_of_cons, list_elem_of_filter, IHe.
    destruct (decide (y = x)); tauto.
Qed.

Lemma elem_of_concat (x : nat) (ls : list (list nat)) :
  x ∈ concat ls ↔ ∃ l, l ∈ ls ∧ x ∈ l.
Proof.
  induction ls as [|l ls IH]; simpl.
  - split; [by intros ?%elem_of_nil | by intros (? & ?%elem_of_nil & _)].
  - rewrite elem_of_app, IH. split.
    + intros [Hx | (l' & Hl' & Hx)].
      * exists l. split; [left | done].
      * exists l'. split; [by right | done].
    + intros (l' & [-> | Hl']%elem_of_cons & Hx); [by left | right; by exists l'].
Qed.

Lemma used_states_characterised (stateseqs : list (list nat)) :
  used_states stateseqs = distinct_in_order (concat stateseqs)
  ∧ NoDup (used_states stateseqs)
  ∧ ∀ state, state ∈ used_states stateseqs ↔ ∃ seq, seq ∈ stateseqs ∧ state ∈ seq.
Proof.
  assert (E : used_states stateseqs = distinct_in_order (concat stateseqs)).
  { unfold used_states. rewrite foldl_concat.
    erewrite sorted_items; [| apply numbers_foldl, numbers_empty | done].
    rewrite foldl_add_key. simpl. apply filter_all. }
  rewrite E. destruct (distinct_in_order_spec (concat stateseqs)) as [Hn He].
  split; [done |]. split; [done |].
  intros state. rewrite He. apply elem_of_concat.
Qed.

(** [_get_used_states] gives the distinct states of the state sequences,
    each once, in the order in which they first occur when the sequences
    are read one after the other; this does not depend on the order in
    which the dictionary keeps its items. *)
Theorem used_states_in_order_of_first_use (stateseqs : list (list nat)) :
  used_states stateseqs = distinct_in_order (concat stateseqs)
  ∧ NoDup (used_states stateseqs)
  ∧ ∀ state, state ∈ used_states stateseqs ↔ ∃ seq, seq ∈ stateseqs ∧ state ∈ seq.
Proof.
  destruct (used_states_characterised stateseqs) as (Heq & Hnd & Hin).
  split; [exact Heq |]. split; [exact Hnd |]. intros state. apply Hin.
Qed.

End UsedStatesFacts.

Section ColourFacts.

(** ** The colours of the states *)

Lemma dict_zip_foldl_other (d : gmap nat Q) ks (vs : list Q) k :
  k ∉ ks →
  foldl (fun d kv => <[kv.1 := kv.2]> d) d (zip ks vs) !! k = d !! k.
Proof.
  revert d vs. induction ks as [|x ks IH]; intros d [|v vs] Hk; try done.
  apply not_elem_of_cons in Hk as [Hne Hk]. simpl.
  rewrite IH by done. by rewrite lookup_insert_ne.
Qed.

Lemma dict_zip_foldl_at (d : gmap nat Q) ks (vs : list Q) i k v :
  NoDup ks → ks !! i = Some k → vs !! i = Some v →
  foldl (fun d kv => <[kv.1 := kv.2]> d) d (zip ks vs) !! k = Some v.
Proof.
  revert d vs i. induction ks as [|x ks IH]; intros d [|y vs] [|i] Hnd Hk Hv;
    simplify_eq/=; apply NoDup_cons in Hnd as [Hx Hnd].
  - rewrite dict_zip_foldl_other by done. by rewrite lookup_insert_eq.
  - by eapply IH.
Qed.

Lemma dict_zip_lookup ks (vs : list Q) i k v :
  NoDup ks → ks !! i = Some k → vs !! i = Some v → dict_zip ks vs !! k = Some v.
Proof. apply dict_zip_foldl_at. Qed.

Lemma dict_zip_keys ks (vs : list Q) k :
  is_Some (dict_zip ks vs !! k) → k ∈ ks.
Proof.
  intros Hk. destruct (decide (k ∈ ks)) as [|Hnot]; [done |].
  unfold dict_zip in Hk. rewrite dict_zip_foldl_other in Hk by done.
  rewrite lookup_empty in Hk. by destruct Hk.
Qed.

Lemma length_linspace a b n : length (linspace a b n) = n.
Proof.
  destruct n as [|[|n]]; [done | done |]. unfold linspace.
  by rewrite length_insert, length_map, length_seq.
Qed.

(** The entries of [np.linspace(0,1,n)]: evenly spaced from 0 to 1. *)
Lemma linspace_lookup n i :
  i < n →
  ∃ c, linspace 0 1 n !! i = Some c
       ∧ (c == if decide (n = 1%nat) then 0
               else inject_Z (Z.of_nat i) / inject_Z (Z.of_nat (n - 1)))%Q.
Proof.
  intros Hi. destruct n as [|[|n]]; [lia | |].
  - destruct i; [| lia]. exists 0%Q. split; [done |]. by rewrite decide_True.
  - rewrite decide_False by lia. unfold linspace.
    set (num := S (S n)) in *.
    assert (Hnz : ¬ (inject_Z (Z.of_nat (num - 1)) == 0)%Q).
    { unfold Qeq, inject_Z. simpl. lia. }
    destruct (decide (i = num - 1)) as [-> | Hne].
    + exists 1%Q. split.
      * apply list_lookup_insert_eq. rewrite length_map, length_seq. lia.
      * field_simplify_eq; [done | done].
    + eexists. split.
      * rewrite list_lookup_insert_ne by lia.
        rewrite list_lookup_fmap, lookup_seq_lt by done. reflexivity.
      * simpl. field. done.
Qed.

Lemma colors_of_lookup (stateseqs : list (list nat)) :
  (∀ state, is_Some (colors_of stateseqs !! state) ↔ state ∈ used_states stateseqs)
  ∧ ∀ i state, used_states stateseqs !! i = Some state →
      ∃ c, colors_of stateseqs !! state = Some c
           ∧ (c == if decide (length (used_states stateseqs) = 1%nat) then 0
                   else inject_Z (Z.of_nat i)
                        / inject_Z (Z.of_nat (length (used_states stateseqs) - 1)))%Q.
Proof.
  destruct (used_states_characterised stateseqs) as (_ & Hnd & _).
  assert (Hat : ∀ i state, used_states stateseqs !! i = Some state →
      ∃ c, colors_of stateseqs !! state = Some c
           ∧ (c == if decide (length (used_states stateseqs) = 1%nat) then 0
                   else inject_Z (Z.of_nat i)
                        / inject_Z (Z.of_nat (length (used_states stateseqs) - 1)))%Q).
  { intros i state Hi.
    destruct (linspace_lookup (length (used_states stateseqs)) i) as (c & Hc & Hval).
    { by eapply lookup_lt_Some. }
    exists c. split; [| done]. unfold colors_of. by eapply dict_zip_lookup. }
  split; [| exact Hat].
  intros state. split.
  - apply dict_zip_keys.
  - intros (i & Hi)%list_elem_of_lookup.
    destruct (Hat i state Hi) as (c & Hc & _). by exists c.
Qed.

(** [_get_colors] gives a colour to the states in use and to no other
    state.  The colours are evenly spaced from 0 to 1 in the order in
    which the states first occur: the state at place [i] of [n] has the
    colour [i/(n-1)], and a single state has the colour 0. *)
Theorem colors_of_used_states (stateseqs : list (list nat)) :
  (∀ state, is_Some (colors_of stateseqs !! state) ↔ state ∈ used_states stateseqs)
  ∧ ∀ i state, used_states stateseqs !! i = Some state →
      ∃ c, colors_of stateseqs !! state = Some c
           ∧ (c == if decide (length (used_states stateseqs) = 1%nat) then 0
                   else inject_Z (Z.of_nat i)
                        / inject_Z (Z.of_nat (length (used_states stateseqs) - 1)))%Q.
Proof.
  destruct (colors_of_lookup stateseqs) as [Hdom Hat]. split.
  - intros state. apply Hdom.
  - intros i state Hi. apply Hat, Hi.
Qed.

End ColourFacts.

Section PlotFacts.
Context `{Collaborators}.

(** ** Plotting the observation posteriors *)

(** The states of the posteriors that are plotted: those in use, in the
    order of the posteriors. *)
Lemma plot_each_plotted (colors : gmap nat Q) used states_objs distns :
  (∀ state, state ∈ used → is_Some (colors !! state)) →
  ∃ calls,
    plot_each colors used states_objs distns = Plotted calls
    ∧ plot_state <$> calls = filter (fun state => state ∈ used) distns.*1
    ∧ Forall (fun c => colors !! plot_state c = Some (plot_color c)) calls.
Proof.
  intros Hcolors. induction distns as [|[state o] distns (calls & E & Hstates & Hcols)].
  - by exists [].
  - simpl. destruct (decide (state ∈ used)) as [Hin|Hnot].
    + destruct (Hcolors state Hin) as [c Hc]. rewrite Hc, E.
      eexists. split; [done |]. split.
      * rewrite filter_cons_True by done. rewrite fmap_cons. simpl.
        f_equal. exact Hstates.
      * by constructor.
    + rewrite E. exists calls. split; [done |]. split; [| done].
      by rewrite filter_cons_False.
Qed.

Lemma enumerate_fst {A} (l : list A) : (enumerate l).*1 = seq 0 (length l).
Proof.
  unfold enumerate. apply list_eq. intros i.
  rewrite list_lookup_fmap, list_lookup_imap.
  destruct (l !! i) as [x|] eqn:Hx; simpl.
  - rewrite lookup_seq_lt; [done | by eapply lookup_lt_Some].
  - rewrite lookup_seq_ge; [done | by apply lookup_ge_None].
Qed.

(** A dictionary of colours that misses a state in use makes
    [plot_observations] fail with [KeyError]. *)
Lemma plot_each_KeyError (colors : gmap nat Q) used states_objs distns state :
  state ∈ distns.*1 → state ∈ used → colors !! state = None →
  ∃ k, plot_each colors used states_objs distns = KeyError k.
Proof.
  intros Hd Hu Hc. induction distns as [|[s o] distns IH]; [by apply elem_of_nil in Hd |].
  simpl in *. apply elem_of_cons in Hd as [<- | Hd].
  - rewrite decide_True by done. rewrite Hc. by eexists.
  - destruct (IH Hd) as [k Ek]. rewrite Ek.
    destruct (decide (s ∈ used)); [| by eexists].
    destruct (colors !! s); by eexists.
Qed.

(** [plot_observations] with the colours it computes itself never fails on
    a missing colour: it plots the posterior of every state below
    [len(obs_distns)] that the chains use, in the order of the states, each
    in the colour of its state, and no other posterior.  With colours that
    were passed in, it fails with [KeyError] when they miss such a state. *)
Theorem plot_observations_plots_used_states obs_distns states_list states_objs :
  let chains := default states_list states_objs in
  let used := used_states (stateseq <$> chains) in
  (∃ calls,
     plot_observations obs_distns states_list None states_objs = Plotted calls
     ∧ plot_state <$> calls
       = filter (fun state => state ∈ used) (seq 0 (length obs_distns))
     ∧ Forall (fun c => colors_of (stateseq <$> chains) !! plot_state c
                        = Some (plot_color c)) calls)
  ∧ ∀ colors state,
      state < length obs_distns → state ∈ used → colors !! state = None →
      ∃ k, plot_observations obs_distns states_list (Some colors) states_objs
           = KeyError k.
Proof.
  intros chains used. split.
  - unfold plot_observations. simpl. fold chains. fold used.
    rewrite <- (enumerate_fst obs_distns).
    apply plot_each_plotted. intros state Hs.
    by apply (colors_of_lookup (stateseq <$> chains)).
  - intros colors state Hlt Hu Hc. unfold plot_observations. simpl. fold chains.
    apply plot_each_KeyError with state; [| done | done].
    rewrite enumerate_fst. apply list_elem_of_lookup. exists state.
    by rewrite lookup_seq_lt.
Qed.

Lemma plot_chains_plotted obs_distns states_list (colors : gmap nat Q) chains :
  (∀ s state, s ∈ chains → state ∈ used_states [stateseq s] →
              is_Some (colors !! state)) →
  ∃ calls, plot_chains obs_distns states_list colors chains = Plotted calls
           ∧ Forall (fun c => colors !! plot_state c = Some (plot_color c)) calls.
Proof.
  intros Hcolors. induction chains as [|s chains IH]; [by exists [] |].
  simpl. unfold plot_observations. simpl.
  destruct (plot_each_plotted colors (used_states [stateseq s]) [s] (enumerate obs_distns))
    as (calls & E & _ & Hc).
  { intros state Hs. apply (Hcolors s); [left | done]. }
  rewrite E.
  destruct IH as (calls' & E' & Hc').
  { intros s' state Hs'. apply Hcolors. by right. }
  rewrite E'. eexists. split; [done |]. by apply Forall_app.
Qed.

(** [plot] never fails on a missing colour: the colours it computes from
    all the chains of the model cover the states of each chain. *)
Theorem plot_never_misses_a_colour obs_distns states_list :
  ∃ calls,
    plot obs_distns states_list = Plotted calls
    ∧ Forall (fun c => colors_of (stateseq <$> states_list) !! plot_state c
                       = Some (plot_color c)) calls.
Proof.
  unfold plot. apply plot_chains_plotted. intros s state Hs Hstate.
  apply (colors_of_lookup (stateseq <$> states_list)).
  apply (used_states_characterised (stateseq <$> states_list)).
  apply (used_states_characterised [stateseq s]) in Hstate
    as (seq & ->%list_elem_of_singleton & Hin).
  exists (stateseq s). split; [| done]. apply list_elem_of_fmap. by exists s.
Qed.

End PlotFacts.

Section GenerationFacts.
Context `{Generators}.

(** ** Generating data *)

Global Instance same_heap_preorder : PreOrder same_heap.
Proof.
  split.
  - by intros st.
  - intros st1 st2 st3 H12 H23. unfold same_heap in *. congruence.
Qed.

Lemma pi_0_same_size d : preserves same_size (pi_0 d).
Proof.
  intros st. unfold pi_0.
  apply run_read; [tc_solve | apply reads_get_obj |]. intros o _.
  destruct o as [p|m [pi|]|c|m]; try reflexivity.
  apply run_read; [tc_solve | apply reads_get_model |]. intros mo _.
  apply run_read; [tc_solve | apply reads_attr |]. intros t _.
  apply run_read; [tc_solve | apply reads_get_distn |]. intros A _.
  apply run_read; [tc_solve | |].
  { destruct (dur_distns mo); [apply reads_map_M, reads_get_distn | apply reads_ret]. }
  intros durs _.
  apply run_bind; [tc_solve | |].
  - unfold same_size. simpl. apply length_insert.
  - intros [] st1 _. reflexivity.
Qed.

Lemma States_generate_obs_heap s : preserves same_heap (States_generate_obs s).
Proof.
  unfold States_generate_obs.
  apply preserves_bind; [tc_solve | | intros c].
  { apply reads_preserves; [tc_solve | apply reads_get_states]. }
  apply preserves_bind; [tc_solve | | intros mo].
  { apply reads_preserves; [tc_solve | apply reads_get_model]. }
  apply preserves_bind; [tc_solve | | intros os].
  { apply reads_preserves; [tc_solve | apply reads_attr]. }
  apply preserves_bind; [tc_solve | | intros obs].
  { apply reads_preserves; [tc_solve | apply reads_map_M, reads_get_distn]. }
  apply preserves_bind; [tc_solve | by intros st | intros n].
  apply reads_preserves; [tc_solve | apply reads_lift].
Qed.

Lemma States_new_from_prior_caches self T kw :
  preserves (evolves cache_step) (States_new_from_prior self T kw).
Proof.
  unfold States_new_from_prior.
  apply preserves_bind; [tc_solve | | intros mo].
  { apply reads_preserves; [tc_solve | apply reads_get_model]. }
  apply preserves_bind; [tc_solve | | intros t].
  { apply reads_preserves; [tc_solve | apply reads_attr]. }
  apply preserves_bind; [tc_solve | | intros A].
  { apply reads_preserves; [tc_solve | apply reads_get_distn]. }
  apply preserves_bind; [tc_solve | | intros i].
  { apply reads_preserves; [tc_solve | apply reads_attr]. }
  apply preserves_bind; [tc_solve | apply pi_0_caches | intros pi].
  apply preserves_bind; [tc_solve | | intros durs].
  { apply reads_preserves; [tc_solve |].
    destruct (dur_distns mo); [apply reads_map_M, reads_get_distn | apply reads_ret]. }
  apply preserves_bind; [tc_solve | apply evolves_draw; tc_solve | intros n].
  apply preserves_bind; [tc_solve | | intros q].
  { apply reads_preserves; [tc_solve | apply reads_lift]. }
  intros st. apply evolves_alloc; tc_solve.
Qed.

(** The chain a generating constructor call returns: the object made last,
    a chain of the model without data and without tables. *)
Lemma States_new_from_prior_inv self T kw st s st1 :
  States_new_from_prior self T kw st = (Ok s, st1) →
  s = length (heap st)
  ∧ ∃ q, heap st1 !! s = Some (StatesObj (mkStates self [] q None kw)).
Proof.
  unfold States_new_from_prior.
  intros (mo & Emo & E)%bind_reads_inv; [| apply reads_get_model].
  apply bind_reads_inv in E as (t & _ & E); [| apply reads_attr].
  apply bind_reads_inv in E as (A & _ & E); [| apply reads_get_distn].
  apply bind_reads_inv in E as (i & _ & E); [| apply reads_attr].
  apply bind_inv in E as (pi & st2 & Epi & E).
  pose proof (pi_0_same_size i st) as Hlen. rewrite Epi in Hlen. simpl in Hlen.
  unfold same_size in Hlen.
  apply bind_reads_inv in E as (durs & _ & E).
  2: { destruct (dur_distns mo); [apply reads_map_M, reads_get_distn | apply reads_ret]. }
  apply bind_inv in E as (n & st3 & [= <- <-] & E).
  apply bind_reads_inv in E as (q & _ & E); [| apply reads_lift].
  injection E as <- <-. simpl. split; [done |]. exists q.
  by apply list_lookup_middle.
Qed.

Lemma _generate_outcome self m l s c keep st r st' :
  heap st !! self = Some (ModelObj m) →
  states_list m = Some l →
  heap st !! s = Some (StatesObj c) →
  _generate self s keep st = (r, st') →
  match r with
  | Ok (obs, labels) =>
      labels = stateseq c
      ∧ (∀ x, x ≠ self → x ≠ s → heap st' !! x = heap st !! x)
      ∧ if keep then
          chains_at st' self = Some (l ++ [s])
          ∧ heap st' !! s = Some (StatesObj (set_data obs c))
        else heap st' = heap st
  | Raise _ => heap st' = heap st
  end.
Proof.
  intros Hm Hl Hs. unfold _generate.
  assert (Hne : s ≠ self) by (intros ->; congruence).
  unfold bind at 1.
  pose proof (States_generate_obs_heap s st) as Hheap. unfold same_heap in Hheap.
  destruct (States_generate_obs s st) as [[obs|e] st1]; simpl in Hheap.
  2: { by intros [= <- <-]. }
  assert (Hs1 : heap st1 !! s = Some (StatesObj c)) by (by rewrite Hheap).
  assert (Hm1 : heap st1 !! self = Some (ModelObj m)) by (by rewrite Hheap).
  rewrite (bind_ok _ _ _ _ _ (get_states_at _ _ _ Hs1)).
  destruct keep.
  - set (st2 := mkState (<[s := StatesObj (set_data obs c)]> (heap st1)) (trace st1) (rng st1)).
    assert (E1 : States_set_data s obs st1 = (Ok (), st2)).
    { unfold States_set_data. by rewrite (bind_ok _ _ _ _ _ (get_states_at _ _ _ Hs1)). }
    assert (Hm2 : heap st2 !! self = Some (ModelObj m)).
    { simpl. by rewrite list_lookup_insert_ne. }
    pose proof (states_list_append_at _ _ _ _ s Hm2 Hl) as E2.
    assert (E12 : (States_set_data s obs ;;; states_list_append self s) st1
                  = (Ok (), (states_list_append self s st2).2)).
    { rewrite (bind_ok _ _ _ _ _ E1). by rewrite E2. }
    rewrite (bind_ok _ _ _ _ _ E12), E2. simpl.
    intros [= <- <-]. split; [done |]. split; [| split].
    + intros x Hx1 Hx2. simpl. by rewrite !list_lookup_insert_ne, Hheap.
    + unfold chains_at, model_at. simpl.
      rewrite list_lookup_insert_eq; [done |].
      rewrite length_insert. rewrite Hheap. by eapply lookup_lt_Some.
    + simpl. rewrite list_lookup_insert_ne by done.
      apply list_lookup_insert_eq. rewrite Hheap. by eapply lookup_lt_Some.
  - simpl. rewrite !bind_ret. intros [= <- <-]. by repeat split; rewrite ?Hheap.
Qed.

Lemma generate_with st self m l T keep kw r st' :
  heap st !! self = Some (ModelObj m) →
  states_list m = Some l →
  (tempstates <- States_new_from_prior self T kw ;; _generate self tempstates keep) st
  = (r, st') →
  match r with
  | Ok (obs, labels) =>
      ∃ c, states_at st' (length (heap st)) = Some c
           ∧ model c = self ∧ kwargs c = kw ∧ stateseq c = labels
           ∧ if keep then chains_at st' self = Some (l ++ [length (heap st)]) ∧ data c = obs
             else chains_at st' self = Some l ∧ data c = []
  | Raise _ => chains_at st' self = Some l
  end.
Proof.
  intros Hm Hl. unfold bind at 1.
  pose proof (States_new_from_prior_caches self T kw st) as Hev.
  destruct (States_new_from_prior self T kw st) as [[s|e] st1] eqn:E; simpl in Hev.
  2: { intros [= <- <-]. destruct (Hev _ _ Hm) as (o' & Ho' & Hstep).
       destruct o'; simpl in Hstep; try done. subst.
       unfold chains_at, model_at. by rewrite Ho'. }
  apply States_new_from_prior_inv in E as (-> & q & Hs).
  assert (Hm1 : heap st1 !! self = Some (ModelObj m)).
  { destruct (Hev _ _ Hm) as (o' & Ho' & Hstep).
    destruct o'; simpl in Hstep; try done. by subst. }
  intros E. pose proof (_generate_outcome _ _ _ _ _ _ _ _ _ Hm1 Hl Hs E) as Hout.
  destruct r as [[obs labels]|e].
  - destruct Hout as (-> & Hother & Hkeep). destruct keep.
    + destruct Hkeep as [Hch Hc]. eexists. unfold states_at. rewrite Hc. by repeat split.
    + exists (mkStates self [] q None kw). unfold states_at, chains_at, model_at.
      rewrite Hkeep, Hs, Hm1. by repeat split.
  - unfold chains_at, model_at. by rewrite Hout, Hm1.
Qed.

(** [generate(T,keep)] on a model whose chains are [l].  When it returns
    observations and labels, the chain it has built is the object made
    last; it belongs to the model and its state sequence is the labels.
    With [keep] the chain holds the observations as its data and is the new
    last chain of the model; without [keep] the chains of the model are
    still [l].  When it raises, the chains of the model are still [l];
    [HSMMPossibleChangepoints] always raises [NotImplementedError] and
    leaves the store as it was. *)
Theorem generate_attaches st self m l T keep kw r st' :
  heap st !! self = Some (ModelObj m) →
  states_list m = Some l →
  generate self T keep kw st = (r, st') →
  match r with
  | Ok (obs, labels) =>
      klass m ≠ HSMMPossibleChangepoints
      ∧ ∃ c, states_at st' (length (heap st)) = Some c
             ∧ model c = self ∧ stateseq c = labels
             ∧ if keep then chains_at st' self = Some (l ++ [length (heap st)])
                            ∧ data c = obs
               else chains_at st' self = Some l ∧ data c = []
  | Raise e =>
      chains_at st' self = Some l
      ∧ (klass m = HSMMPossibleChangepoints →
         e = NotImplementedError no_message ∧ st' = st)
  end.
Proof.
  intros Hm Hl. unfold generate.
  rewrite (bind_ok _ _ _ _ _ (get_model_at _ _ _ Hm)).
  assert (Hst : chains_at st self = Some l).
  { unfold chains_at, model_at. by rewrite Hm. }
  destruct (klass m) eqn:Hk.
  5: { intros [= <- <-]. split; [done |]. by intros _. }
  all: intros E; pose proof (generate_with _ _ _ _ _ _ _ _ _ Hm Hl E) as Hout;
    destruct r as [[obs labels]|e]; [| by split].
  all: split; [done |]; destruct Hout as (c & Hc & Hmodel & _ & Hseq & Hkeep);
    by exists c.
Qed.

End GenerationFacts.

(** ** More properties on the stores of [Demo] and [DemoMore] *)

Module DemoMoreFacts.
Import Demo DemoMore.
#[local] Existing Instance demo.
#[local] Existing Instance demo_generators.

Lemma resample_states_parallel_outcome_witness :
  (heap hmm_store2 !! hmm
   = Some (ModelObj (mkModel HMM (Some 2) (Some [0; 1]) (Some [6; 7]) (Some 4) (Some 5)
                             None None))
   ∧ Forall (is_chain hmm_store2) [6; 7])
  ∧ ∃ pushed datas kwargss,
      setattr hmm (set_states_list []) hmm_store2 = (Ok (), pushed)
      ∧ map_M _get_parallel_data [6; 7] pushed = (Ok datas, pushed)
      ∧ _get_parallel_kwargss hmm [6; 7] pushed = (Ok kwargss, pushed)
      ∧ match (map_on_each (_state_sampler hmm None) datas kwargss pushed).1 with
        | Raise e =>
            ∃ st', resample_states_parallel hmm None hmm_store2 = (Raise e, st')
                   ∧ heap st' = heap pushed
                   ∧ chains_at st' hmm = Some []
                   ∧ ∀ s, s ≠ hmm → heap st' !! s = heap hmm_store2 !! s
        | Ok raw =>
            ∃ st', resample_states_parallel hmm None hmm_store2 = (Ok (), st')
                   ∧ chains_at st' hmm = Some [6; 7]
                   ∧ Forall (is_chain st') [6; 7]
                   ∧ (NoDup [6; 7] →
                      Forall2 (fun s q => stateseq_at st' s = Some q) [6; 7] raw)
        end.
Proof.
  assert (Hm : heap hmm_store2 !! hmm
    = Some (ModelObj (mkModel HMM (Some 2) (Some [0; 1]) (Some [6; 7]) (Some 4) (Some 5)
                              None None))) by reflexivity.
  assert (Hc : Forall (is_chain hmm_store2) [6; 7]).
  { repeat constructor; eexists; reflexivity. }
  split; [by split |].
  exact (resample_states_parallel_outcome hmm_store2 hmm _ [6; 7] None Hm eq_refl Hc).
Defined.

Lemma Viterbi_stateseqs_restores_witness :
  Viterbi_stateseqs hmm hmm_store
  = (Ok [[1; 0; 1]], (Viterbi_stateseqs hmm hmm_store).2)
  ∧ evolves cache_step hmm_store (Viterbi_stateseqs hmm hmm_store).2
  ∧ ∃ l, chains_at hmm_store hmm = Some l
         ∧ chains_at (Viterbi_stateseqs hmm hmm_store).2 hmm = Some l
         ∧ Forall2 (fun s q => ∃ t, cached (Viterbi_stateseqs hmm hmm_store).2 s t
                                    ∧ q = states_viterbi t) l [[1; 0; 1]].
Proof.
  assert (E : Viterbi_stateseqs hmm hmm_store
              = (Ok [[1; 0; 1]], (Viterbi_stateseqs hmm hmm_store).2))
    by (vm_compute; reflexivity).
  split; [exact E |].
  exact (Viterbi_stateseqs_restores hmm_store hmm _ _ E).
Defined.

Lemma add_data_appends_witness :
  (heap hmm_store0 !! hmm
   = Some (ModelObj (mkModel HMM (Some 2) (Some [0; 1]) (Some []) (Some 4) (Some 5)
                             None None))
   ∧ add_data hmm [1; 2; 3]%Z (Some [0; 1; 0]) None false hmm_store0 = (Ok (), hmm_store))
  ∧ chains_at hmm_store hmm = Some ([] ++ [length (heap hmm_store0)])
  ∧ ∃ c, states_at hmm_store (length (heap hmm_store0)) = Some c
         ∧ model c = hmm ∧ data c = [1; 2; 3]%Z ∧ kwargs c = false
         ∧ ∀ q, Some [0; 1; 0] = Some q → stateseq c = q ∧ tables c = None.
Proof.
  assert (Hm : heap hmm_store0 !! hmm
    = Some (ModelObj (mkModel HMM (Some 2) (Some [0; 1]) (Some []) (Some 4) (Some 5)
                              None None))) by reflexivity.
  assert (E : add_data hmm [1; 2; 3]%Z (Some [0; 1; 0]) None false hmm_store0
              = (Ok (), hmm_store)) by (vm_compute; reflexivity).
  split; [by split |].
  exact (add_data_appends hmm_store0 hmm _ [] _ _ None false _ _ Hm eq_refl E).
Defined.

Lemma BIC_refuses_data_witness :
  heap hmm_store !! hmm
  = Some (ModelObj (mkModel HMM (Some 2) (Some [0; 1]) (Some [6]) (Some 4) (Some 5)
                            None None))
  ∧ BIC hmm (Some [1; 2]%Z) hmm_store
    = (Raise (AssertionError "Must have data to get BIC"), hmm_store).
Proof.
  assert (Hm : heap hmm_store !! hmm
    = Some (ModelObj (mkModel HMM (Some 2) (Some [0; 1]) (Some [6]) (Some 4) (Some 5)
                              None None))) by reflexivity.
  split; [exact Hm |].
  exact (BIC_refuses_data hmm_store hmm _ [6] [1; 2]%Z Hm eq_refl).
Defined.

Lemma getstate_clears_caches_witness :
  let d := mkModel HSMM (Some 2) (Some [0; 1]) (Some [8]) (Some 6) (Some 7)
                   (Some [3; 4]) (Some 7) in
  __getstate__ hsmm hsmm_store = (Ok d, (__getstate__ hsmm hsmm_store).2)
  ∧ model_at hsmm_store hsmm = Some d
  ∧ model_at (__getstate__ hsmm hsmm_store).2 hsmm = Some d
  ∧ caches_cleared (__getstate__ hsmm hsmm_store).2 hsmm
  ∧ evolves cache_step hsmm_store (__getstate__ hsmm hsmm_store).2.
Proof.
  intros d.
  assert (E : __getstate__ hsmm hsmm_store = (Ok d, (__getstate__ hsmm hsmm_store).2))
    by (vm_compute; reflexivity).
  split; [exact E |].
  exact (getstate_clears_caches hsmm_store hsmm d _ E).
Defined.

Lemma resample_states_parallel_no_chains_witness :
  heap hmm_store0 !! hmm
  = Some (ModelObj (mkModel HMM (Some 2) (Some [0; 1]) (Some []) (Some 4) (Some 5)
                            None None))
  ∧ ∃ st', resample_states_parallel hmm None hmm_store0 = (Ok (), st')
           ∧ heap st' = heap hmm_store0 ∧ trace st' = trace hmm_store0.
Proof.
  assert (Hm : heap hmm_store0 !! hmm
    = Some (ModelObj (mkModel HMM (Some 2) (Some [0; 1]) (Some []) (Some 4) (Some 5)
                              None None))) by reflexivity.
  split; [exact Hm |].
  exact (resample_states_parallel_no_chains hmm_store0 hmm _ None Hm eq_refl).
Defined.

Lemma HMM_new_attributes_witness :
  HMM_new hmm_args distns_store = (Ok hmm, hmm_store0)
  ∧ hmm = length (heap distns_store)
  ∧ (∀ l o, heap distns_store !! l = Some o → heap hmm_store0 !! l = Some o)
  ∧ ∃ m t i,
      heap hmm_store0 !! hmm = Some (ModelObj m)
      ∧ klass m = HMM
      ∧ num_states m = Some 2
      ∧ obs_distns m = Some [0; 1]
      ∧ states_list m = Some []
      ∧ trans_distn m = Some t
      ∧ init_state_distn m = Some i
      ∧ (hmm < t ∧ ∃ p, heap hmm_store0 !! t = Some (Distn p))
      ∧ (hmm < i ∧ heap hmm_store0 !! i = Some (SteadyState hmm None)).
Proof.
  assert (E : HMM_new hmm_args distns_store = (Ok hmm, hmm_store0))
    by (vm_compute; reflexivity).
  split; [exact E |].
  exact (HMM_new_attributes hmm_args distns_store hmm hmm_store0 E).
Defined.


Lemma copy_sample_copies_witness :
  copy_sample hsmm hsmm_store = (Ok 9, hsmm_copied_store)
  ∧ ∃ m m',
      heap hsmm_store !! hsmm = Some (ModelObj m)
      ∧ 9 = length (heap hsmm_store)
      ∧ heap hsmm_copied_store !! 9 = Some (ModelObj m')
      ∧ evolves cache_step hsmm_store hsmm_copied_store
      ∧ caches_cleared hsmm_copied_store hsmm
      ∧ klass m' = klass m
      ∧ copied 9 hsmm_copied_store same (default [] (obs_distns m))
                                        (default [] (obs_distns m'))
      ∧ copied 9 hsmm_copied_store same (option_list (trans_distn m))
                                        (option_list (trans_distn m'))
      ∧ copied 9 hsmm_copied_store same (option_list (init_state_distn m))
                                        (option_list (init_state_distn m'))
      ∧ copied 9 hsmm_copied_store (chain_of 9) (default [] (states_list m))
                                                (default [] (states_list m'))
      ∧ (is_HSMM (klass m) = true →
         copied 9 hsmm_copied_store same (default [] (dur_distns m))
                                         (default [] (dur_distns m')))
      ∧ left_censoring_init_state_distn m' = left_censoring_init_state_distn m.
Proof.
  assert (E : copy_sample hsmm hsmm_store = (Ok 9, hsmm_copied_store))
    by (vm_compute; reflexivity).
  split; [exact E |].
  exact (copy_sample_copies hsmm_store hsmm 9 hsmm_copied_store E).
Defined.

Lemma copy_sample_independent_witness :
  (copy_sample hsmm hsmm_store = (Ok 9, hsmm_copied_store)
   ∧ ∀ l, length (heap hsmm_store) ≤ l →
          heap hsmm_moved_store !! l = heap hsmm_copied_store !! l)
  ∧ ∃ m',
      heap hsmm_copied_store !! 9 = Some (ModelObj m')
      ∧ heap hsmm_moved_store !! 9 = Some (ModelObj m')
      ∧ Forall (fun d => heap hsmm_moved_store !! d = heap hsmm_copied_store !! d)
               (copied_attributes m').
Proof.
  assert (E : copy_sample hsmm hsmm_store = (Ok 9, hsmm_copied_store))
    by (vm_compute; reflexivity).
  assert (Hlater : ∀ l, length (heap hsmm_store) ≤ l →
            heap hsmm_moved_store !! l = heap hsmm_copied_store !! l).
  { intros l Hl.
    assert (Hdrop : drop 9 (heap hsmm_moved_store) = drop 9 (heap hsmm_copied_store))
      by (vm_compute; reflexivity).
    assert (Hlen : length (heap hsmm_store) = 9) by reflexivity.
    replace l with (9 + (l - 9)) by lia.
    by rewrite <- !lookup_drop, Hdrop. }
  split; [by split |].
  exact (copy_sample_independent hsmm_store hsmm 9 hsmm_copied_store hsmm_moved_store
           E Hlater).
Defined.

Lemma generate_attaches_witness :
  let st' := (generate hmm 2 true false hmm_store).2 in
  (heap hmm_store !! hmm
   = Some (ModelObj (mkModel HMM (Some 2) (Some [0; 1]) (Some [6]) (Some 4) (Some 5)
                             None None))
   ∧ generate hmm 2 true false hmm_store = (Ok ([0; 1]%Z, [0; 1]), st'))
  ∧ HMM ≠ HSMMPossibleChangepoints
  ∧ ∃ c, states_at st' (length (heap hmm_store)) = Some c
         ∧ model c = hmm ∧ stateseq c = [0; 1]
         ∧ chains_at st' hmm = Some ([6] ++ [length (heap hmm_store)])
         ∧ data c = [0; 1]%Z.
Proof.
  intros st'.
  assert (Hm : heap hmm_store !! hmm
    = Some (ModelObj (mkModel HMM (Some 2) (Some [0; 1]) (Some [6]) (Some 4) (Some 5)
                              None None))) by reflexivity.
  assert (E : generate hmm 2 true false hmm_store = (Ok ([0; 1]%Z, [0; 1]), st'))
    by (vm_compute; reflexivity).
  split; [by split |].
  exact (generate_attaches hmm_store hmm _ [6] 2 true false _ _ Hm eq_refl E).
Defined.

End DemoMoreFacts.
